(** * The prefetch scheduler of the http_prefetching Chrome extension

    A shallow embedding of [scheduler/timetracker.js],
    [scheduler/numericpriorityscheduler.js], the message constants, the
    message handlers of [scheduler/content.js] and the hint header that the
    proxy prints, with the properties of the scheduler proved over it.

    Conventions of the embedding:
    - a JS [Map] from request ids is a [gmap string _], a JS [Set] of urls a
      [gset string];
    - the 2-D array [dependencies_] is a [list (list PrefetchResource)], read
      with the list lookup [!!] and written with [alter];
    - a JS number that holds a timestamp (the [timeStamp] of a webRequest
      event, in milliseconds with a fraction) or a fetch time is a
      binary64 [float], and the subtraction of two of them is the binary64
      subtraction [PrimFloat.sub], with its rounding; a JS number that
      holds a priority is a [Z], the result [NaN] of [parseInt] is [None];
    - a JS string is the [string] of its UTF-16 code units, which covers
      the strings whose code units are below 256; where a property rests
      on the parse of an arbitrary header value, the value is taken to be
      made of ASCII characters;
    - a method that mutates [this] and notifies the content script is a
      function from the scheduler to the new scheduler and the list of
      messages handed to [notifyContentScript_], oldest first;
    - a raised [TypeError] is the completion [Throw]; what was mutated
      before the raise stays mutated. *)

From Stdlib Require Import ZArith String Ascii List Lia PrimFloat.
From Stdlib Require Import DecimalString DecimalZ DecimalPos.
From stdpp Require Import base gmap sets list strings.

(** ** timetracker.js *)

Module PrefetchStatus.
Definition YES : string := "yes".
Definition NO : string := "no".
Definition UNKNOWN : string := "unknown".
End PrefetchStatus.

Module TimeTracker.

Record t := mk {
  requestTimes_ : gmap string float;
  completeTimes_ : gmap string float;
  prefetched_ : gmap string bool
}.

(** [constructor()] *)
Definition new : t := mk ∅ ∅ ∅.

Definition registerRequest (tt : t) (requestID : string)
    (requestTimestampMs : float) (isPrefetch : bool) : t :=
  mk (<[requestID := requestTimestampMs]> (requestTimes_ tt))
     (<[requestID := (-1)%float]> (completeTimes_ tt))
     (<[requestID := isPrefetch]> (prefetched_ tt)).

(** [requestTimes_.has] followed by [requestTimes_.get] is one lookup;
    [completeTimestampMs - requestTime] is the subtraction of two
    numbers. *)
Definition completeRequest (tt : t) (requestID : string)
    (completeTimestampMs : float) : t * float :=
  match requestTimes_ tt !! requestID with
  | None => (tt, (-1)%float)
  | Some requestTime =>
      let fetchTime := (completeTimestampMs - requestTime)%float in
      (mk (requestTimes_ tt)
          (<[requestID := completeTimestampMs]> (completeTimes_ tt))
          (prefetched_ tt),
       fetchTime)
  end.

(** [prefetched_.get(requestID)] is [undefined], hence falsy, on a
    missing key. *)
Definition isPrefetchRequest (tt : t) (requestID : string) : string :=
  match requestTimes_ tt !! requestID with
  | None => PrefetchStatus.UNKNOWN
  | Some _ =>
      if default false (prefetched_ tt !! requestID)
      then PrefetchStatus.YES else PrefetchStatus.NO
  end.

Definition getRequestTime (tt : t) (requestID : string) : float :=
  match requestTimes_ tt !! requestID with
  | None => (-1)%float
  | Some ts => ts
  end.

Definition getCompleteTime (tt : t) (requestID : string) : float :=
  match completeTimes_ tt !! requestID with
  | None => (-1)%float
  | Some ts => ts
  end.

(** The mutating part of the public interface, as a history of calls. *)
Inductive op :=
| Register (requestID : string) (requestTimestampMs : float) (isPrefetch : bool)
| Complete (requestID : string) (completeTimestampMs : float).

Definition apply (tt : t) (o : op) : t :=
  match o with
  | Register id ts p => registerRequest tt id ts p
  | Complete id ts => (completeRequest tt id ts).1
  end.

Definition run (ops : list op) (tt : t) : t := fold_left apply ops tt.

(** [registers id o]: the call [o] is [registerRequest(id, _, _)]. *)
Definition registers (id : string) (o : op) : bool :=
  match o with
  | Register id' _ _ => bool_decide (id' = id)
  | Complete _ _ => false
  end.

Definition neverRegistered (id : string) (ops : list op) : Prop :=
  Forall (λ o, registers id o = false) ops.

(** The three maps have the same keys. *)
Definition sameKeys (tt : t) : Prop :=
  dom (requestTimes_ tt) = dom (completeTimes_ tt) ∧
  dom (completeTimes_ tt) = dom (prefetched_ tt).

End TimeTracker.

(** ** JavaScript string primitives used by the scheduler *)

Module JS.

(** A character is a UTF-16 code unit below 256. [WhiteSpace] and
    [LineTerminator] among them, which [trim] and [parseInt] skip: TAB, LF,
    VT, FF, CR, space and the no-break space U+00A0. *)
Definition isWhiteSpace (c : ascii) : bool :=
  let n := nat_of_ascii c in
  ((9 <=? n)%nat && (n <=? 13)%nat) || (n =? 32)%nat || (n =? 160)%nat.

(** [isAscii s]: every code unit of [s] is below 128. *)
Fixpoint isAscii (s : string) : bool :=
  match s with
  | String c r => (nat_of_ascii c <? 128)%nat && isAscii r
  | EmptyString => true
  end.

Definition isDigit (c : ascii) : bool :=
  let n := nat_of_ascii c in (48 <=? n)%nat && (n <=? 57)%nat.

Fixpoint trimStart (s : string) : string :=
  match s with
  | String c r => if isWhiteSpace c then trimStart r else s
  | EmptyString => EmptyString
  end.

Fixpoint trimEnd (s : string) : string :=
  match s with
  | String c r =>
      match trimEnd r with
      | EmptyString => if isWhiteSpace c then EmptyString else String c EmptyString
      | r' => String c r'
      end
  | EmptyString => EmptyString
  end.

(** [String.prototype.trim] *)
Definition trim (s : string) : string := trimEnd (trimStart s).

(** [String.prototype.substring(start, end)]: both arguments are clamped
    to [0, length] and swapped when [start > end]. *)
Definition substring (s : string) (start end_ : Z) : string :=
  let len := Z.of_nat (String.length s) in
  let finalStart := Z.min (Z.max start 0) len in
  let finalEnd := Z.min (Z.max end_ 0) len in
  let from := Z.min finalStart finalEnd in
  let to := Z.max finalStart finalEnd in
  String.substring (Z.to_nat from) (Z.to_nat (to - from)) s.

(** [String.prototype.split(separator)] for a non-empty string separator:
    the pieces between the non-overlapping occurrences of [separator],
    found left to right. [skip] counts the characters of a matched
    separator still to be passed over, [cur] is the piece being read. *)
Fixpoint splitFrom (separator : string) (skip : nat) (cur : string)
    (s : string) : list string :=
  match s with
  | EmptyString => [cur]
  | String c r =>
      match skip with
      | S k => splitFrom separator k cur r
      | O =>
          if String.prefix separator s
          then cur :: splitFrom separator (String.length separator - 1) EmptyString r
          else splitFrom separator 0 (cur +:+ String c EmptyString) r
      end
  end.

Definition split (s separator : string) : list string :=
  splitFrom separator 0 EmptyString s.

(** [String.prototype.toLowerCase]: among the code units below 256 the
    upper case letters are A to Z and U+00C0 to U+00DE without the
    multiplication sign U+00D7; the lower case letter of each is 32
    above it. *)
Definition lowerChar (c : ascii) : ascii :=
  let n := nat_of_ascii c in
  if ((65 <=? n)%nat && (n <=? 90)%nat)
     || ((192 <=? n)%nat && (n <=? 222)%nat && negb (n =? 215)%nat)
  then ascii_of_nat (n + 32) else c.

Fixpoint toLowerCase (s : string) : string :=
  match s with
  | String c r => String (lowerChar c) (toLowerCase r)
  | EmptyString => EmptyString
  end.

Fixpoint digitsPrefix (s : string) : list Z :=
  match s with
  | String c r =>
      if isDigit c
      then (Z.of_nat (nat_of_ascii c) - 48)%Z :: digitsPrefix r
      else []
  | EmptyString => []
  end.

(** [parseInt(s, 10)]: leading white space is skipped, an optional sign is
    read, then the longest prefix of decimal digits; [None] is [NaN]. *)
Definition parseInt (s : string) : option Z :=
  let inputString := trimStart s in
  let '(sign, rest) :=
    match inputString with
    | String "-"%char r => ((-1)%Z, r)
    | String "+"%char r => (1%Z, r)
    | _ => (1%Z, inputString)
    end in
  match digitsPrefix rest with
  | [] => None
  | ds => Some (sign * fold_left (λ acc d, acc * 10 + d) ds 0)%Z
  end.

(** [Math.min(x, y)] with a possible [NaN] first argument. *)
Definition Math_min (x : option Z) (y : Z) : option Z :=
  (λ v, Z.min v y) <$> x.

(** [array[index]] of an array without holes, for a number [index] that
    may be [NaN], negative or past the end: [None] is [undefined]. *)
Definition index {A} (array : list A) (i : option Z) : option A :=
  match i with
  | Some p => if (0 <=? p)%Z then array !! Z.to_nat p else None
  | None => None
  end.

End JS.

(** ** The message constants and the messages *)

Module MessageType.
Definition CONTENT_SCRIPT_INIT : string := "content_script_init".
Definition PREFETCH_RESOURCE : string := "prefetch_resource".
Definition PRELOAD_RESOURCE : string := "preload_resource".
Definition COMPLETED : string := "completed".
Definition LOG_TIMING : string := "log_timing".
Definition NAVIGATED_TO_DST : string := "navigated_to_dst".
Definition DEBUG : string := "debug".
Definition INFO : string := "info".
End MessageType.

Module Message.

(** What an INFO message reports; the leading [performance.now()] of the
    text is left out. *)
Inductive InfoText :=
| StartingBackgroundScript
| HeadersReceived (url : string)
| CallingHandleFetchCompleted (fetchedURL : string)
| Lengths (outstanding_prefetches queuedPrefetches : nat)
| Error (url : string)
| Completed (url : string) (outstanding : nat).

Inductive t :=
| Info (message : InfoText)
| NavigatedToDst (url : string)
| Prefetch (type : string) (url resourceType : string)
| Log (url requestId : string)
      (fetchTime requestTimestampMs completeTimestampMs : float)
      (isPrefetch : string)
| Debug.

Definition type (m : t) : string :=
  match m with
  | Info _ => MessageType.INFO
  | NavigatedToDst _ => MessageType.NAVIGATED_TO_DST
  | Prefetch ty _ _ => ty
  | Log _ _ _ _ _ _ => MessageType.LOG_TIMING
  | Debug => MessageType.DEBUG
  end.

End Message.

(** ** content.js: the classification printed by [handleLogTiming] *)

Module Content.

(** What [handleLogTiming(msg)] appends to the log line, after the url, the
    request id and the three numbers, on [msg.isPrefetch]. *)
Definition classification (isPrefetch : string) : string :=
  if String.eqb isPrefetch "yes" then ",PREFETCH"
  else if String.eqb isPrefetch "no" then ",ACTUAL"
  else if String.eqb isPrefetch "late" then ",LATE_PREFETCH"
  else ",UNKNOWN".

(** The [link] elements that the content script makes. *)
Record Link := mkLink { href : string; rel : string; as_ : string }.

(** [document.createElement('link')] *)
Definition createLink : Link := mkLink "" "" "".

Record t := mk {
  fetchedUrls_ : gset string;
  didInit_ : bool;
  (* the children that the script has appended to the [head] element *)
  head : list Link;
  (* the types of the messages sent with [chrome.runtime.sendMessage] *)
  sent : list string
}.

(** [constructor()] *)
Definition new : t := mk ∅ false [] [].

(** [getPreloadTypeString(type)] *)
Definition getPreloadTypeString (type : string) : string :=
  if String.eqb (JS.toLowerCase type) "stylesheet" then "style"
  else JS.toLowerCase type.

Section DomSafe.

(** [domSafe.setLinkHrefAndRel(link, url, rel)], of a library that is not
    part of the repository: it is taken to return, leaving [link] with an
    [href] and a [rel] of its choice. *)
Variable setLinkHrefAndRel : Link → string → string → Link.

(** [constructPrefetchElement(msg)], on [msg.url] *)
Definition constructPrefetchElement (url : string) : Link :=
  setLinkHrefAndRel createLink url "prefetch".

(** [constructPreloadElement(msg)], on [msg.url] and [msg.resourceType] *)
Definition constructPreloadElement (url resourceType : string) : Link :=
  let link := setLinkHrefAndRel createLink url "preload" in
  mkLink (href link) (rel link) (getPreloadTypeString resourceType).

(** [handlePrefetchResource(msg)]. A message that is not of the shape of a
    directive has no [url]; [onMessageHandler] never passes one. *)
Definition handlePrefetchResource (c : t) (msg : Message.t) : t :=
  match msg with
  | Message.Prefetch type url resourceType =>
      if decide (url ∈ fetchedUrls_ c) then c
      else
        let appended link :=
          mk ({[url]} ∪ fetchedUrls_ c) (didInit_ c) (head c ++ [link]) (sent c) in
        if String.eqb type MessageType.PREFETCH_RESOURCE
        then appended (constructPrefetchElement url)
        else if String.eqb type MessageType.PRELOAD_RESOURCE
        then appended (constructPreloadElement url resourceType)
        else c
  | _ => c
  end.

(** [onMessageHandler(msg, sender, sendResponse)]: the other types are
    written to the console only. *)
Definition onMessageHandler (c : t) (msg : Message.t) : t :=
  if String.eqb (Message.type msg) MessageType.PREFETCH_RESOURCE
     || String.eqb (Message.type msg) MessageType.PRELOAD_RESOURCE
  then handlePrefetchResource c msg
  else c.

(** The messages of the background script, handled in their order. *)
Definition deliver (c : t) (msgs : list Message.t) : t :=
  fold_left onMessageHandler msgs c.

End DomSafe.

(** [start()] *)
Definition start (c : t) : t :=
  if negb (didInit_ c)
  then mk (fetchedUrls_ c) true (head c)
          (sent c ++ [MessageType.CONTENT_SCRIPT_INIT])
  else mk (fetchedUrls_ c) true (head c) (sent c).

End Content.

(** ** numericpriorityscheduler.js *)

Module PrefetchResource.
Record t := mk { url : string; type : string }.
End PrefetchResource.

Module HttpHeader.
Record t := mk { name : string; value : string }.
End HttpHeader.

(** The [details] object of a webRequest event, with the fields the
    handlers read. *)
Module Details.
Record t := mk {
  requestId : string;
  timeStamp : float;
  url : string;
  requestHeaders : list HttpHeader.t;
  responseHeaders : list HttpHeader.t
}.
End Details.

Inductive completion := Normal | Throw.

Module NumericPriorityScheduler.

Definition NUM_PRIORITIES : Z := 100.
Definition OUTSTANDING_REQUESTS_ALLOWED : nat := 7.
Definition DELIMETER : string := "|$de|".
Definition MAX_MAIN_FRAME_PRIORITY : Z := 2.

Record t := mk {
  dependencies_ : list (list PrefetchResource.t);
  outstandingPrefetchUrls_ : gset string;
  timeTracker : TimeTracker.t;
  requestedURLs_ : gset string;
  lpUrl : string;
  navigatedToDst_ : bool;
  queuedPrefetches_ : list PrefetchResource.t;
  curFetchPriority_ : Z;
  didInit_ : bool;
  initializedContentScript_ : bool
}.

(** [constructor()] *)
Definition new : t :=
  mk (replicate (Z.to_nat NUM_PRIORITIES) []) ∅ TimeTracker.new ∅ ""
     false [] (-1) false false.

(** Assignments to one field of [this]. *)
Definition set_dependencies_ (s : t) v :=
  mk v (outstandingPrefetchUrls_ s) (timeTracker s) (requestedURLs_ s)
     (lpUrl s) (navigatedToDst_ s) (queuedPrefetches_ s)
     (curFetchPriority_ s) (didInit_ s) (initializedContentScript_ s).
Definition set_outstandingPrefetchUrls_ (s : t) v :=
  mk (dependencies_ s) v (timeTracker s) (requestedURLs_ s)
     (lpUrl s) (navigatedToDst_ s) (queuedPrefetches_ s)
     (curFetchPriority_ s) (didInit_ s) (initializedContentScript_ s).
Definition set_timeTracker (s : t) v :=
  mk (dependencies_ s) (outstandingPrefetchUrls_ s) v (requestedURLs_ s)
     (lpUrl s) (navigatedToDst_ s) (queuedPrefetches_ s)
     (curFetchPriority_ s) (didInit_ s) (initializedContentScript_ s).
Definition set_requestedURLs_ (s : t) v :=
  mk (dependencies_ s) (outstandingPrefetchUrls_ s) (timeTracker s) v
     (lpUrl s) (navigatedToDst_ s) (queuedPrefetches_ s)
     (curFetchPriority_ s) (didInit_ s) (initializedContentScript_ s).
Definition set_lpUrl (s : t) v :=
  mk (dependencies_ s) (outstandingPrefetchUrls_ s) (timeTracker s)
     (requestedURLs_ s) v (navigatedToDst_ s) (queuedPrefetches_ s)
     (curFetchPriority_ s) (didInit_ s) (initializedContentScript_ s).
Definition set_navigatedToDst_ (s : t) v :=
  mk (dependencies_ s) (outstandingPrefetchUrls_ s) (timeTracker s)
     (requestedURLs_ s) (lpUrl s) v (queuedPrefetches_ s)
     (curFetchPriority_ s) (didInit_ s) (initializedContentScript_ s).
Definition set_queuedPrefetches_ (s : t) v :=
  mk (dependencies_ s) (outstandingPrefetchUrls_ s) (timeTracker s)
     (requestedURLs_ s) (lpUrl s) (navigatedToDst_ s) v
     (curFetchPriority_ s) (didInit_ s) (initializedContentScript_ s).
Definition set_curFetchPriority_ (s : t) v :=
  mk (dependencies_ s) (outstandingPrefetchUrls_ s) (timeTracker s)
     (requestedURLs_ s) (lpUrl s) (navigatedToDst_ s) (queuedPrefetches_ s)
     v (didInit_ s) (initializedContentScript_ s).
Definition set_didInit_ (s : t) v :=
  mk (dependencies_ s) (outstandingPrefetchUrls_ s) (timeTracker s)
     (requestedURLs_ s) (lpUrl s) (navigatedToDst_ s) (queuedPrefetches_ s)
     (curFetchPriority_ s) v (initializedContentScript_ s).
Definition set_initializedContentScript_ (s : t) v :=
  mk (dependencies_ s) (outstandingPrefetchUrls_ s) (timeTracker s)
     (requestedURLs_ s) (lpUrl s) (navigatedToDst_ s) (queuedPrefetches_ s)
     (curFetchPriority_ s) (didInit_ s) v.

(** [isPrefetchRequest_(requestHeaders)] *)
Definition isPrefetchRequest_ (requestHeaders : list HttpHeader.t) : bool :=
  existsb
    (λ element,
       String.eqb (JS.toLowerCase (HttpHeader.name element)) "purpose" &&
       String.eqb (JS.toLowerCase (HttpHeader.value element)) "prefetch")
    requestHeaders.

(** [onSendHeaders_(details)] *)
Definition onSendHeaders_ (s : t) (details : Details.t)
    : t * list Message.t :=
  let isPrefetch := isPrefetchRequest_ (Details.requestHeaders details) in
  let s := set_timeTracker s
             (TimeTracker.registerRequest (timeTracker s)
                (Details.requestId details) (Details.timeStamp details)
                isPrefetch) in
  let '(s, out) :=
    if String.eqb (Details.url details) (lpUrl s)
    then (set_navigatedToDst_ s true, [Message.NavigatedToDst (lpUrl s)])
    else (s, []) in
  (set_requestedURLs_ s ({[Details.url details]} ∪ requestedURLs_ s), out).

(** The body of the [forEach] callback of [parsePrefetchURLs] on one
    element. [None] is a raised [TypeError] (a property read or a method
    call on [undefined]); every raise comes before the [push], so nothing
    is mutated then. *)
Definition parseElement (dependencies : list (list PrefetchResource.t))
    (element : string) : option (list (list PrefetchResource.t)) :=
  let prefetchInfo := JS.split element ";" in
  (* Parse the URL. *)
  let trimmedUrl := JS.trim (default "" (prefetchInfo !! 0%nat)) in
  let url :=
    JS.substring trimmedUrl 1 (Z.of_nat (String.length trimmedUrl) - 1) in
  (* Parse the priority. *)
  info1 ← prefetchInfo !! 1%nat;
  value1 ← JS.split info1 "=" !! 1%nat;
  let priority := JS.parseInt (JS.trim value1) in
  let targetPriority := JS.Math_min priority (NUM_PRIORITIES - 1) in
  (* Parse the type. *)
  info2 ← prefetchInfo !! 2%nat;
  value2 ← JS.split info2 "=" !! 1%nat;
  let type := JS.trim value2 in
  let prefetchResource := PrefetchResource.mk url type in
  _ ← JS.index dependencies targetPriority;
  Some (alter (λ bucket, bucket ++ [prefetchResource])
          (Z.to_nat (default 0%Z targetPriority)) dependencies).

(** [prefetchURLs.forEach(...)]: a raise leaves the loop; the elements
    before it have been pushed. *)
Fixpoint parseElements (dependencies : list (list PrefetchResource.t))
    (prefetchURLs : list string)
    : list (list PrefetchResource.t) * completion :=
  match prefetchURLs with
  | [] => (dependencies, Normal)
  | element :: rest =>
      match parseElement dependencies element with
      | Some dependencies' => parseElements dependencies' rest
      | None => (dependencies, Throw)
      end
  end.

(** [parsePrefetchURLs(dependencies, prefetchStr)] *)
Definition parsePrefetchURLs (dependencies : list (list PrefetchResource.t))
    (prefetchStr : string) : list (list PrefetchResource.t) * completion :=
  parseElements dependencies (JS.split prefetchStr DELIMETER).

(** The [forEach] over the response headers in [onHeadersReceived_]. *)
Fixpoint eachResponseHeader (s : t) (headers : list HttpHeader.t)
    : t * completion :=
  match headers with
  | [] => (s, Normal)
  | element :: rest =>
      if String.eqb (JS.toLowerCase (HttpHeader.name element)) "x-prefetch"
      then
        match parsePrefetchURLs (dependencies_ s) (HttpHeader.value element) with
        | (deps, Normal) => eachResponseHeader (set_dependencies_ s deps) rest
        | (deps, Throw) => (set_dependencies_ s deps, Throw)
        end
      else if String.eqb (JS.toLowerCase (HttpHeader.name element)) "x-lp-url"
      then eachResponseHeader (set_lpUrl s (HttpHeader.value element)) rest
      else eachResponseHeader s rest
  end.

(** [onHeadersReceived_(details)]; the returned object, which holds
    [details.responseHeaders] as it came, is left out. *)
Definition onHeadersReceived_ (s : t) (details : Details.t)
    : t * list Message.t * completion :=
  let completeMsg := Message.Info (Message.HeadersReceived (Details.url details)) in
  let '(s, c) := eachResponseHeader s (Details.responseHeaders details) in
  (s, [completeMsg], c).

(** [fetchDependency(resource, priority)] *)
Definition fetchDependency (s : t) (resource : PrefetchResource.t)
    (priority : Z) : t * list Message.t :=
  let url := PrefetchResource.url resource in
  if decide (url ∈ requestedURLs_ s) then
    (s, [Message.Log url "" (-1) (-1) (-1) "late"])
  else
    let msgType :=
      if navigatedToDst_ s then MessageType.PRELOAD_RESOURCE
      else MessageType.PREFETCH_RESOURCE in
    let msgType :=
      if (priority >? MAX_MAIN_FRAME_PRIORITY)%Z
      then MessageType.PREFETCH_RESOURCE else msgType in
    (set_outstandingPrefetchUrls_ s ({[url]} ∪ outstandingPrefetchUrls_ s),
     [Message.Prefetch msgType url (PrefetchResource.type resource)]).

(** The scan for the first non-empty bucket, from index [i] on: the
    index found, or -1. *)
Fixpoint firstNonEmpty (i : Z) (dependencies : list (list PrefetchResource.t))
    : Z :=
  match dependencies with
  | [] => (-1)%Z
  | bucket :: rest =>
      if (0 <? length bucket)%nat then i else firstNonEmpty (i + 1) rest
  end.

(** [while (dependencies.length > 0)]: the first dependency is spliced off
    the bucket and pushed on the queue. Returns the bucket and the queue
    at the exit of the loop. *)
Fixpoint enqueueAll (dependencies queuedPrefetches : list PrefetchResource.t)
    : list PrefetchResource.t * list PrefetchResource.t :=
  match dependencies with
  | [] => ([], queuedPrefetches)
  | dependency :: rest => enqueueAll rest (queuedPrefetches ++ [dependency])
  end.

(** The enqueuing step of [handleFetchCompleted], taken when nothing is
    outstanding, some bucket is non-empty and the queue is empty. *)
Definition enqueueNext (s : t) (nextPriority : Z) : t :=
  if decide (size (outstandingPrefetchUrls_ s) = 0%nat ∧
             nextPriority ≠ (-1)%Z ∧
             length (queuedPrefetches_ s) = 0%nat) then
    let dependencies :=
      default [] (dependencies_ s !! Z.to_nat nextPriority) in
    let '(emptied, queued) := enqueueAll dependencies (queuedPrefetches_ s) in
    let s := set_dependencies_ s
               (<[Z.to_nat nextPriority := emptied]> (dependencies_ s)) in
    let s := set_queuedPrefetches_ s queued in
    set_curFetchPriority_ s nextPriority
  else s.

(** The last loop of [handleFetchCompleted]: while fewer than
    [OUTSTANDING_REQUESTS_ALLOWED] urls are outstanding and the queue is
    not empty, the head of the queue is spliced off and fetched. [queued]
    is [queuedPrefetches_ s], which [fetchDependency] does not touch. *)
Fixpoint fetchQueued (s : t) (queued : list PrefetchResource.t)
    : t * list Message.t :=
  match queued with
  | [] => (s, [])
  | dependency :: rest =>
      if decide (size (outstandingPrefetchUrls_ s) < OUTSTANDING_REQUESTS_ALLOWED)%nat
      then
        let s := set_queuedPrefetches_ s rest in
        let '(s, out1) := fetchDependency s dependency (curFetchPriority_ s) in
        let '(s, out2) := fetchQueued s rest in
        (s, out1 ++ out2)
      else (s, [])
  end.

(** [handleFetchCompleted(fetchedURL)] *)
Definition handleFetchCompleted (s : t) (fetchedURL : string)
    : t * list Message.t :=
  let calledMsg := Message.Info (Message.CallingHandleFetchCompleted fetchedURL) in
  if decide (OUTSTANDING_REQUESTS_ALLOWED ≤ size (outstandingPrefetchUrls_ s))%nat
  then (s, [calledMsg])
  else
    let nextPriority := firstNonEmpty 0 (dependencies_ s) in
    let s := enqueueNext s nextPriority in
    let msg := Message.Info
                 (Message.Lengths (size (outstandingPrefetchUrls_ s))
                    (length (queuedPrefetches_ s))) in
    let '(s, out) := fetchQueued s (queuedPrefetches_ s) in
    (s, calledMsg :: msg :: out).

(** [onContentMessage_(msg, sender, sendResponse)], on [msg.type]. *)
Definition onContentMessage_ (s : t) (type : string) : t * list Message.t :=
  if String.eqb type MessageType.CONTENT_SCRIPT_INIT then
    if negb (initializedContentScript_ s) then
      let '(s, out) := handleFetchCompleted s "INIT" in
      (set_initializedContentScript_ s true, out)
    else (s, [])
  else (s, []).

(** [onFetchCompleted_(details)] *)
Definition onFetchCompleted_ (s : t) (details : Details.t)
    : t * list Message.t :=
  let url := Details.url details in
  let requestId := Details.requestId details in
  let s := set_outstandingPrefetchUrls_ s
             (outstandingPrefetchUrls_ s ∖ {[url]}) in
  let '(s, out) := handleFetchCompleted s url in
  let debugMsg := Message.Debug in
  let '(tracker, fetchTime) :=
    TimeTracker.completeRequest (timeTracker s) requestId
      (Details.timeStamp details) in
  let s := set_timeTracker s tracker in
  let logMsg :=
    Message.Log url requestId fetchTime
      (TimeTracker.getRequestTime tracker requestId)
      (TimeTracker.getCompleteTime tracker requestId)
      (TimeTracker.isPrefetchRequest tracker requestId) in
  (s, out ++ [debugMsg; logMsg]).

(** [onErrorOccurred_(details)] *)
Definition onErrorOccurred_ (s : t) (details : Details.t)
    : t * list Message.t :=
  let completeMsg := Message.Info (Message.Error (Details.url details)) in
  let '(s, out) := onFetchCompleted_ s details in
  (s, completeMsg :: out).

(** [onFetchSucceed_(details)] *)
Definition onFetchSucceed_ (s : t) (details : Details.t)
    : t * list Message.t :=
  let completeMsg :=
    Message.Info (Message.Completed (Details.url details)
                    (size (outstandingPrefetchUrls_ s))) in
  let '(s, out) := onFetchCompleted_ s details in
  (s, completeMsg :: out).

(** [run()]: the listeners are added once. *)
Definition run (s : t) : t * list Message.t :=
  if negb (didInit_ s)
  then (set_didInit_ s true, [Message.Info Message.StartingBackgroundScript])
  else (s, []).

(** What the extension's host can make happen: the background page calls
    [run()], and a listener added by [run()] is called with an event. *)
Inductive event :=
| Run
| SendHeaders (details : Details.t)
| HeadersReceived (details : Details.t)
| Completed (details : Details.t)
| ErrorOccurred (details : Details.t)
| ContentMessage (type : string).

(** One turn of the event loop. No listener is called before [run()] has
    added it. A [TypeError] raised in [onHeadersReceived_] ends the turn;
    the scheduler stays as the handler left it. *)
Definition step (s : t) (e : event) : t * list Message.t :=
  match e with
  | Run => run s
  | SendHeaders details =>
      if didInit_ s then onSendHeaders_ s details else (s, [])
  | HeadersReceived details =>
      if didInit_ s then (onHeadersReceived_ s details).1 else (s, [])
  | Completed details =>
      if didInit_ s then onFetchSucceed_ s details else (s, [])
  | ErrorOccurred details =>
      if didInit_ s then onErrorOccurred_ s details else (s, [])
  | ContentMessage type =>
      if didInit_ s then onContentMessage_ s type else (s, [])
  end.

Fixpoint exec (s : t) (events : list event) : t * list Message.t :=
  match events with
  | [] => (s, [])
  | e :: rest =>
      let '(s, out1) := step s e in
      let '(s, out2) := exec s rest in
      (s, out1 ++ out2)
  end.

Definition reachable (s : t) : Prop := ∃ events, (exec new events).1 = s.

(** The urls handed to [fetchDependency], read off the messages: each call
    sends exactly one message, a directive or a late timing log. *)
Definition fetchedUrl (m : Message.t) : option string :=
  match m with
  | Message.Prefetch _ url _ => Some url
  | Message.Log url _ _ _ _ isPrefetch =>
      if String.eqb isPrefetch "late" then Some url else None
  | _ => None
  end.

Definition fetchedUrls (out : list Message.t) : list string :=
  omap fetchedUrl out.

(** The urls of the directives sent: each is added to
    [outstandingPrefetchUrls_] right after. *)
Definition directiveUrl (m : Message.t) : option string :=
  match m with
  | Message.Prefetch _ url _ => Some url
  | _ => None
  end.

Definition directiveUrls (out : list Message.t) : list string :=
  omap directiveUrl out.

(** [appended dependencies dependencies']: every bucket of [dependencies'] is
    the bucket of [dependencies] at the same index with resources added at
    its end. *)
Definition appended (dependencies dependencies' : list (list PrefetchResource.t))
    : Prop :=
  ∀ p bucket,
    dependencies !! p = Some bucket →
    ∃ new, dependencies' !! p = Some (bucket ++ new).

(** The url whose completion or failure the event reports, if any. *)
Definition completedUrls (e : event) : gset string :=
  match e with
  | Completed details | ErrorOccurred details => {[Details.url details]}
  | _ => ∅
  end.

(** [waiting p rs s]: the resources [rs] are in bucket [p] of [s], at its
    front and in this order. *)
Definition waiting (p : nat) (rs : list PrefetchResource.t) (s : t) : Prop :=
  ∃ later, dependencies_ s !! p = Some (rs ++ later).

(** [lined qs rs s out]: in the urls that [out] shows as fetched followed
    by the urls of the queue of [s], the urls of [qs] stand next to each
    other in the order of [qs], and after them the urls of [rs] stand next
    to each other in the order of [rs]. As the queue is fetched from its
    head, what is still to fetch of [qs] and [rs] comes after what has been
    fetched of them, in this order. *)
Definition lined (qs rs : list PrefetchResource.t) (s : t)
    (out : list Message.t) : Prop :=
  ∃ pre mid post,
    fetchedUrls out ++ map PrefetchResource.url (queuedPrefetches_ s)
      = pre ++ map PrefetchResource.url qs ++ mid
          ++ map PrefetchResource.url rs ++ post.

(** [refill s s' out]: what a call of [handleFetchCompleted] from [s] to [s']
    that sends [out] does. Either the buckets stay as they are and a prefix
    of the queue is fetched, in the order of the queue; or nothing was
    outstanding, the queue was empty, and the first non-empty bucket is
    emptied, a prefix of it fetched in its order and the rest of it queued
    in its order, its index becoming the current priority. *)
Definition refill (s s' : t) (out : list Message.t) : Prop :=
  (dependencies_ s' = dependencies_ s ∧
   ∃ fetched,
     queuedPrefetches_ s = fetched ++ queuedPrefetches_ s' ∧
     fetchedUrls out = map PrefetchResource.url fetched) ∨
  (∃ k bucket fetched,
     size (outstandingPrefetchUrls_ s) = 0 ∧
     queuedPrefetches_ s = [] ∧
     dependencies_ s !! k = Some bucket ∧ bucket ≠ [] ∧
     (∀ j, j < k → dependencies_ s !! j = Some []) ∧
     dependencies_ s' = <[k := []]> (dependencies_ s) ∧
     curFetchPriority_ s' = Z.of_nat k ∧
     bucket = fetched ++ queuedPrefetches_ s' ∧
     fetchedUrls out = map PrefetchResource.url fetched).

(** [turn outstanding s s' out]: what a turn of the event loop from [s] to
    [s'] that sends [out] does to the buckets and the queue. Either the
    buckets are appended to at most and a prefix of the queue is fetched; or,
    [outstanding] and the queue being empty, the first non-empty bucket is
    emptied, a prefix of it fetched and the rest of it queued. *)
Definition turn (outstanding : gset string) (s s' : t) (out : list Message.t)
    : Prop :=
  (appended (dependencies_ s) (dependencies_ s') ∧
   ∃ fetched,
     queuedPrefetches_ s = fetched ++ queuedPrefetches_ s' ∧
     fetchedUrls out = map PrefetchResource.url fetched) ∨
  (∃ k bucket fetched,
     size outstanding = 0 ∧
     queuedPrefetches_ s = [] ∧
     dependencies_ s !! k = Some bucket ∧ bucket ≠ [] ∧
     (∀ j, j < k → dependencies_ s !! j = Some []) ∧
     dependencies_ s' = <[k := []]> (dependencies_ s) ∧
     curFetchPriority_ s' = Z.of_nat k ∧
     bucket = fetched ++ queuedPrefetches_ s' ∧
     fetchedUrls out = map PrefetchResource.url fetched).

(** The timing log that [fetchDependency] sends for a url that the browser
    has requested already. *)
Definition lateLog (url : string) : Message.t :=
  Message.Log url "" (-1) (-1) (-1) "late".

(** [handed requested m]: the message [m] shows no fetch, or it is what
    [fetchDependency] sends for a url, given the requested urls: the late
    timing log for a requested url, a directive for another. *)
Definition handed (requested : gset string) (m : Message.t) : Prop :=
  fetchedUrl m = None ∨
  (∃ u, u ∈ requested ∧ m = lateLog u) ∨
  (∃ u msgType resourceType,
     (u ∉ requested) ∧ m = Message.Prefetch msgType u resourceType).

(** [dispatched s s' out u]: what a turn from [s] to [s'] that sends [out]
    and hands the url [u] to [fetchDependency] does with it. When the
    browser has not requested [u], a directive for [u] is sent and [u] is
    outstanding after the turn; when it has, the late timing log of [u] is
    sent, no directive is, and the turn has not made [u] outstanding. *)
Definition dispatched (s s' : t) (out : list Message.t) (u : string) : Prop :=
  (u ∉ requestedURLs_ s →
   u ∈ directiveUrls out ∧ u ∈ outstandingPrefetchUrls_ s') ∧
  (u ∈ requestedURLs_ s →
   lateLog u ∈ out ∧ (u ∉ directiveUrls out) ∧
   (u ∈ outstandingPrefetchUrls_ s' → u ∈ outstandingPrefetchUrls_ s)).

End NumericPriorityScheduler.

(** ** Concrete schedulers and event sequences *)

Module Scenario.
Import NumericPriorityScheduler.

(** A scheduler with seven urls outstanding: seven hints of the first
    bucket, dispatched when the content script reports in. *)
Definition sevenHints : string :=
  "<u1>; priority=0; type=script|$de|<u2>; priority=0; type=script|$de|" +:+
  "<u3>; priority=0; type=script|$de|<u4>; priority=0; type=script|$de|" +:+
  "<u5>; priority=0; type=script|$de|<u6>; priority=0; type=script|$de|" +:+
  "<u7>; priority=0; type=script".

Definition sevenOutstanding : t :=
  (exec new
     [Run;
      HeadersReceived
        (Details.mk "1" 10 "http://proxy/" []
           [HttpHeader.mk "x-prefetch" sevenHints]);
      ContentMessage MessageType.CONTENT_SCRIPT_INIT]).1.

(** Eight hints of the first bucket for one url. *)
Definition eightHintsOneUrl : string :=
  "<u>; priority=0; type=script|$de|<u>; priority=0; type=script|$de|" +:+
  "<u>; priority=0; type=script|$de|<u>; priority=0; type=script|$de|" +:+
  "<u>; priority=0; type=script|$de|<u>; priority=0; type=script|$de|" +:+
  "<u>; priority=0; type=script|$de|<u>; priority=0; type=script".

Definition eightQueuedOneUrl : t :=
  (exec new
     [Run;
      HeadersReceived
        (Details.mk "1" 10 "http://proxy/" []
           [HttpHeader.mk "x-prefetch" eightHintsOneUrl])]).1.


(** A hint with a negative priority, as the proxy prints it for a resource
    whose [Priority] is -5. *)
Definition negativeHint : string := "<http://lp/app.js>; priority=-5; type=0".

Definition negativeHintReceived : Details.t :=
  Details.mk "1" 10 "http://proxy/" []
    [HttpHeader.mk "x-prefetch" negativeHint].

(** Two hints, for the buckets 0 and 5; the url of the first is requested by
    the browser before the content script reports in. *)
Definition twoTiers : string :=
  "<a>; priority=0; type=script|$de|<c>; priority=5; type=image".

Definition twoTiersReceived : t :=
  (exec new
     [Run;
      HeadersReceived
        (Details.mk "1" 10 "http://proxy/" []
           [HttpHeader.mk "x-prefetch" twoTiers])]).1.

Definition requestOfA : Details.t := Details.mk "2" 20 "a" [] [].

(** Three hints for the buckets 0, 0 and 5, written without spaces; and
    eight hints for bucket 0. *)
Definition threeHints : string :=
  "<a>;priority=0;type=script|$de|<b>;priority=0;type=style|$de|" +:+
  "<c>;priority=5;type=image".

Definition eightHints : string := sevenHints +:+ "|$de|<u8>; priority=0; type=script".

(** The three hints received by a started scheduler: [a] and [b] wait in
    bucket 0, [c] in bucket 5. *)
Definition threeHintsReceived : t :=
  (exec new
     [Run;
      HeadersReceived
        (Details.mk "1" 10 "http://proxy/" []
           [HttpHeader.mk "x-prefetch" threeHints])]).1.

Definition hintsReceived (prefetchStr : string) : event :=
  HeadersReceived
    (Details.mk "1" 10 "http://proxy/" [] [HttpHeader.mk "X-Prefetch" prefetchStr]).

Definition completionOf (requestId url : string) : event :=
  Completed (Details.mk requestId 50 url [] []).

End Scenario.

(** ** prefetchlib: the hints as the proxy prints them *)

Module Prefetchlib.

(** [type Resource struct]; the field [Type] is [Type_] here. *)
Record Resource := mkResource { URL : string; Type_ : Z; Priority : Z }.

Definition delim : string := "|$de|".

(** The verb [%d] of [fmt.Sprintf] on an [int]: decimal digits, with a
    leading minus sign for a negative number. *)
Definition formatInt (n : Z) : string := NilZero.string_of_int (Z.to_int n).

(** [generatePrefetchHeaderString(resource)] *)
Definition generatePrefetchHeaderString (resource : Resource) : string :=
  "<" +:+ URL resource +:+ ">; priority=" +:+ formatInt (Priority resource)
      +:+ "; type=" +:+ formatInt (Type_ resource).

(** [strings.Join(elems, sep)] *)
Fixpoint join (elems : list string) (sep : string) : string :=
  match elems with
  | [] => ""
  | [e] => e
  | e :: rest => e +:+ sep +:+ join rest sep
  end.

(** The value that [ServeHTTP] gives the [x-prefetch] header when the
    request asks for the hints in a header. *)
Definition prefetchHeaderValue (prefetchURLs : list Resource) : string :=
  join (map generatePrefetchHeaderString prefetchURLs) delim.

(** [hasChar c s]: the character [c] occurs in [s]. *)
Fixpoint hasChar (c : ascii) (s : string) : bool :=
  match s with
  | String x r => Ascii.eqb x c || hasChar c r
  | EmptyString => false
  end.

End Prefetchlib.

(** ** Histories of calls and of events *)

Module History.
Import NumericPriorityScheduler.

(** [completes id o]: the call [o] is [completeRequest(id, _)]. *)
Definition completes (id : string) (o : TimeTracker.op) : bool :=
  match o with
  | TimeTracker.Complete id' _ => bool_decide (id' = id)
  | TimeTracker.Register _ _ _ => false
  end.

Definition neverCompleted (id : string) (ops : list TimeTracker.op) : Prop :=
  Forall (λ o, completes id o = false) ops.

(** [sendsHeadersFor requestId e]: the event [e] is the sending of the
    headers of the request [requestId]. *)
Definition sendsHeadersFor (requestId : string) (e : event) : bool :=
  match e with
  | SendHeaders details => bool_decide (Details.requestId details = requestId)
  | _ => false
  end.

(** [receivesHeaders e]: the event [e] is the arrival of response headers. *)
Definition receivesHeaders (e : event) : bool :=
  match e with
  | HeadersReceived _ => true
  | _ => false
  end.

(** [reportsCompletion e]: the event [e] is the completion or the failure
    of a request. *)
Definition reportsCompletion (e : event) : bool :=
  match e with
  | Completed _ | ErrorOccurred _ => true
  | _ => false
  end.

(** The url for which the content script makes a [link] when it gets the
    message, if no [link] has been made for it: the url of a directive of
    type prefetch or preload. *)
Definition injectedUrl (m : Message.t) : option string :=
  match m with
  | Message.Prefetch type url _ =>
      if String.eqb type MessageType.PREFETCH_RESOURCE
         || String.eqb type MessageType.PRELOAD_RESOURCE
      then Some url else None
  | _ => None
  end.

(** [priorityInRange s]: the current priority is -1 or the index of a
    bucket, and as long as it is -1 nothing is queued and nothing is
    outstanding. *)
Definition priorityInRange (s : t) : Prop :=
  (-1 ≤ curFetchPriority_ s < Z.of_nat (length (dependencies_ s)))%Z ∧
  (curFetchPriority_ s = (-1)%Z →
   queuedPrefetches_ s = [] ∧ outstandingPrefetchUrls_ s = ∅).

(** The urls that wait to be fetched: those of the queue, then those of the
    buckets. *)
Definition pendingUrls (s : t) : list string :=
  map PrefetchResource.url (queuedPrefetches_ s ++ concat (dependencies_ s)).

(** The bucket index and the resource that the scheduler gets from a
    resource of the proxy. *)
Definition hinted (resource : Prefetchlib.Resource) : nat * PrefetchResource.t :=
  (Z.to_nat (Z.min (Prefetchlib.Priority resource) (NUM_PRIORITIES - 1)),
   PrefetchResource.mk (Prefetchlib.URL resource)
     (Prefetchlib.formatInt (Prefetchlib.Type_ resource))).

(** The buckets with the resource of the proxy at the end of its bucket. *)
Definition store (dependencies : list (list PrefetchResource.t))
    (resource : Prefetchlib.Resource) : list (list PrefetchResource.t) :=
  alter (λ bucket, bucket ++ [(hinted resource).2]) (hinted resource).1
    dependencies.

(** A resource whose url has no [;] and no [|], with a priority that is not
    negative. *)
Definition clean (resource : Prefetchlib.Resource) : Prop :=
  Prefetchlib.hasChar ";" (Prefetchlib.URL resource) = false ∧
  Prefetchlib.hasChar "|" (Prefetchlib.URL resource) = false ∧
  (0 ≤ Prefetchlib.Priority resource)%Z.

End History.

(** * Properties *)

(** ** The tracker *)

Section TimeTrackerFacts.
Import TimeTracker.

Lemma run_app ops1 ops2 tr : run (ops1 ++ ops2) tr = run ops2 (run ops1 tr).
Proof. unfold run. by rewrite fold_left_app. Qed.

Lemma apply_requestTimes_other tr o id :
  registers id o = false →
  requestTimes_ (apply tr o) !! id = requestTimes_ tr !! id.
Proof.
  destruct o as [id' ts p|id' ts]; simpl; intros Hr.
  - apply bool_decide_eq_false in Hr. by rewrite lookup_insert_ne.
  - unfold completeRequest. by destruct (requestTimes_ tr !! id').
Qed.

Lemma run_requestTimes_other ops tr id :
  neverRegistered id ops →
  requestTimes_ (run ops tr) !! id = requestTimes_ tr !! id.
Proof.
  revert tr. induction ops as [|o ops IH]; intros tr Hn; [done|].
  inversion Hn as [|? ? Ho Hops]; subst. simpl.
  rewrite IH by done. by apply apply_requestTimes_other.
Qed.

Lemma sameKeys_new : sameKeys new.
Proof. split; reflexivity. Qed.

Lemma sameKeys_registerRequest tr id ts p :
  sameKeys tr → sameKeys (registerRequest tr id ts p).
Proof.
  intros [Hrc Hcp]. split; simpl; rewrite !dom_insert_L; congruence.
Qed.

Lemma sameKeys_completeRequest tr id ts :
  sameKeys tr → sameKeys (completeRequest tr id ts).1.
Proof.
  intros [Hrc Hcp]. unfold completeRequest.
  destruct (requestTimes_ tr !! id) as [rt|] eqn:E; [|done].
  assert (id ∈ dom (completeTimes_ tr)) as Hin.
  { rewrite <- Hrc. apply elem_of_dom. eauto. }
  assert ({[id]} ∪ dom (completeTimes_ tr) = dom (completeTimes_ tr)) as Hid.
  { apply subseteq_union_1_L. by apply singleton_subseteq_l. }
  split; simpl; rewrite dom_insert_L, Hid; done.
Qed.

Lemma sameKeys_apply tr o : sameKeys tr → sameKeys (apply tr o).
Proof.
  destruct o; simpl; auto using sameKeys_registerRequest,
    sameKeys_completeRequest.
Qed.

Lemma sameKeys_run ops tr : sameKeys tr → sameKeys (run ops tr).
Proof.
  revert tr. induction ops as [|o ops IH]; intros tr H; [done|].
  simpl. apply IH. by apply sameKeys_apply.
Qed.

Lemma sameKeys_has tr id :
  sameKeys tr →
  (is_Some (requestTimes_ tr !! id) ↔ is_Some (completeTimes_ tr !! id)) ∧
  (is_Some (requestTimes_ tr !! id) ↔ is_Some (prefetched_ tr !! id)).
Proof.
  intros [Hrc Hcp]. rewrite <- !elem_of_dom. rewrite <- Hcp, <- Hrc. done.
Qed.

(** C2. After [registerRequest(id, t0, _)], whatever was called before it
    and whatever calls other than a registration of [id] came after it,
    [completeRequest(id, t1)] returns [t1 - t0], the difference of the two
    numbers as JavaScript computes it (the binary64 subtraction), and [t1]
    is then the recorded complete timestamp of [id]; on a tracker whose
    history never registered [id], [completeRequest(id, t1)] returns -1 and
    the tracker it leaves is the tracker it found. *)
Theorem completeRequest_timing
    (before between history : list op) (id : string) (t0 t1 : float) (p : bool) :
  neverRegistered id between →
  neverRegistered id history →
  let tracked := run (before ++ Register id t0 p :: between) new in
  let untracked := run history new in
  (completeRequest tracked id t1).2 = (t1 - t0)%float ∧
  getCompleteTime (completeRequest tracked id t1).1 id = t1 ∧
  completeRequest untracked id t1 = (untracked, (-1)%float).
Proof.
  intros Hbetween Hhistory tracked untracked.
  assert (requestTimes_ tracked !! id = Some t0) as Htracked.
  { unfold tracked. rewrite run_app. simpl.
    rewrite run_requestTimes_other by done. simpl. apply lookup_insert_eq. }
  assert (requestTimes_ untracked !! id = None) as Huntracked.
  { unfold untracked. by rewrite run_requestTimes_other. }
  unfold completeRequest, getCompleteTime.
  rewrite Htracked, Huntracked. simpl.
  by rewrite lookup_insert_eq.
Qed.

Lemma completeRequest_timing_witness :
  let tracked :=
    run ([Register "7" 5 true]
           ++ Register "8" 100.25 false :: [Complete "7" 9.5])
      new in
  (completeRequest tracked "8" 130.5).2 = 30.25%float ∧
  getCompleteTime (completeRequest tracked "8" 130.5).1 "8" = 130.5%float ∧
  completeRequest (run [Register "7" 5 true] new) "8" 130.5
    = (run [Register "7" 5 true] new, (-1)%float).
Proof.
  apply (completeRequest_timing
           [Register "7" 5 true] [Complete "7" 9.5] [Register "7" 5 true]
           "8" 100.25 130.5 false).
  - repeat constructor.
  - repeat constructor.
Defined.

(** The fetch time is a binary64 number: a request registered at -1 and
    completed at 2^53 has the fetch time 2^53, as 2^53 + 1 is not a
    binary64 number; and the fetch time of a request that is registered
    and completed at fractions of a millisecond has its fraction. *)
Example fetchTime_binary64 :
  (completeRequest (registerRequest new "1" (-1) false) "1"
     9007199254740992).2 = 9007199254740992%float ∧
  (completeRequest (registerRequest new "1" 1000.125 false) "1"
     1000.5).2 = 0.375%float.
Proof. split; reflexivity. Qed.

End TimeTrackerFacts.

(** ** The scheduler: what one call changes *)

Section SchedulerFrames.
Import NumericPriorityScheduler.

Lemma size_add_url (X : gset string) (u : string) :
  size ({[u]} ∪ X) ≤ S (size X).
Proof.
  destruct (decide (u ∈ X)) as [Hin|Hnin].
  - rewrite (subseteq_union_1_L {[u]} X); [lia|].
    by apply singleton_subseteq_l.
  - rewrite size_union, size_singleton; [lia|].
    by apply disjoint_singleton_l.
Qed.

Lemma size_delete_url (X : gset string) (u : string) :
  size (X ∖ {[u]}) ≤ size X.
Proof. apply subseteq_size, subseteq_difference_l. done. Qed.

(** [fetchDependency] writes [outstandingPrefetchUrls_] only. *)
Lemma fetchDependency_frame s r p :
  let s' := (fetchDependency s r p).1 in
  dependencies_ s' = dependencies_ s ∧
  queuedPrefetches_ s' = queuedPrefetches_ s ∧
  curFetchPriority_ s' = curFetchPriority_ s ∧
  requestedURLs_ s' = requestedURLs_ s ∧
  navigatedToDst_ s' = navigatedToDst_ s ∧
  timeTracker s' = timeTracker s ∧
  lpUrl s' = lpUrl s ∧
  didInit_ s' = didInit_ s ∧
  initializedContentScript_ s' = initializedContentScript_ s.
Proof. unfold fetchDependency. case_decide; simpl; done. Qed.

Lemma fetchDependency_size s r p :
  size (outstandingPrefetchUrls_ (fetchDependency s r p).1)
    ≤ S (size (outstandingPrefetchUrls_ s)).
Proof.
  unfold fetchDependency. case_decide; simpl; [lia|]. apply size_add_url.
Qed.

(** Each call of [fetchDependency] sends one message, which names the url
    of the resource. *)
Lemma fetchDependency_fetchedUrls s r p :
  fetchedUrls (fetchDependency s r p).2 = [PrefetchResource.url r].
Proof. unfold fetchDependency. case_decide; reflexivity. Qed.

Lemma fetchQueued_size s queued :
  size (outstandingPrefetchUrls_ s) ≤ OUTSTANDING_REQUESTS_ALLOWED →
  size (outstandingPrefetchUrls_ (fetchQueued s queued).1)
    ≤ OUTSTANDING_REQUESTS_ALLOWED.
Proof.
  revert s. induction queued as [|r rest IH]; intros s Hs; simpl; [done|].
  case_decide as Hlt; simpl; [|done].
  pose proof (fetchDependency_size (set_queuedPrefetches_ s rest) r
                (curFetchPriority_ (set_queuedPrefetches_ s rest))) as Hadd.
  destruct (fetchDependency _ r _) as [s1 out1]. simpl in Hadd.
  specialize (IH s1). destruct (fetchQueued s1 rest) as [s2 out2].
  simpl in *. apply IH. lia.
Qed.

Lemma enqueueNext_outstanding s nextPriority :
  outstandingPrefetchUrls_ (enqueueNext s nextPriority)
    = outstandingPrefetchUrls_ s.
Proof.
  unfold enqueueNext. case_decide; [|done].
  destruct (enqueueAll _ _). reflexivity.
Qed.

Lemma handleFetchCompleted_size s fetchedURL :
  size (outstandingPrefetchUrls_ s) ≤ OUTSTANDING_REQUESTS_ALLOWED →
  size (outstandingPrefetchUrls_ (handleFetchCompleted s fetchedURL).1)
    ≤ OUTSTANDING_REQUESTS_ALLOWED.
Proof.
  intros Hs. unfold handleFetchCompleted. case_decide; [done|].
  set (s1 := enqueueNext s _).
  pose proof (fetchQueued_size s1 (queuedPrefetches_ s1)) as Hq.
  destruct (fetchQueued s1 _) as [s2 out]. simpl in *. apply Hq.
  unfold s1. by rewrite enqueueNext_outstanding.
Qed.

Lemma onFetchCompleted__size s details :
  size (outstandingPrefetchUrls_ s) ≤ OUTSTANDING_REQUESTS_ALLOWED →
  size (outstandingPrefetchUrls_ (onFetchCompleted_ s details).1)
    ≤ OUTSTANDING_REQUESTS_ALLOWED.
Proof.
  intros Hs. unfold onFetchCompleted_.
  set (s0 := set_outstandingPrefetchUrls_ s _).
  pose proof (handleFetchCompleted_size s0 (Details.url details)) as Hh.
  destruct (handleFetchCompleted s0 _) as [s1 out].
  destruct (TimeTracker.completeRequest _ _ _) as [tracker fetchTime].
  simpl in *. apply Hh.
  pose proof (size_delete_url (outstandingPrefetchUrls_ s)
                (Details.url details)). lia.
Qed.

Lemma eachResponseHeader_outstanding s headers :
  outstandingPrefetchUrls_ (eachResponseHeader s headers).1
    = outstandingPrefetchUrls_ s.
Proof.
  revert s. induction headers as [|h rest IH]; intros s; simpl; [done|].
  destruct (String.eqb _ "x-prefetch").
  - destruct (parsePrefetchURLs _ _) as [deps []]; [|done].
    by rewrite IH.
  - destruct (String.eqb _ "x-lp-url"); by rewrite IH.
Qed.

Lemma step_size s e :
  size (outstandingPrefetchUrls_ s) ≤ OUTSTANDING_REQUESTS_ALLOWED →
  size (outstandingPrefetchUrls_ (step s e).1)
    ≤ OUTSTANDING_REQUESTS_ALLOWED.
Proof.
  intros Hs. destruct e as [|d|d|d|d|ty]; simpl.
  - unfold run. by destruct (didInit_ s).
  - destruct (didInit_ s); [|done]. unfold onSendHeaders_.
    destruct (String.eqb _ _); done.
  - destruct (didInit_ s); [|done]. unfold onHeadersReceived_.
    pose proof (eachResponseHeader_outstanding s (Details.responseHeaders d)) as Ho.
    destruct (eachResponseHeader s _) as [s1 c]. simpl in *. by rewrite Ho.
  - destruct (didInit_ s); [|done]. unfold onFetchSucceed_.
    pose proof (onFetchCompleted__size s d Hs).
    by destruct (onFetchCompleted_ s d).
  - destruct (didInit_ s); [|done]. unfold onErrorOccurred_.
    pose proof (onFetchCompleted__size s d Hs).
    by destruct (onFetchCompleted_ s d).
  - destruct (didInit_ s); [|done]. unfold onContentMessage_.
    destruct (String.eqb _ _); [|done].
    destruct (initializedContentScript_ s); [done|]. simpl.
    pose proof (handleFetchCompleted_size s "INIT" Hs).
    by destruct (handleFetchCompleted s "INIT").
Qed.

Lemma exec_size s events :
  size (outstandingPrefetchUrls_ s) ≤ OUTSTANDING_REQUESTS_ALLOWED →
  size (outstandingPrefetchUrls_ (exec s events).1)
    ≤ OUTSTANDING_REQUESTS_ALLOWED.
Proof.
  revert s. induction events as [|e rest IH]; intros s Hs; simpl; [done|].
  pose proof (step_size s e Hs) as H1.
  destruct (step s e) as [s1 out1]. specialize (IH s1 H1).
  by destruct (exec s1 rest).
Qed.

(** C1. Whatever events the scheduler has been through since its
    construction (the call of [run()], headers sent, headers received with
    their hints, completions, errors, messages of the content script), at
    most [OUTSTANDING_REQUESTS_ALLOWED] = 7 urls are outstanding; and a
    call of [handleFetchCompleted], the only caller of [fetchDependency],
    that makes the set of outstanding urls grow was entered with fewer
    than 7 of them. *)
Theorem admission_invariant (events : list event) (fetchedURL : string) :
  let s := (exec new events).1 in
  size (outstandingPrefetchUrls_ s) ≤ 7 ∧
  (size (outstandingPrefetchUrls_ s)
     < size (outstandingPrefetchUrls_ (handleFetchCompleted s fetchedURL).1) →
   size (outstandingPrefetchUrls_ s) < 7).
Proof.
  intros s. split.
  - apply (exec_size new events).
    replace (size (outstandingPrefetchUrls_ new)) with 0
      by (symmetry; apply size_empty).
    unfold OUTSTANDING_REQUESTS_ALLOWED. lia.
  - unfold handleFetchCompleted. case_decide as Hfull; simpl.
    + lia.
    + unfold OUTSTANDING_REQUESTS_ALLOWED in Hfull. lia.
Qed.

End SchedulerFrames.

(** ** Dispatch of one resource and the refill pass at capacity *)

Section Dispatch.
Import NumericPriorityScheduler Scenario.

(** C7. A call of [fetchDependency] on a resource whose url has been
    requested sends one timing log for that url, with an empty request id,
    -1 for the fetch time and both timestamps, and the mark that the
    content script prints as LATE_PREFETCH; it sends no directive and
    leaves the scheduler, and so the outstanding urls, as they were. *)
Theorem late_prefetch_suppressed (s : t) (resource : PrefetchResource.t)
    (priority : Z) :
  PrefetchResource.url resource ∈ requestedURLs_ s →
  ∃ isPrefetch,
    fetchDependency s resource priority
      = (s, [Message.Log (PrefetchResource.url resource) "" (-1) (-1) (-1)
               isPrefetch]) ∧
    Content.classification isPrefetch = ",LATE_PREFETCH" ∧
    directiveUrls (fetchDependency s resource priority).2 = [] ∧
    outstandingPrefetchUrls_ (fetchDependency s resource priority).1
      = outstandingPrefetchUrls_ s.
Proof.
  intros Hreq. exists "late". unfold fetchDependency.
  rewrite decide_True by done. done.
Qed.

Lemma late_prefetch_suppressed_witness :
  ∃ isPrefetch,
    fetchDependency (set_requestedURLs_ new {["http://lp/app.js"]})
      (PrefetchResource.mk "http://lp/app.js" "script") 0
      = (set_requestedURLs_ new {["http://lp/app.js"]},
         [Message.Log "http://lp/app.js" "" (-1) (-1) (-1) isPrefetch]) ∧
    Content.classification isPrefetch = ",LATE_PREFETCH" ∧
    directiveUrls
      (fetchDependency (set_requestedURLs_ new {["http://lp/app.js"]})
         (PrefetchResource.mk "http://lp/app.js" "script") 0).2 = [] ∧
    outstandingPrefetchUrls_
      (fetchDependency (set_requestedURLs_ new {["http://lp/app.js"]})
         (PrefetchResource.mk "http://lp/app.js" "script") 0).1
      = outstandingPrefetchUrls_
          (set_requestedURLs_ new {["http://lp/app.js"]}).
Proof.
  apply (late_prefetch_suppressed
           (set_requestedURLs_ new {["http://lp/app.js"]})
           (PrefetchResource.mk "http://lp/app.js" "script") 0).
  simpl. by apply elem_of_singleton.
Defined.

(** C8. [handleFetchCompleted] entered with at least
    [OUTSTANDING_REQUESTS_ALLOWED] = 7 outstanding urls returns after its
    first message: the scheduler it leaves is the one it found, with the
    same buckets, queue, outstanding urls, current priority and requested
    urls. *)
Theorem refill_noop_at_capacity (s : t) (fetchedURL : string) :
  7 ≤ size (outstandingPrefetchUrls_ s) →
  handleFetchCompleted s fetchedURL
    = (s, [Message.Info (Message.CallingHandleFetchCompleted fetchedURL)]) ∧
  let s' := (handleFetchCompleted s fetchedURL).1 in
  dependencies_ s' = dependencies_ s ∧
  queuedPrefetches_ s' = queuedPrefetches_ s ∧
  outstandingPrefetchUrls_ s' = outstandingPrefetchUrls_ s ∧
  curFetchPriority_ s' = curFetchPriority_ s ∧
  requestedURLs_ s' = requestedURLs_ s.
Proof.
  intros Hfull. unfold handleFetchCompleted.
  rewrite decide_True by done. done.
Qed.

Lemma refill_noop_at_capacity_witness :
  handleFetchCompleted sevenOutstanding "u0"
    = (sevenOutstanding,
       [Message.Info (Message.CallingHandleFetchCompleted "u0")]) ∧
  let s' := (handleFetchCompleted sevenOutstanding "u0").1 in
  dependencies_ s' = dependencies_ sevenOutstanding ∧
  queuedPrefetches_ s' = queuedPrefetches_ sevenOutstanding ∧
  outstandingPrefetchUrls_ s' = outstandingPrefetchUrls_ sevenOutstanding ∧
  curFetchPriority_ s' = curFetchPriority_ sevenOutstanding ∧
  requestedURLs_ s' = requestedURLs_ sevenOutstanding.
Proof.
  apply (refill_noop_at_capacity sevenOutstanding "u0").
  vm_compute. lia.
Defined.

(** C10. The ceiling counts urls, not directives. A call of
    [fetchDependency] on a resource whose url is outstanding already and
    has not been requested sends one more directive for it and leaves the
    set of outstanding urls, hence its size, as it was. And there is a
    reachable scheduler, with eight resources of one url in its first
    bucket, on which one call of [handleFetchCompleted] queues the eight,
    sends eight directives for that url, more than
    [OUTSTANDING_REQUESTS_ALLOWED] = 7, empties the queue and ends with
    one outstanding url. *)
Theorem ceiling_counts_urls (s : t) (resource : PrefetchResource.t)
    (priority : Z) :
  PrefetchResource.url resource ∉ requestedURLs_ s →
  PrefetchResource.url resource ∈ outstandingPrefetchUrls_ s →
  (directiveUrls (fetchDependency s resource priority).2
     = [PrefetchResource.url resource] ∧
   outstandingPrefetchUrls_ (fetchDependency s resource priority).1
     = outstandingPrefetchUrls_ s ∧
   size (outstandingPrefetchUrls_ (fetchDependency s resource priority).1)
     = size (outstandingPrefetchUrls_ s)) ∧
  (reachable eightQueuedOneUrl ∧
   dependencies_ eightQueuedOneUrl !! 0
     = Some (replicate 8 (PrefetchResource.mk "u" "script")) ∧
   queuedPrefetches_
     (enqueueNext eightQueuedOneUrl
        (firstNonEmpty 0 (dependencies_ eightQueuedOneUrl)))
     = replicate 8 (PrefetchResource.mk "u" "script") ∧
   let '(s', out) := handleFetchCompleted eightQueuedOneUrl "INIT" in
   directiveUrls out = replicate 8 "u" ∧
   OUTSTANDING_REQUESTS_ALLOWED < length (directiveUrls out) ∧
   queuedPrefetches_ s' = [] ∧
   size (outstandingPrefetchUrls_ s') = 1).
Proof.
  intros Hnew Hout. split.
  - unfold fetchDependency. rewrite decide_False by done. simpl.
    assert ({[PrefetchResource.url resource]} ∪ outstandingPrefetchUrls_ s
            = outstandingPrefetchUrls_ s) as ->; [|done].
    apply subseteq_union_1_L. by apply singleton_subseteq_l.
  - split; [by eexists|]. split; [reflexivity|]. split; [reflexivity|].
    vm_compute. repeat split. lia.
Qed.

Lemma ceiling_counts_urls_witness :
  let s := set_outstandingPrefetchUrls_ new {["u"]} in
  let resource := PrefetchResource.mk "u" "script" in
  (directiveUrls (fetchDependency s resource 0).2 = ["u"] ∧
   outstandingPrefetchUrls_ (fetchDependency s resource 0).1
     = outstandingPrefetchUrls_ s ∧
   size (outstandingPrefetchUrls_ (fetchDependency s resource 0).1)
     = size (outstandingPrefetchUrls_ s)) ∧
  (reachable eightQueuedOneUrl ∧
   dependencies_ eightQueuedOneUrl !! 0
     = Some (replicate 8 (PrefetchResource.mk "u" "script")) ∧
   queuedPrefetches_
     (enqueueNext eightQueuedOneUrl
        (firstNonEmpty 0 (dependencies_ eightQueuedOneUrl)))
     = replicate 8 (PrefetchResource.mk "u" "script") ∧
   let '(s', out) := handleFetchCompleted eightQueuedOneUrl "INIT" in
   directiveUrls out = replicate 8 "u" ∧
   OUTSTANDING_REQUESTS_ALLOWED < length (directiveUrls out) ∧
   queuedPrefetches_ s' = [] ∧
   size (outstandingPrefetchUrls_ s') = 1).
Proof.
  apply (ceiling_counts_urls (set_outstandingPrefetchUrls_ new {["u"]})
           (PrefetchResource.mk "u" "script") 0).
  - simpl. apply not_elem_of_empty.
  - simpl. by apply elem_of_singleton.
Defined.

End Dispatch.

(** ** Buckets, queue and the order of fetches *)

Section Order.
Import NumericPriorityScheduler.

Local Abbreviation url := PrefetchResource.url.

Lemma firstNonEmpty_spec dependencies i :
  (0 ≤ i)%Z →
  (firstNonEmpty i dependencies = (-1)%Z ∧
   ∀ j bucket, dependencies !! j = Some bucket → bucket = []) ∨
  (∃ k bucket,
     firstNonEmpty i dependencies = (i + Z.of_nat k)%Z ∧
     dependencies !! k = Some bucket ∧ bucket ≠ [] ∧
     ∀ j, j < k → dependencies !! j = Some []).
Proof.
  revert i. induction dependencies as [|b rest IH]; intros i Hi; simpl.
  - left. split; [done|]. intros j bucket Hj. by rewrite lookup_nil in Hj.
  - destruct b as [|r b]; simpl.
    + destruct (IH (i + 1)%Z ltac:(lia)) as [[Hnone Hall]|(k & bucket & Hk & Hb & Hne & Hlow)].
      * left. split; [done|]. intros [|j] bucket Hj; simpl in Hj.
        -- by inversion Hj.
        -- by eapply Hall.
      * right. exists (S k), bucket. repeat split; [lia|done|done|].
        intros [|j] Hj; simpl; [done|]. apply Hlow. lia.
    + right. exists 0, (r :: b). repeat split; [lia|done|].
      intros j Hj. lia.
Qed.

Lemma enqueueAll_spec dependencies queued :
  enqueueAll dependencies queued = ([], queued ++ dependencies).
Proof.
  revert queued. induction dependencies as [|d rest IH]; intros queued; simpl.
  - by rewrite app_nil_r.
  - rewrite IH. by rewrite <- app_assoc.
Qed.

(** The enqueuing step either does nothing or, with nothing outstanding
    and nothing queued, moves the whole of the first non-empty bucket to
    the queue. *)
Lemma enqueueNext_spec s :
  let s' := enqueueNext s (firstNonEmpty 0 (dependencies_ s)) in
  s' = s ∨
  ∃ k bucket,
    size (outstandingPrefetchUrls_ s) = 0 ∧
    queuedPrefetches_ s = [] ∧
    dependencies_ s !! k = Some bucket ∧ bucket ≠ [] ∧
    (∀ j, j < k → dependencies_ s !! j = Some []) ∧
    s' = set_curFetchPriority_
           (set_queuedPrefetches_
              (set_dependencies_ s (<[k := []]> (dependencies_ s))) bucket)
           (Z.of_nat k).
Proof.
  intros s'. unfold s', enqueueNext.
  case_decide as Hc; [|by left]. destruct Hc as (Hout & Hnext & Hq).
  destruct (firstNonEmpty_spec (dependencies_ s) 0 ltac:(lia))
    as [[Hnone _]|(k & bucket & Hk & Hb & Hne & Hlow)]; [done|].
  right. exists k, bucket. replace (0 + Z.of_nat k)%Z with (Z.of_nat k) in Hk by lia.
  rewrite Hk, Nat2Z.id, Hb. simpl. rewrite enqueueAll_spec.
  apply length_zero_iff_nil in Hq. rewrite Hq. simpl.
  repeat split; try done.
Qed.

Lemma fetchedUrls_app out1 out2 :
  fetchedUrls (out1 ++ out2) = fetchedUrls out1 ++ fetchedUrls out2.
Proof. apply omap_app. Qed.

(** The fetching loop fetches a prefix of the queue, in the order of the
    queue, and leaves the rest queued. *)
Lemma fetchQueued_spec s queued :
  queuedPrefetches_ s = queued →
  ∃ fetched,
    queued = fetched ++ queuedPrefetches_ (fetchQueued s queued).1 ∧
    fetchedUrls (fetchQueued s queued).2 = map url fetched ∧
    dependencies_ (fetchQueued s queued).1 = dependencies_ s ∧
    curFetchPriority_ (fetchQueued s queued).1 = curFetchPriority_ s.
Proof.
  revert s. induction queued as [|r rest IH]; intros s Hq; simpl.
  - exists []. by rewrite Hq.
  - case_decide as Hlt; simpl; [|exists []; by rewrite Hq].
    set (s0 := set_queuedPrefetches_ s rest).
    pose proof (fetchDependency_frame s0 r (curFetchPriority_ s0))
      as (Hd & Hq1 & Hc & _).
    pose proof (fetchDependency_fetchedUrls s0 r (curFetchPriority_ s0)) as Hf.
    destruct (fetchDependency s0 r _) as [s1 out1]. simpl in *.
    destruct (IH s1 Hq1) as (fetched & Hrest & Hurls & Hd2 & Hc2).
    destruct (fetchQueued s1 rest) as [s2 out2]. simpl in *.
    exists (r :: fetched). simpl. rewrite fetchedUrls_app, Hf, Hurls.
    repeat split; try congruence.
Qed.

(** Every call of [handleFetchCompleted] is a [refill]. *)
Lemma handleFetchCompleted_spec s fetchedURL :
  refill s (handleFetchCompleted s fetchedURL).1
    (handleFetchCompleted s fetchedURL).2.
Proof.
  unfold refill, handleFetchCompleted.
  case_decide as Hfull; simpl.
  { left. split; [done|]. by exists []. }
  destruct (enqueueNext_spec s) as [Hsame|(k & bucket & Hout & Hq & Hb & Hne & Hlow & Hs1)].
  - rewrite Hsame.
    destruct (fetchQueued_spec s (queuedPrefetches_ s) eq_refl)
      as (fetched & Hrest & Hurls & Hd & _).
    destruct (fetchQueued s _) as [s2 out2]. simpl in *.
    left. split; [done|]. by exists fetched.
  - rewrite Hs1.
    set (s1 := set_curFetchPriority_ _ _).
    destruct (fetchQueued_spec s1 (queuedPrefetches_ s1) eq_refl)
      as (fetched & Hrest & Hurls & Hd & Hc).
    destruct (fetchQueued s1 _) as [s2 out2]. simpl in *.
    right. exists k, bucket, fetched. repeat split; try done.
Qed.

(** The fetching loop stops on seven outstanding urls or on an empty
    queue. *)
Lemma fetchQueued_exit s queued :
  queuedPrefetches_ s = queued →
  OUTSTANDING_REQUESTS_ALLOWED
    ≤ size (outstandingPrefetchUrls_ (fetchQueued s queued).1) ∨
  queuedPrefetches_ (fetchQueued s queued).1 = [].
Proof.
  revert s. induction queued as [|r rest IH]; intros s Hq; simpl; [by right|].
  case_decide as Hlt; simpl; [|left; lia].
  set (s0 := set_queuedPrefetches_ s rest).
  pose proof (fetchDependency_frame s0 r (curFetchPriority_ s0)) as (_ & Hq1 & _).
  destruct (fetchDependency s0 r _) as [s1 out1]. simpl in *.
  specialize (IH s1 Hq1). by destruct (fetchQueued s1 rest).
Qed.

Lemma handleFetchCompleted_exit s fetchedURL :
  OUTSTANDING_REQUESTS_ALLOWED
    ≤ size (outstandingPrefetchUrls_ (handleFetchCompleted s fetchedURL).1) ∨
  queuedPrefetches_ (handleFetchCompleted s fetchedURL).1 = [].
Proof.
  unfold handleFetchCompleted. case_decide; simpl; [by left|].
  set (s1 := enqueueNext s _).
  pose proof (fetchQueued_exit s1 (queuedPrefetches_ s1) eq_refl).
  by destruct (fetchQueued s1 _).
Qed.




End Order.

(** ** The hint parser *)

Section Parser.
Import NumericPriorityScheduler Scenario.

(** An element that is parsed without a raise puts one resource at the end
    of one bucket, whose index is at most [NUM_PRIORITIES - 1]. *)
Lemma parseElement_spec dependencies element dependencies' :
  parseElement dependencies element = Some dependencies' →
  ∃ k resource,
    k ≤ 99 ∧ is_Some (dependencies !! k) ∧
    dependencies' = alter (λ bucket, bucket ++ [resource]) k dependencies.
Proof.
  unfold parseElement. intros H.
  destruct (JS.split element ";" !! 1) as [info1|]; simpl in H; [|done].
  destruct (JS.split info1 "=" !! 1) as [value1|]; simpl in H; [|done].
  destruct (JS.split element ";" !! 2) as [info2|]; simpl in H; [|done].
  destruct (JS.split info2 "=" !! 1) as [value2|]; simpl in H; [|done].
  destruct (JS.parseInt (JS.trim value1)) as [priority|]; simpl in H; [|done].
  destruct (Z.leb_spec 0 (Z.min priority (NUM_PRIORITIES - 1))) as [Hle|Hlt];
    simpl in H; [|done].
  destruct (dependencies !! Z.to_nat (Z.min priority (NUM_PRIORITIES - 1)))
    as [bucket|] eqn:Hb; simpl in H; [|done].
  inversion H; subst. eexists _, _. split; [|split; [|reflexivity]].
  - unfold NUM_PRIORITIES. lia.
  - by rewrite Hb.
Qed.

Lemma appended_refl dependencies : appended dependencies dependencies.
Proof. intros p bucket Hp. exists []. by rewrite app_nil_r. Qed.

Lemma appended_trans d1 d2 d3 : appended d1 d2 → appended d2 d3 → appended d1 d3.
Proof.
  intros H12 H23 p bucket Hp.
  destruct (H12 p bucket Hp) as [new1 H1].
  destruct (H23 p _ H1) as [new2 H2].
  exists (new1 ++ new2). by rewrite app_assoc.
Qed.

Lemma parseElement_appended dependencies element dependencies' :
  parseElement dependencies element = Some dependencies' →
  appended dependencies dependencies'.
Proof.
  intros H. destruct (parseElement_spec _ _ _ H) as (k & r & _ & _ & ->).
  intros p bucket Hp. destruct (decide (k = p)) as [->|Hne].
  - exists [r]. by rewrite list_lookup_alter_eq, Hp.
  - exists []. by rewrite list_lookup_alter_ne, app_nil_r.
Qed.

Lemma parseElements_appended dependencies prefetchURLs :
  appended dependencies (parseElements dependencies prefetchURLs).1.
Proof.
  revert dependencies.
  induction prefetchURLs as [|element rest IH]; intros dependencies; simpl.
  - apply appended_refl.
  - destruct (parseElement dependencies element) as [dependencies'|] eqn:He.
    + eapply appended_trans; [by eapply parseElement_appended|apply IH].
    + apply appended_refl.
Qed.

Lemma parsePrefetchURLs_appended dependencies prefetchStr :
  appended dependencies (parsePrefetchURLs dependencies prefetchStr).1.
Proof. apply parseElements_appended. Qed.

(** The walk over the response headers touches the buckets and the landing
    page url only; the buckets are appended to. *)
Lemma eachResponseHeader_spec s headers :
  let s' := (eachResponseHeader s headers).1 in
  appended (dependencies_ s) (dependencies_ s') ∧
  queuedPrefetches_ s' = queuedPrefetches_ s.
Proof.
  revert s. induction headers as [|h rest IH]; intros s; simpl.
  - split; [apply appended_refl|done].
  - destruct (String.eqb _ "x-prefetch").
    + pose proof (parsePrefetchURLs_appended (dependencies_ s) (HttpHeader.value h)) as Ha.
      destruct (parsePrefetchURLs _ _) as [deps []]; simpl in *.
      * destruct (IH (set_dependencies_ s deps)) as [Hd Hq]. simpl in *.
        split; [by eapply appended_trans|done].
      * done.
    + destruct (String.eqb _ "x-lp-url").
      * destruct (IH (set_lpUrl s (HttpHeader.value h))) as [Hd Hq]. done.
      * apply IH.
Qed.

(** C3. On the hint [<http://lp/app.js>; priority=-5; type=0] the parser
    raises: [parseInt] reads -5, [Math.min(-5, 99)] is -5, the array of
    buckets has no element at index -5, and the [push] on it is a
    [TypeError] that leaves [parsePrefetchURLs] and [onHeadersReceived_];
    no bucket has received the resource. The priority is bounded from above
    only: priority 150 goes to bucket 99. *)
Theorem negative_priority_raises :
  JS.parseInt "-5" = Some (-5)%Z ∧
  JS.Math_min (Some (-5)%Z) (NUM_PRIORITIES - 1) = Some (-5)%Z ∧
  JS.index (dependencies_ new) (Some (-5)%Z) = None ∧
  parsePrefetchURLs (dependencies_ new) negativeHint
    = (dependencies_ new, Throw) ∧
  (onHeadersReceived_ new negativeHintReceived).2 = Throw ∧
  parsePrefetchURLs (dependencies_ new) "<http://lp/app.js>; priority=150; type=0"
    = (<[99 := [PrefetchResource.mk "http://lp/app.js" "0"]]> (dependencies_ new),
       Normal).
Proof. vm_compute. done. Qed.

(** White space around a field is trimmed, the no-break space U+00A0
    included: a hint whose priority is written after a no-break space is
    stored in the bucket of the priority. *)
Example no_break_space_trimmed :
  let nbsp := String (ascii_of_nat 160) "" in
  JS.trim (nbsp +:+ " 5" +:+ nbsp) = "5" ∧
  parsePrefetchURLs (dependencies_ new)
    ("<a>; priority=" +:+ nbsp +:+ "5; type=0")
    = (<[5 := [PrefetchResource.mk "a" "0"]]> (dependencies_ new), Normal).
Proof. vm_compute. done. Qed.

End Parser.

(** ** One turn of the event loop, and runs *)

Section Waves.
Import NumericPriorityScheduler Scenario.

Local Abbreviation url := PrefetchResource.url.

Lemma turn_idle outstanding s s' out :
  dependencies_ s' = dependencies_ s →
  queuedPrefetches_ s' = queuedPrefetches_ s →
  fetchedUrls out = [] →
  turn outstanding s s' out.
Proof.
  intros Hd Hq Hf. left. rewrite Hd, Hq, Hf.
  split; [apply appended_refl|]. by exists [].
Qed.

Lemma handleFetchCompleted_turn s fetchedURL :
  turn (outstandingPrefetchUrls_ s) s
    (handleFetchCompleted s fetchedURL).1 (handleFetchCompleted s fetchedURL).2.
Proof.
  destruct (handleFetchCompleted_spec s fetchedURL) as [[Hd Hf]|Hdrain].
  - left. rewrite Hd. split; [apply appended_refl|done].
  - by right.
Qed.

Lemma fetchedUrls_cons_None m out :
  fetchedUrl m = None → fetchedUrls (m :: out) = fetchedUrls out.
Proof. intros Hm. unfold fetchedUrls. simpl. by rewrite Hm. Qed.

Lemma isPrefetchRequest_not_late tracker id u r f a b :
  fetchedUrl (Message.Log u r f a b (TimeTracker.isPrefetchRequest tracker id))
    = None.
Proof.
  unfold TimeTracker.isPrefetchRequest.
  destruct (TimeTracker.requestTimes_ tracker !! id); [|done].
  by destruct (default false _).
Qed.

Lemma onFetchCompleted__turn s details :
  turn (outstandingPrefetchUrls_ s ∖ {[Details.url details]}) s
    (onFetchCompleted_ s details).1 (onFetchCompleted_ s details).2.
Proof.
  unfold onFetchCompleted_.
  set (s0 := set_outstandingPrefetchUrls_ s _).
  pose proof (handleFetchCompleted_turn s0 (Details.url details)) as Ht.
  destruct (handleFetchCompleted s0 _) as [s1 out].
  destruct (TimeTracker.completeRequest _ _ _) as [tracker fetchTime].
  simpl in *.
  assert (fetchedUrls
            (out ++ [Message.Debug;
                     Message.Log (Details.url details) (Details.requestId details)
                       fetchTime
                       (TimeTracker.getRequestTime tracker (Details.requestId details))
                       (TimeTracker.getCompleteTime tracker (Details.requestId details))
                       (TimeTracker.isPrefetchRequest tracker (Details.requestId details))])
          = fetchedUrls out) as Hout.
  { rewrite fetchedUrls_app, !fetchedUrls_cons_None;
      [apply app_nil_r|apply isPrefetchRequest_not_late|done]. }
  unfold turn in *. rewrite Hout. exact Ht.
Qed.

Lemma turn_cons outstanding s s' m out :
  fetchedUrl m = None → turn outstanding s s' out → turn outstanding s s' (m :: out).
Proof.
  intros Hm Ht. unfold turn in *. by rewrite fetchedUrls_cons_None.
Qed.

(** Every turn of the event loop is a [turn], entered with the outstanding
    urls less the url the event reports as completed. *)
Lemma step_turn s e :
  turn (outstandingPrefetchUrls_ s ∖ completedUrls e) s (step s e).1 (step s e).2.
Proof.
  destruct e as [|d|d|d|d|ty]; simpl.
  - unfold run. destruct (didInit_ s); by apply turn_idle.
  - destruct (didInit_ s); [|by apply turn_idle].
    unfold onSendHeaders_. destruct (String.eqb _ _); by apply turn_idle.
  - destruct (didInit_ s); [|by apply turn_idle].
    unfold onHeadersReceived_.
    pose proof (eachResponseHeader_spec s (Details.responseHeaders d)) as [Hd Hq].
    destruct (eachResponseHeader s _) as [s1 c]. simpl in *.
    left. split; [done|]. exists []. by rewrite Hq.
  - destruct (didInit_ s); [|by apply turn_idle].
    unfold onFetchSucceed_.
    pose proof (onFetchCompleted__turn s d) as Ht.
    destruct (onFetchCompleted_ s d) as [s1 out]. by apply turn_cons.
  - destruct (didInit_ s); [|by apply turn_idle].
    unfold onErrorOccurred_.
    pose proof (onFetchCompleted__turn s d) as Ht.
    destruct (onFetchCompleted_ s d) as [s1 out]. by apply turn_cons.
  - destruct (didInit_ s); [|by apply turn_idle].
    unfold onContentMessage_.
    destruct (String.eqb _ _); [|by apply turn_idle].
    destruct (initializedContentScript_ s); [by apply turn_idle|]. simpl.
    pose proof (handleFetchCompleted_turn s "INIT") as Ht.
    destruct (handleFetchCompleted s "INIT") as [s1 out]. simpl in *.
    replace (outstandingPrefetchUrls_ s ∖ ∅) with (outstandingPrefetchUrls_ s)
      by (symmetry; apply difference_empty_L).
    exact Ht.
Qed.

Lemma directiveUrls_app out1 out2 :
  directiveUrls (out1 ++ out2) = directiveUrls out1 ++ directiveUrls out2.
Proof. apply omap_app. Qed.

(** What [fetchDependency] does with the url that it is handed. *)
Lemma fetchDependency_account s r p :
  let s' := (fetchDependency s r p).1 in
  let out := (fetchDependency s r p).2 in
  outstandingPrefetchUrls_ s'
    = outstandingPrefetchUrls_ s ∪ list_to_set (directiveUrls out) ∧
  Forall (handed (requestedURLs_ s)) out.
Proof.
  unfold fetchDependency. case_decide as Hr; simpl.
  - split; [by rewrite union_empty_r_L|].
    constructor; [|constructor]. right. left. by eexists.
  - split.
    + rewrite union_empty_r_L. apply union_comm_L.
    + constructor; [|constructor]. right. right. by eexists _, _, _.
Qed.

Lemma fetchQueued_account s queued :
  let s' := (fetchQueued s queued).1 in
  let out := (fetchQueued s queued).2 in
  outstandingPrefetchUrls_ s'
    = outstandingPrefetchUrls_ s ∪ list_to_set (directiveUrls out) ∧
  Forall (handed (requestedURLs_ s)) out.
Proof.
  revert s. induction queued as [|r rest IH]; intros s; simpl.
  { split; [by rewrite union_empty_r_L|constructor]. }
  case_decide as Hlt; simpl;
    [|split; [by rewrite union_empty_r_L|constructor]].
  set (s0 := set_queuedPrefetches_ s rest).
  pose proof (fetchDependency_frame s0 r (curFetchPriority_ s0))
    as (_ & _ & _ & Hr & _).
  pose proof (fetchDependency_account s0 r (curFetchPriority_ s0)) as [Ho Hh].
  destruct (fetchDependency s0 r _) as [s1 out1]. simpl in *.
  destruct (IH s1) as [Ho2 Hh2].
  destruct (fetchQueued s1 rest) as [s2 out2]. simpl in *.
  split.
  - rewrite Ho2, Ho, directiveUrls_app, list_to_set_app_L.
    by rewrite union_assoc_L.
  - apply Forall_app. split; [done|]. by rewrite <- Hr.
Qed.

Lemma handleFetchCompleted_account s fetchedURL :
  let s' := (handleFetchCompleted s fetchedURL).1 in
  let out := (handleFetchCompleted s fetchedURL).2 in
  outstandingPrefetchUrls_ s'
    = outstandingPrefetchUrls_ s ∪ list_to_set (directiveUrls out) ∧
  Forall (handed (requestedURLs_ s)) out.
Proof.
  unfold handleFetchCompleted. case_decide as Hfull; simpl.
  { split; [by rewrite union_empty_r_L|].
    constructor; [by left|constructor]. }
  set (s1 := enqueueNext s _).
  assert (outstandingPrefetchUrls_ s1 = outstandingPrefetchUrls_ s ∧
          requestedURLs_ s1 = requestedURLs_ s) as [Ho1 Hr1].
  { unfold s1, enqueueNext. case_decide; [|done]. by destruct (enqueueAll _ _). }
  destruct (fetchQueued_account s1 (queuedPrefetches_ s1)) as [Ho Hh].
  destruct (fetchQueued s1 _) as [s2 out]. simpl in *.
  split; [by rewrite Ho, Ho1|].
  constructor; [by left|]. constructor; [by left|]. by rewrite <- Hr1.
Qed.

Lemma onFetchCompleted__account s details :
  let s' := (onFetchCompleted_ s details).1 in
  let out := (onFetchCompleted_ s details).2 in
  outstandingPrefetchUrls_ s'
    = outstandingPrefetchUrls_ s ∖ {[Details.url details]}
        ∪ list_to_set (directiveUrls out) ∧
  Forall (handed (requestedURLs_ s)) out.
Proof.
  unfold onFetchCompleted_.
  set (s0 := set_outstandingPrefetchUrls_ s _).
  destruct (handleFetchCompleted_account s0 (Details.url details)) as [Ho Hh].
  destruct (handleFetchCompleted s0 _) as [s1 out].
  destruct (TimeTracker.completeRequest _ _ _) as [tracker fetchTime].
  simpl in *. split.
  - rewrite directiveUrls_app. simpl. by rewrite app_nil_r.
  - apply Forall_app. split; [done|].
    constructor; [by left|]. constructor; [|constructor].
    left. apply isPrefetchRequest_not_late.
Qed.

(** A turn of the event loop adds the urls of the directives that it
    sends to the outstanding urls, and no other url; and each message that
    it sends and that shows a fetch is what [fetchDependency] sends. *)
Lemma step_account s e :
  let s' := (step s e).1 in
  let out := (step s e).2 in
  list_to_set (directiveUrls out) ⊆ outstandingPrefetchUrls_ s' ∧
  outstandingPrefetchUrls_ s'
    ⊆ outstandingPrefetchUrls_ s ∪ list_to_set (directiveUrls out) ∧
  Forall (handed (requestedURLs_ s)) out.
Proof.
  assert (∀ (s' : t) out,
            directiveUrls out = [] →
            outstandingPrefetchUrls_ s' = outstandingPrefetchUrls_ s →
            Forall (handed (requestedURLs_ s)) out →
            list_to_set (directiveUrls out) ⊆ outstandingPrefetchUrls_ s' ∧
            outstandingPrefetchUrls_ s'
              ⊆ outstandingPrefetchUrls_ s ∪ list_to_set (directiveUrls out) ∧
            Forall (handed (requestedURLs_ s)) out) as Hquiet.
  { intros s' out -> -> Hh. simpl. split; [apply empty_subseteq|].
    split; [apply union_subseteq_l|done]. }
  assert (∀ (s' : t) out m url,
            outstandingPrefetchUrls_ s'
              = outstandingPrefetchUrls_ s ∖ {[url]}
                  ∪ list_to_set (directiveUrls out) →
            Forall (handed (requestedURLs_ s)) out →
            fetchedUrl m = None → directiveUrl m = None →
            list_to_set (directiveUrls (m :: out)) ⊆ outstandingPrefetchUrls_ s' ∧
            outstandingPrefetchUrls_ s'
              ⊆ outstandingPrefetchUrls_ s ∪ list_to_set (directiveUrls (m :: out)) ∧
            Forall (handed (requestedURLs_ s)) (m :: out)) as Hdone.
  { intros s' out m url Ho Hh Hm Hd.
    assert (directiveUrls (m :: out) = directiveUrls out) as ->.
    { unfold directiveUrls. simpl. by rewrite Hd. }
    rewrite Ho. split; [apply union_subseteq_r|]. split.
    - apply union_mono_r, subseteq_difference_l. done.
    - constructor; [by left|done]. }
  assert (Forall (handed (requestedURLs_ s)) []) as Hnil by constructor.
  destruct e as [|d|d|d|d|ty]; cbn [step].
  - unfold run. destruct (didInit_ s).
    + by apply (Hquiet s []).
    + apply (Hquiet (set_didInit_ s true)
               [Message.Info Message.StartingBackgroundScript]); try done.
      constructor; [by left|constructor].
  - destruct (didInit_ s); [|by apply (Hquiet s [])].
    unfold onSendHeaders_. destruct (String.eqb _ _).
    + apply (Hquiet (set_requestedURLs_ _ _) [Message.NavigatedToDst _]);
        try done.
      constructor; [by left|constructor].
    + by apply (Hquiet (set_requestedURLs_ _ _) []).
  - destruct (didInit_ s); [|by apply (Hquiet s [])].
    unfold onHeadersReceived_.
    pose proof (eachResponseHeader_outstanding s (Details.responseHeaders d)) as Ho.
    destruct (eachResponseHeader s _) as [s1 c].
    apply (Hquiet s1 [Message.Info _]); try done.
    constructor; [by left|constructor].
  - destruct (didInit_ s); [|by apply (Hquiet s [])].
    unfold onFetchSucceed_.
    destruct (onFetchCompleted__account s d) as [Ho Hh].
    destruct (onFetchCompleted_ s d) as [s1 out].
    by apply (Hdone s1 out (Message.Info _) (Details.url d)).
  - destruct (didInit_ s); [|by apply (Hquiet s [])].
    unfold onErrorOccurred_.
    destruct (onFetchCompleted__account s d) as [Ho Hh].
    destruct (onFetchCompleted_ s d) as [s1 out].
    by apply (Hdone s1 out (Message.Info _) (Details.url d)).
  - destruct (didInit_ s); [|by apply (Hquiet s [])].
    unfold onContentMessage_.
    destruct (String.eqb _ _); [|by apply (Hquiet s [])].
    destruct (initializedContentScript_ s); [by apply (Hquiet s [])|].
    destruct (handleFetchCompleted_account s "INIT") as [Ho Hh].
    destruct (handleFetchCompleted s "INIT") as [s1 out].
    cbn [negb fst snd] in *. change (outstandingPrefetchUrls_
      (set_initializedContentScript_ s1 true)) with (outstandingPrefetchUrls_ s1).
    rewrite Ho. split; [apply union_subseteq_r|]. split; done.
Qed.

(** Each url that a turn hands to [fetchDependency] is [dispatched]. *)
Lemma step_dispatched s e u :
  u ∈ fetchedUrls (step s e).2 →
  dispatched s (step s e).1 (step s e).2 u.
Proof.
  destruct (step_account s e) as (Hsub & Hsup & Hh).
  destruct (step s e) as [s' out]. simpl in *.
  intros Hu. apply list_elem_of_omap in Hu as (m & Hm & Hfm).
  assert (∀ m', m' ∈ out → handed (requestedURLs_ s) m') as Hall.
  { by apply Forall_forall. }
  assert (u ∈ requestedURLs_ s → u ∉ directiveUrls out) as Hno.
  { intros Hr Hd. apply list_elem_of_omap in Hd as (m' & Hm' & Hdm').
    destruct m' as [| |ty u' rt| |]; try done. inversion Hdm'; subst u'.
    destruct (Hall _ Hm') as [Hn|[(u' & _ & Hl)|(u' & ty' & rt' & Hnr & Heq)]];
      [done|done|].
    inversion Heq; subst. done. }
  destruct (Hall m Hm) as [Hn|[(u' & Hr & ->)|(u' & ty & rt & Hnr & ->)]].
  - congruence.
  - inversion Hfm; subst u'. split; [done|]. intros _.
    split; [done|]. split; [by apply Hno|].
    intros Hin. apply Hsup in Hin. apply elem_of_union in Hin as [|Hin]; [done|].
    apply elem_of_list_to_set in Hin. by apply Hno in Hin.
  - inversion Hfm; subst u'. split; [|done]. intros _.
    assert (u ∈ directiveUrls out) as Hd.
    { apply list_elem_of_omap. by eexists. }
    split; [done|]. apply Hsub. by apply elem_of_list_to_set.
Qed.

(** A url that a run hands to [fetchDependency] is handed to it in one of
    the turns of the run. *)
Lemma exec_handed s events u :
  u ∈ fetchedUrls (exec s events).2 →
  ∃ before e after,
    events = before ++ e :: after ∧
    u ∈ fetchedUrls (step (exec s before).1 e).2.
Proof.
  revert s. induction events as [|e rest IH]; intros s Hu; simpl in *.
  { by apply elem_of_nil in Hu. }
  destruct (step s e) as [s1 out1] eqn:Hstep.
  specialize (IH s1). destruct (exec s1 rest) as [s2 out2] eqn:Hexec.
  simpl in *. rewrite fetchedUrls_app in Hu.
  apply elem_of_app in Hu as [Hu|Hu].
  - exists [], e, rest. simpl. by rewrite Hstep.
  - destruct (IH Hu) as (before & e' & after & -> & Hin).
    exists (e :: before), e', after. simpl. rewrite Hstep.
    by destruct (exec s1 before).
Qed.

(** A turn adds nothing but an emptied bucket to the urls fetched followed
    by the urls queued, and adds it at the end. *)
Lemma turn_extends outstanding s s' before out :
  turn outstanding s s' out →
  ∃ tail,
    fetchedUrls (before ++ out) ++ map url (queuedPrefetches_ s')
      = (fetchedUrls before ++ map url (queuedPrefetches_ s)) ++ tail ∧
    (tail = [] ∨
     ∃ k bucket,
       queuedPrefetches_ s = [] ∧ dependencies_ s !! k = Some bucket ∧
       dependencies_ s' = <[k := []]> (dependencies_ s) ∧
       tail = map url bucket).
Proof.
  rewrite fetchedUrls_app.
  intros [[Hd (fetched & Hq & Hf)]
         |(k & bucket & fetched & _ & Hq & Hb & _ & _ & Hd & _ & Hbucket & Hf)].
  - exists []. split; [|by left].
    rewrite Hq, Hf, map_app, app_nil_r. by rewrite <- !app_assoc.
  - exists (map url bucket). split; [|right; by exists k, bucket].
    rewrite Hq, Hf. simpl. rewrite app_nil_r, <- app_assoc, <- map_app.
    by rewrite <- Hbucket.
Qed.

Lemma turn_lined outstanding qs rs s s' before out :
  turn outstanding s s' out →
  lined qs rs s before → lined qs rs s' (before ++ out).
Proof.
  intros Ht (pre & mid & post & Hl).
  destruct (turn_extends _ _ _ before _ Ht) as (tail & Hext & _).
  exists pre, mid, (post ++ tail). rewrite Hext, Hl.
  by rewrite <- !app_assoc.
Qed.

Lemma turn_waiting outstanding p rs s s' out :
  turn outstanding s s' out →
  waiting p rs s →
  waiting p rs s' ∨
  ∃ later,
    queuedPrefetches_ s = [] ∧ dependencies_ s !! p = Some (rs ++ later) ∧
    dependencies_ s' = <[p := []]> (dependencies_ s) ∧
    ∀ before,
      fetchedUrls (before ++ out) ++ map url (queuedPrefetches_ s')
        = fetchedUrls before ++ map url rs ++ map url later.
Proof.
  intros Ht [later Hw]. pose proof Ht as Ht'.
  destruct Ht
    as [[Hd _]|(k & bucket & fetched & _ & Hq & Hb & _ & _ & Hd & _ & Hbucket & Hf)].
  - left. destruct (Hd p _ Hw) as [new Hnew].
    exists (later ++ new). by rewrite app_assoc.
  - destruct (decide (k = p)) as [->|Hne].
    + right. exists later. repeat split; try done.
      intros before. rewrite fetchedUrls_app, Hf, <- app_assoc, <- !map_app.
      rewrite <- Hbucket. rewrite Hb in Hw. by inversion Hw.
    + left. exists later. by rewrite Hd, list_lookup_insert_ne.
Qed.

(** Resources at the front of a bucket stay there, in their order, until
    the bucket is emptied into the queue, which is empty then; from then on
    their urls stand in their order, after the urls of what was queued
    earlier, in what has been fetched followed by what is queued. *)
Lemma turn_order outstanding p qs rs s s' before out :
  turn outstanding s s' out →
  (waiting p rs s ∧ lined qs [] s before) ∨ lined qs rs s before →
  (waiting p rs s' ∧ lined qs [] s' (before ++ out)) ∨
  lined qs rs s' (before ++ out).
Proof.
  intros Ht [[Hw Hl]|Hl]; [|right; by eapply turn_lined].
  destruct (turn_waiting _ p rs _ _ _ Ht Hw)
    as [Hw'|(later & Hq & _ & _ & Hall)].
  - left. split; [done|by eapply turn_lined].
  - right. destruct Hl as (pre & mid & post & Hl).
    rewrite Hq in Hl. simpl in Hl. rewrite !app_nil_r in Hl.
    exists pre, (mid ++ post), (map url later).
    rewrite Hall, Hl. by rewrite <- !app_assoc.
Qed.

Lemma exec_order p qs rs events s before :
  (waiting p rs s ∧ lined qs [] s before) ∨ lined qs rs s before →
  (waiting p rs (exec s events).1 ∧
   lined qs [] (exec s events).1 (before ++ (exec s events).2)) ∨
  lined qs rs (exec s events).1 (before ++ (exec s events).2).
Proof.
  revert s before. induction events as [|e rest IH]; intros s before H; simpl.
  - by rewrite app_nil_r.
  - pose proof (turn_order _ p qs rs s _ before _ (step_turn s e) H) as H1.
    destruct (step s e) as [s1 out1]. simpl in H1.
    specialize (IH s1 (before ++ out1) H1).
    destruct (exec s1 rest) as [s2 out2]. simpl in *.
    by rewrite app_assoc.
Qed.

Lemma exec_order_start p rs events s :
  dependencies_ s !! p = Some rs →
  (waiting p rs (exec s events).1 ∧
   lined (queuedPrefetches_ s) [] (exec s events).1 (exec s events).2) ∨
  lined (queuedPrefetches_ s) rs (exec s events).1 (exec s events).2.
Proof.
  intros Hp. apply (exec_order p (queuedPrefetches_ s) rs events s []).
  left. split.
  - exists []. by rewrite app_nil_r.
  - exists [], [], []. simpl. by rewrite app_nil_r.
Qed.



(** C4, as amended. Let [rs1] be the content of bucket [p1] at some point,
    and let a later turn of the event loop empty a non-empty bucket [p2]
    with [p1 < p2]. Then before that turn every resource of [rs1] has been
    handed to [fetchDependency], in the order of [rs1]; and the turn that
    handed it has [dispatched] its url: when the browser had not requested
    the url, a directive for it was sent and the url was outstanding after
    that turn; when the browser had requested it, its late timing log was
    sent, no directive was, and the turn did not make the url outstanding.
    And the turn that empties bucket [p2] found no url outstanding but the
    one it reports as completed, found the queue empty and every bucket
    below [p2] empty, emptied the whole bucket [p2] into the queue, made
    [p2] the current priority, fetched a prefix of the bucket, dispatching
    each url of it in the same way, and left the rest queued. *)
Theorem wave_ordering (s : t) (events : list event) (e : event)
    (p1 p2 : nat) (rs1 bucket2 : list PrefetchResource.t) :
  p1 < p2 →
  dependencies_ s !! p1 = Some rs1 →
  dependencies_ (exec s events).1 !! p2 = Some bucket2 →
  bucket2 ≠ [] →
  dependencies_ (step (exec s events).1 e).1 !! p2 = Some [] →
  let s1 := (exec s events).1 in
  let s2 := (step s1 e).1 in
  (∃ pre post, fetchedUrls (exec s events).2 = pre ++ map url rs1 ++ post) ∧
  (∀ r, r ∈ rs1 →
     ∃ before e1 after,
       events = before ++ e1 :: after ∧
       url r ∈ fetchedUrls (step (exec s before).1 e1).2 ∧
       dispatched (exec s before).1 (step (exec s before).1 e1).1
         (step (exec s before).1 e1).2 (url r)) ∧
  outstandingPrefetchUrls_ s1 ⊆ completedUrls e ∧
  queuedPrefetches_ s1 = [] ∧
  (∀ j, j < p2 → dependencies_ s1 !! j = Some []) ∧
  curFetchPriority_ s2 = Z.of_nat p2 ∧
  (∃ fetched,
     bucket2 = fetched ++ queuedPrefetches_ s2 ∧
     fetchedUrls (step s1 e).2 = map url fetched) ∧
  (∀ u, u ∈ fetchedUrls (step s1 e).2 → dispatched s1 s2 (step s1 e).2 u).
Proof.
  intros Hlt Hp1 Hp2 Hne Hempty s1 s2.
  destruct (step_turn s1 e)
    as [[Hd _]
       |(k & bucket & fetched & Hout & Hq & Hb & _ & Hlow & Hd & Hc & Hbucket & Hf)].
  { destruct (Hd p2 bucket2 Hp2) as [new Hnew].
    fold s1 in Hempty. unfold s2 in *. rewrite Hnew in Hempty.
    inversion Hempty as [Hnil]. apply app_eq_nil in Hnil as [? _]. done. }
  assert (k = p2) as ->.
  { destruct (decide (k = p2)) as [|Hk]; [done|]. exfalso.
    fold s1 in Hempty. rewrite Hd, list_lookup_insert_ne in Hempty by done.
    fold s1 in Hp2. congruence. }
  fold s1 in Hp2. rewrite Hb in Hp2. inversion Hp2; subst bucket.
  assert (∃ pre post, fetchedUrls (exec s events).2 = pre ++ map url rs1 ++ post)
    as Hhanded.
  { destruct (exec_order_start p1 rs1 events s Hp1)
      as [[[later Hw] _]|(pre & mid & post & Hl)].
    + fold s1 in Hw. rewrite (Hlow p1 Hlt) in Hw.
      inversion Hw as [Hnil]. symmetry in Hnil.
      apply app_eq_nil in Hnil as [-> _].
      exists (fetchedUrls (exec s events).2), []. by rewrite app_nil_r.
    + fold s1 in Hl. rewrite Hq in Hl. simpl in Hl. rewrite app_nil_r in Hl.
      exists (pre ++ map url (queuedPrefetches_ s) ++ mid), post.
      rewrite Hl. by rewrite <- !app_assoc. }
  split; [done|]. split; [|split; [|split; [done|split; [done|split; [done|split]]]]].
  - intros r Hr. destruct Hhanded as (pre & post & Hfetched).
    assert (url r ∈ fetchedUrls (exec s events).2) as Hu.
    { rewrite Hfetched. apply elem_of_app. right. apply elem_of_app. left.
      apply list_elem_of_In, in_map. by apply list_elem_of_In. }
    destruct (exec_handed _ _ _ Hu) as (before & e1 & after & Hev & Hin).
    exists before, e1, after. split; [done|]. split; [done|].
    by apply step_dispatched.
  - apply size_empty_iff in Hout. intros u Hu.
    destruct (decide (u ∈ completedUrls e)) as [|Hnot]; [done|].
    exfalso. apply (not_elem_of_empty (C:=gset string) u).
    rewrite <- (leibniz_equiv _ _ Hout). by apply elem_of_difference.
  - by exists fetched.
  - intros u Hu. by apply step_dispatched.
Qed.

Lemma wave_ordering_witness :
  let a := PrefetchResource.mk "a" "script" in
  let b := PrefetchResource.mk "b" "style" in
  let c := PrefetchResource.mk "c" "image" in
  let s := threeHintsReceived in
  let events :=
    [SendHeaders requestOfA; ContentMessage MessageType.CONTENT_SCRIPT_INIT] in
  let e := completionOf "3" "b" in
  let s1 := (exec s events).1 in
  let s2 := (step s1 e).1 in
  (∃ pre post, fetchedUrls (exec s events).2 = pre ++ map url [a; b] ++ post) ∧
  (∀ r, r ∈ [a; b] →
     ∃ before e1 after,
       events = before ++ e1 :: after ∧
       url r ∈ fetchedUrls (step (exec s before).1 e1).2 ∧
       dispatched (exec s before).1 (step (exec s before).1 e1).1
         (step (exec s before).1 e1).2 (url r)) ∧
  outstandingPrefetchUrls_ s1 ⊆ completedUrls e ∧
  queuedPrefetches_ s1 = [] ∧
  (∀ j, j < 5 → dependencies_ s1 !! j = Some []) ∧
  curFetchPriority_ s2 = Z.of_nat 5 ∧
  (∃ fetched,
     [c] = fetched ++ queuedPrefetches_ s2 ∧
     fetchedUrls (step s1 e).2 = map url fetched) ∧
  (∀ u, u ∈ fetchedUrls (step s1 e).2 → dispatched s1 s2 (step s1 e).2 u).
Proof.
  apply (wave_ordering threeHintsReceived
           [SendHeaders requestOfA;
            ContentMessage MessageType.CONTENT_SCRIPT_INIT]
           (completionOf "3" "b") 0 5
           [PrefetchResource.mk "a" "script"; PrefetchResource.mk "b" "style"]
           [PrefetchResource.mk "c" "image"]).
  - lia.
  - reflexivity.
  - reflexivity.
  - discriminate.
  - reflexivity.
Defined.

(** In the run of the witness the browser has requested [a] and not [b]
    when the content script reports in: that turn sends the late timing
    log of [a] and a directive for [b], and leaves [b], and not [a],
    outstanding; the completion of [b] empties bucket 5 and leaves [c]
    outstanding. *)
Example wave_run :
  let s := threeHintsReceived in
  let s0 := (step s (SendHeaders requestOfA)).1 in
  let s1 := (step s0 (ContentMessage MessageType.CONTENT_SCRIPT_INIT)).1 in
  (step s0 (ContentMessage MessageType.CONTENT_SCRIPT_INIT)).2
    = [Message.Info (Message.CallingHandleFetchCompleted "INIT");
       Message.Info (Message.Lengths 0 2);
       lateLog "a";
       Message.Prefetch MessageType.PREFETCH_RESOURCE "b" "style"] ∧
  outstandingPrefetchUrls_ s1 = {[ "b" ]} ∧
  outstandingPrefetchUrls_ (step s1 (completionOf "3" "b")).1 = {[ "c" ]} ∧
  dependencies_ (step s1 (completionOf "3" "b")).1 = dependencies_ new.
Proof. vm_compute. done. Qed.

(** C4, as stated, fails. The buckets 0 and 5 hold [a] and [c]. The browser
    requests the url of [a]; the content script reports in, and [a] is
    handed to [fetchDependency], which logs it as late and adds nothing to
    the outstanding urls; the request of the browser completes, and bucket
    5 is emptied into the queue. No directive was ever sent for [a]: its
    url has not been outstanding. *)
Lemma wave_ordering_counterexample :
  ¬ (∀ (s : t) (events : list event) (e : event) (p1 p2 : nat)
       (rs1 bucket1 bucket2 : list PrefetchResource.t),
       reachable s →
       p1 < p2 →
       dependencies_ s !! p1 = Some rs1 → rs1 ≠ [] →
       dependencies_ s !! p2 = Some bucket1 → bucket1 ≠ [] →
       dependencies_ (exec s events).1 !! p2 = Some bucket2 → bucket2 ≠ [] →
       dependencies_ (step (exec s events).1 e).1 !! p2 = Some [] →
       ∀ r, r ∈ rs1 → url r ∈ directiveUrls (exec s events).2).
Proof.
  intros H.
  specialize (H twoTiersReceived
                [SendHeaders requestOfA;
                 ContentMessage MessageType.CONTENT_SCRIPT_INIT]
                (Completed requestOfA) 0 5
                [PrefetchResource.mk "a" "script"]
                [PrefetchResource.mk "c" "image"]
                [PrefetchResource.mk "c" "image"]).
  assert (reachable twoTiersReceived) as Hr by (by eexists).
  specialize (H Hr ltac:(lia) eq_refl ltac:(discriminate) eq_refl
                ltac:(discriminate) eq_refl ltac:(discriminate) eq_refl
                (PrefetchResource.mk "a" "script")).
  assert (PrefetchResource.mk "a" "script" ∈ [PrefetchResource.mk "a" "script"])
    as Hin by apply list_elem_of_here.
  specialize (H Hin). vm_compute in H. by apply elem_of_nil in H.
Qed.

End Waves.

(** ** The tracker and the directives inside the scheduler *)

Section Inside.
Import NumericPriorityScheduler.

(** The loop of [handleFetchCompleted] leaves the tracker, the requested
    urls, the navigation flag and the current priority alone. *)
Lemma fetchQueued_frame s queued :
  let s' := (fetchQueued s queued).1 in
  timeTracker s' = timeTracker s ∧
  requestedURLs_ s' = requestedURLs_ s ∧
  navigatedToDst_ s' = navigatedToDst_ s ∧
  curFetchPriority_ s' = curFetchPriority_ s.
Proof.
  revert s. induction queued as [|r rest IH]; intros s; simpl; [done|].
  case_decide; simpl; [|done].
  set (s0 := set_queuedPrefetches_ s rest).
  pose proof (fetchDependency_frame s0 r (curFetchPriority_ s0))
    as (_ & _ & Hc & Hr & Hn & Ht & _).
  destruct (fetchDependency s0 r _) as [s1 out1]. simpl in *.
  specialize (IH s1). destruct (fetchQueued s1 rest) as [s2 out2].
  simpl in *. destruct IH as (-> & -> & -> & ->). done.
Qed.

Lemma enqueueNext_frame s nextPriority :
  let s' := enqueueNext s nextPriority in
  timeTracker s' = timeTracker s ∧
  requestedURLs_ s' = requestedURLs_ s ∧
  navigatedToDst_ s' = navigatedToDst_ s.
Proof.
  unfold enqueueNext. case_decide; [|done]. by destruct (enqueueAll _ _).
Qed.

Lemma handleFetchCompleted_frame s fetchedURL :
  let s' := (handleFetchCompleted s fetchedURL).1 in
  timeTracker s' = timeTracker s ∧
  requestedURLs_ s' = requestedURLs_ s ∧
  navigatedToDst_ s' = navigatedToDst_ s.
Proof.
  unfold handleFetchCompleted. case_decide; simpl; [done|].
  set (s1 := enqueueNext s _).
  pose proof (fetchQueued_frame s1 (queuedPrefetches_ s1)) as (Ht & Hr & Hn & _).
  destruct (enqueueNext_frame s (firstNonEmpty 0 (dependencies_ s)))
    as (Ht1 & Hr1 & Hn1). fold s1 in Ht1, Hr1, Hn1.
  destruct (fetchQueued s1 _) as [s2 out]. simpl in *. by repeat split; congruence.
Qed.

Lemma eachResponseHeader_timeTracker s headers :
  timeTracker (eachResponseHeader s headers).1 = timeTracker s.
Proof.
  revert s. induction headers as [|h rest IH]; intros s; simpl; [done|].
  destruct (String.eqb _ "x-prefetch").
  - destruct (parsePrefetchURLs _ _) as [deps []]; [|done]. by rewrite IH.
  - destruct (String.eqb _ "x-lp-url"); by rewrite IH.
Qed.

(** A turn of the event loop calls [registerRequest] or [completeRequest]
    on the tracker at most once. *)
Lemma step_timeTracker s e :
  timeTracker (step s e).1 = timeTracker s ∨
  ∃ o, timeTracker (step s e).1 = TimeTracker.apply (timeTracker s) o.
Proof.
  destruct e as [|d|d|d|d|ty]; simpl.
  - left. unfold run. by destruct (didInit_ s).
  - destruct (didInit_ s); [|by left]. right.
    exists (TimeTracker.Register (Details.requestId d) (Details.timeStamp d)
              (isPrefetchRequest_ (Details.requestHeaders d))).
    unfold onSendHeaders_. by destruct (String.eqb _ _).
  - destruct (didInit_ s); [|by left]. left. unfold onHeadersReceived_.
    pose proof (eachResponseHeader_timeTracker s (Details.responseHeaders d)).
    by destruct (eachResponseHeader s _).
  - destruct (didInit_ s); [|by left]. right.
    exists (TimeTracker.Complete (Details.requestId d) (Details.timeStamp d)).
    unfold onFetchSucceed_, onFetchCompleted_.
    set (s0 := set_outstandingPrefetchUrls_ s _).
    pose proof (handleFetchCompleted_frame s0 (Details.url d)) as (Ht & _).
    destruct (handleFetchCompleted s0 _) as [s1 out]. simpl in *.
    rewrite Ht. by destruct (TimeTracker.completeRequest _ _ _).
  - destruct (didInit_ s); [|by left]. right.
    exists (TimeTracker.Complete (Details.requestId d) (Details.timeStamp d)).
    unfold onErrorOccurred_, onFetchCompleted_.
    set (s0 := set_outstandingPrefetchUrls_ s _).
    pose proof (handleFetchCompleted_frame s0 (Details.url d)) as (Ht & _).
    destruct (handleFetchCompleted s0 _) as [s1 out]. simpl in *.
    rewrite Ht. by destruct (TimeTracker.completeRequest _ _ _).
  - destruct (didInit_ s); [|by left]. left. unfold onContentMessage_.
    destruct (String.eqb _ _); [|done].
    destruct (initializedContentScript_ s); [done|]. simpl.
    pose proof (handleFetchCompleted_frame s "INIT") as (Ht & _).
    by destruct (handleFetchCompleted s "INIT").
Qed.

(** The tracker of a scheduler is reached from the empty tracker by a
    history of [registerRequest] and [completeRequest] calls. *)
Lemma exec_timeTracker events s ops :
  timeTracker s = TimeTracker.run ops TimeTracker.new →
  ∃ ops', timeTracker (exec s events).1 = TimeTracker.run ops' TimeTracker.new.
Proof.
  revert s ops. induction events as [|e rest IH]; intros s ops Hs; simpl.
  - by exists ops.
  - pose proof (step_timeTracker s e) as Hstep.
    destruct (step s e) as [s1 out1]. simpl in Hstep.
    assert (∃ ops1, timeTracker s1 = TimeTracker.run ops1 TimeTracker.new)
      as [ops1 H1].
    { destruct Hstep as [->|[o ->]].
      - by exists ops.
      - exists (ops ++ [o]). by rewrite run_app, Hs. }
    destruct (IH s1 ops1 H1) as [ops' H'].
    destruct (exec s1 rest) as [s2 out2]. by exists ops'.
Qed.

Lemma scheduler_tracker_sameKeys events :
  TimeTracker.sameKeys (timeTracker (exec new events).1).
Proof.
  destruct (exec_timeTracker events new [] eq_refl) as [ops ->].
  apply sameKeys_run, sameKeys_new.
Qed.

(** Every directive that the loop of [handleFetchCompleted] sends is for a
    url that has not been requested, and is a preload exactly when the
    browser has navigated and the current priority is at most 2. *)
Lemma fetchQueued_directive_kind s queued msgType u resourceType :
  Message.Prefetch msgType u resourceType ∈ (fetchQueued s queued).2 →
  (u ∉ requestedURLs_ s) ∧
  (msgType = MessageType.PRELOAD_RESOURCE ↔
     navigatedToDst_ s = true ∧ (curFetchPriority_ s ≤ 2)%Z).
Proof.
  revert s. induction queued as [|r rest IH]; intros s; simpl.
  - intros Hin. by apply elem_of_nil in Hin.
  - case_decide; simpl; [|intros Hin; by apply elem_of_nil in Hin].
    set (s0 := set_queuedPrefetches_ s rest).
    pose proof (fetchDependency_frame s0 r (curFetchPriority_ s0))
      as (_ & _ & Hc & Hr & Hn & _).
    assert (∀ m, m ∈ (fetchDependency s0 r (curFetchPriority_ s0)).2 →
                 m = Message.Prefetch msgType u resourceType →
                 (u ∉ requestedURLs_ s) ∧
                 (msgType = MessageType.PRELOAD_RESOURCE ↔
                    navigatedToDst_ s = true ∧ (curFetchPriority_ s ≤ 2)%Z))
      as Hhead.
    { intros m Hm ->. unfold fetchDependency in Hm.
      case_decide as Hreq; simpl in Hm; apply list_elem_of_singleton in Hm.
      - discriminate.
      - inversion Hm; subst. split; [done|]. simpl.
        unfold MAX_MAIN_FRAME_PRIORITY,
          MessageType.PRELOAD_RESOURCE, MessageType.PREFETCH_RESOURCE.
        destruct (navigatedToDst_ s), (Z.gtb_spec (curFetchPriority_ s) 2);
          intuition (try discriminate; try lia). }
    destruct (fetchDependency s0 r _) as [s1 out1]. simpl in *.
    specialize (IH s1). destruct (fetchQueued s1 rest) as [s2 out2].
    simpl in *. intros Hin. apply elem_of_app in Hin as [Hin|Hin].
    + by eapply Hhead.
    + rewrite <- Hr, <- Hn, <- Hc. by apply IH.
Qed.

Lemma handleFetchCompleted_directive_kind s fetchedURL msgType u resourceType :
  Message.Prefetch msgType u resourceType ∈ (handleFetchCompleted s fetchedURL).2 →
  (u ∉ requestedURLs_ s) ∧
  (msgType = MessageType.PRELOAD_RESOURCE ↔
     navigatedToDst_ s = true ∧
     (curFetchPriority_ (handleFetchCompleted s fetchedURL).1 ≤ 2)%Z).
Proof.
  unfold handleFetchCompleted. case_decide; simpl.
  { intros Hin. apply list_elem_of_singleton in Hin. discriminate. }
  set (s1 := enqueueNext s _).
  pose proof (fetchQueued_directive_kind s1 (queuedPrefetches_ s1)
                msgType u resourceType) as Hk.
  pose proof (fetchQueued_frame s1 (queuedPrefetches_ s1)) as (_ & _ & _ & Hc).
  destruct (enqueueNext_frame s (firstNonEmpty 0 (dependencies_ s)))
    as (_ & Hr1 & Hn1). fold s1 in Hr1, Hn1.
  destruct (fetchQueued s1 _) as [s2 out]. simpl in *.
  intros Hin. apply elem_of_cons in Hin as [Hin|Hin]; [discriminate|].
  apply elem_of_cons in Hin as [Hin|Hin]; [discriminate|].
  rewrite <- Hr1, <- Hn1, Hc. by apply Hk.
Qed.

(** C6. A call of [fetchDependency] on a resource whose url has not been
    requested sends one directive for that resource, and the directive is
    a preload exactly when the browser has navigated to the landing page
    and the priority is at most [MAX_MAIN_FRAME_PRIORITY] = 2; otherwise
    it is a prefetch. So every directive that a call of
    [handleFetchCompleted] sends is for a url that has not been requested,
    and is a preload exactly when the browser has navigated and the
    priority that the call fetches at is at most 2. *)
Theorem directive_kind (s : t) (resource : PrefetchResource.t) (priority : Z) :
  PrefetchResource.url resource ∉ requestedURLs_ s →
  (∃ msgType,
     (fetchDependency s resource priority).2
       = [Message.Prefetch msgType (PrefetchResource.url resource)
            (PrefetchResource.type resource)] ∧
     (msgType = MessageType.PRELOAD_RESOURCE ↔
        navigatedToDst_ s = true ∧ (priority ≤ 2)%Z) ∧
     (msgType = MessageType.PREFETCH_RESOURCE ↔
        ¬ (navigatedToDst_ s = true ∧ (priority ≤ 2)%Z))) ∧
  (∀ fetchedURL msgType u resourceType,
     Message.Prefetch msgType u resourceType
       ∈ (handleFetchCompleted s fetchedURL).2 →
     (u ∉ requestedURLs_ s) ∧
     (msgType = MessageType.PRELOAD_RESOURCE ↔
        navigatedToDst_ s = true ∧
        (curFetchPriority_ (handleFetchCompleted s fetchedURL).1 ≤ 2)%Z)).
Proof.
  intros Hnew. split; [|intros ? ? ? ? ?; by eapply handleFetchCompleted_directive_kind].
  unfold fetchDependency. rewrite decide_False by done.
  unfold MAX_MAIN_FRAME_PRIORITY.
  destruct (navigatedToDst_ s), (Z.gtb_spec priority 2);
    eexists; (split; [reflexivity|]);
    unfold MessageType.PRELOAD_RESOURCE, MessageType.PREFETCH_RESOURCE;
    intuition (try discriminate; try lia).
Qed.

Lemma directive_kind_witness :
  let s := set_navigatedToDst_ new true in
  (∃ msgType,
     (fetchDependency s (PrefetchResource.mk "http://lp/app.js" "script") 2).2
       = [Message.Prefetch msgType "http://lp/app.js" "script"] ∧
     (msgType = MessageType.PRELOAD_RESOURCE ↔ true = true ∧ (2 ≤ 2)%Z) ∧
     (msgType = MessageType.PREFETCH_RESOURCE ↔ ¬ (true = true ∧ (2 ≤ 2)%Z))) ∧
  (∀ fetchedURL msgType u resourceType,
     Message.Prefetch msgType u resourceType
       ∈ (handleFetchCompleted s fetchedURL).2 →
     (u ∉ requestedURLs_ s) ∧
     (msgType = MessageType.PRELOAD_RESOURCE ↔
        navigatedToDst_ s = true ∧
        (curFetchPriority_ (handleFetchCompleted s fetchedURL).1 ≤ 2)%Z)).
Proof.
  apply (directive_kind (set_navigatedToDst_ new true)
           (PrefetchResource.mk "http://lp/app.js" "script") 2).
  simpl. apply not_elem_of_empty.
Defined.

(** C9. In every tracker reached from the empty one by calls of
    [registerRequest] and [completeRequest], the three maps have the same
    key set, so that [requestTimes_.has(id)] holds exactly when
    [completeTimes_.has(id)] does, and exactly when [prefetched_.has(id)]
    does. The tracker of the scheduler, after any events, is such a
    tracker. *)
Theorem tracker_maps_same_keys (ops : list TimeTracker.op)
    (events : list event) (id : string) :
  let tr := TimeTracker.run ops TimeTracker.new in
  dom (TimeTracker.requestTimes_ tr) = dom (TimeTracker.completeTimes_ tr) ∧
  dom (TimeTracker.completeTimes_ tr) = dom (TimeTracker.prefetched_ tr) ∧
  (is_Some (TimeTracker.requestTimes_ tr !! id)
     ↔ is_Some (TimeTracker.completeTimes_ tr !! id)) ∧
  (is_Some (TimeTracker.requestTimes_ tr !! id)
     ↔ is_Some (TimeTracker.prefetched_ tr !! id)) ∧
  (∃ ops', timeTracker (exec new events).1
             = TimeTracker.run ops' TimeTracker.new) ∧
  TimeTracker.sameKeys (timeTracker (exec new events).1).
Proof.
  intros tr.
  assert (TimeTracker.sameKeys tr) as Hk by apply sameKeys_run, sameKeys_new.
  destruct (sameKeys_has tr id Hk) as [? ?].
  destruct Hk as [? ?]. do 4 (split; [done|]). split.
  - apply (exec_timeTracker events new [] eq_refl).
  - apply scheduler_tracker_sameKeys.
Qed.

End Inside.

(** ** Two runs *)

Section Runs.
Import NumericPriorityScheduler Scenario.

(** Hints for [a] and [b] in bucket 0 and [c] in bucket 5: the first call of
    [handleFetchCompleted] fetches [a] and [b]; [c] stays in bucket 5 while
    one of them is outstanding, and is fetched when both have completed. *)
Example three_hints_run :
  let start := [Run; hintsReceived threeHints;
                ContentMessage MessageType.CONTENT_SCRIPT_INIT] in
  fetchedUrls (exec new start).2 = ["a"; "b"] ∧
  dependencies_ (exec new start).1 !! 5
    = Some [PrefetchResource.mk "c" "image"] ∧
  fetchedUrls (exec new (start ++ [completionOf "2" "a"])).2 = ["a"; "b"] ∧
  fetchedUrls (exec new (start ++ [completionOf "2" "a"; completionOf "3" "b"])).2
    = ["a"; "b"; "c"].
Proof. vm_compute. done. Qed.

(** Eight hints for bucket 0 with eight urls: the first call fetches seven,
    the eighth is fetched when one of the seven has completed. *)
Example eight_hints_run :
  let start := [Run; hintsReceived eightHints;
                ContentMessage MessageType.CONTENT_SCRIPT_INIT] in
  fetchedUrls (exec new start).2 = ["u1"; "u2"; "u3"; "u4"; "u5"; "u6"; "u7"] ∧
  queuedPrefetches_ (exec new start).1 = [PrefetchResource.mk "u8" "script"] ∧
  size (outstandingPrefetchUrls_ (exec new start).1) = 7 ∧
  fetchedUrls (exec new (start ++ [completionOf "2" "u3"])).2
    = ["u1"; "u2"; "u3"; "u4"; "u5"; "u6"; "u7"; "u8"].
Proof. vm_compute. done. Qed.

End Runs.

(** ** The queries of the tracker *)

Section TrackerQueries.
Import TimeTracker History.

Lemma apply_prefetched_other tr o id :
  registers id o = false →
  prefetched_ (apply tr o) !! id = prefetched_ tr !! id.
Proof.
  destruct o as [id' ts p|id' ts]; simpl; intros Hr.
  - apply bool_decide_eq_false in Hr. by rewrite lookup_insert_ne.
  - unfold completeRequest. by destruct (requestTimes_ tr !! id').
Qed.

Lemma run_prefetched_other ops tr id :
  neverRegistered id ops →
  prefetched_ (run ops tr) !! id = prefetched_ tr !! id.
Proof.
  revert tr. induction ops as [|o ops IH]; intros tr Hn; [done|].
  inversion Hn as [|? ? Ho Hops]; subst. simpl.
  rewrite IH by done. by apply apply_prefetched_other.
Qed.

Lemma apply_completeTimes_other tr o id :
  registers id o = false → completes id o = false →
  completeTimes_ (apply tr o) !! id = completeTimes_ tr !! id.
Proof.
  destruct o as [id' ts p|id' ts]; simpl; intros Hr Hc.
  - apply bool_decide_eq_false in Hr. by rewrite lookup_insert_ne.
  - apply bool_decide_eq_false in Hc. unfold completeRequest.
    destruct (requestTimes_ tr !! id'); [|done]. simpl.
    by rewrite lookup_insert_ne.
Qed.

Lemma run_completeTimes_other ops tr id :
  neverRegistered id ops → neverCompleted id ops →
  completeTimes_ (run ops tr) !! id = completeTimes_ tr !! id.
Proof.
  revert tr. induction ops as [|o ops IH]; intros tr Hn Hc; [done|].
  inversion Hn as [|? ? Ho Hops]; subst.
  inversion Hc as [|? ? Ho' Hops']; subst. simpl.
  rewrite IH by done. by apply apply_completeTimes_other.
Qed.

(** X1. What was registered is what the queries return: after
    [registerRequest(id, t0, p)] and any calls that do not register [id]
    again, [getRequestTime(id)] is [t0] and [isPrefetchRequest(id)] is
    'yes' or 'no' as [p] says; and if [id] has not been completed since,
    [getCompleteTime(id)] is -1, also when [id] had been registered and
    completed before. *)
Theorem queries_after_register
    (before between : list op) (id : string) (t0 : float) (p : bool) :
  neverRegistered id between →
  let tr := run (before ++ Register id t0 p :: between) new in
  getRequestTime tr id = t0 ∧
  isPrefetchRequest tr id
    = (if p then PrefetchStatus.YES else PrefetchStatus.NO) ∧
  (neverCompleted id between → getCompleteTime tr id = (-1)%float).
Proof.
  intros Hn tr. unfold tr, getRequestTime, isPrefetchRequest, getCompleteTime.
  rewrite !run_app. simpl.
  rewrite run_requestTimes_other, run_prefetched_other by done. simpl.
  rewrite !lookup_insert_eq. simpl. repeat split.
  intros Hc. rewrite run_completeTimes_other by done. simpl.
  by rewrite lookup_insert_eq.
Qed.

Lemma queries_after_register_witness :
  let tr :=
    run ([Register "8" 1 false; Complete "8" 4]
           ++ Register "8" 100 true :: [Register "9" 101 false; Complete "9" 120])
      new in
  getRequestTime tr "8" = 100%float ∧
  isPrefetchRequest tr "8" = PrefetchStatus.YES ∧
  (neverCompleted "8" [Register "9" 101 false; Complete "9" 120] →
   getCompleteTime tr "8" = (-1)%float).
Proof.
  apply (queries_after_register [Register "8" 1 false; Complete "8" 4]
           [Register "9" 101 false; Complete "9" 120] "8" 100 true).
  repeat constructor.
Defined.

(** X2. An id that no call has registered is unknown to every query,
    whatever has been completed: [isPrefetchRequest] is 'unknown' and both
    timestamps are -1. In particular a [completeRequest] on an unknown id
    leaves no complete timestamp behind. *)
Theorem queries_unknown_id (history : list op) (id : string) :
  neverRegistered id history →
  let tr := run history new in
  isPrefetchRequest tr id = PrefetchStatus.UNKNOWN ∧
  getRequestTime tr id = (-1)%float ∧
  getCompleteTime tr id = (-1)%float.
Proof.
  intros Hn tr.
  assert (requestTimes_ tr !! id = None) as Hr.
  { unfold tr. by rewrite run_requestTimes_other. }
  assert (completeTimes_ tr !! id = None) as Hc.
  { assert (sameKeys tr) as Hk by apply sameKeys_run, sameKeys_new.
    destruct (sameKeys_has tr id Hk) as [Hrc _].
    destruct (completeTimes_ tr !! id) as [ts|] eqn:E; [|done].
    assert (is_Some (requestTimes_ tr !! id)) as [? Hs] by (apply Hrc; eauto).
    congruence. }
  unfold isPrefetchRequest, getRequestTime, getCompleteTime.
  by rewrite Hr, Hc.
Qed.

Lemma queries_unknown_id_witness :
  let tr := run [Register "8" 1 false; Complete "9" 4; Complete "8" 5] new in
  isPrefetchRequest tr "9" = PrefetchStatus.UNKNOWN ∧
  getRequestTime tr "9" = (-1)%float ∧
  getCompleteTime tr "9" = (-1)%float.
Proof.
  apply (queries_unknown_id [Register "8" 1 false; Complete "9" 4; Complete "8" 5]
           "9").
  repeat constructor.
Defined.

(** X3. A completion touches one number only: [completeRequest(id, ts)]
    changes the answer of no query on another id, and on [id] itself it
    leaves [getRequestTime] and [isPrefetchRequest] as they were. *)
Theorem completeRequest_frame (tr : t) (id other : string) (ts : float) :
  let tr' := (completeRequest tr id ts).1 in
  getRequestTime tr' other = getRequestTime tr other ∧
  isPrefetchRequest tr' other = isPrefetchRequest tr other ∧
  (other ≠ id → getCompleteTime tr' other = getCompleteTime tr other).
Proof.
  unfold completeRequest, getRequestTime, isPrefetchRequest, getCompleteTime.
  destruct (requestTimes_ tr !! id); simpl; [|done].
  repeat split. intros Hne. by rewrite lookup_insert_ne.
Qed.

(** X4. The last completion wins, and every completion is measured from
    the last registration: after [registerRequest(id, t0, _)] and calls
    that do not register [id] again, [completeRequest(id, t1)] followed by
    [completeRequest(id, t2)] returns [t2 - t0] the second time, the
    binary64 difference of the two numbers, and [t2] is the complete
    timestamp then. *)
Theorem completeRequest_twice
    (before between : list op) (id : string) (t0 t1 t2 : float) (p : bool) :
  neverRegistered id between →
  let tr := run (before ++ Register id t0 p :: between) new in
  let tr1 := (completeRequest tr id t1).1 in
  (completeRequest tr1 id t2).2 = (t2 - t0)%float ∧
  getCompleteTime (completeRequest tr1 id t2).1 id = t2 ∧
  getRequestTime (completeRequest tr1 id t2).1 id = t0.
Proof.
  intros Hn tr tr1.
  assert (requestTimes_ tr !! id = Some t0) as Hr.
  { unfold tr. rewrite run_app. simpl.
    rewrite run_requestTimes_other by done. simpl. apply lookup_insert_eq. }
  unfold tr1, completeRequest, getCompleteTime, getRequestTime.
  rewrite Hr. simpl. rewrite Hr. simpl. by rewrite Hr, lookup_insert_eq.
Qed.

Lemma completeRequest_twice_witness :
  let tr :=
    run ([] ++ Register "8" 100.25 true :: [Register "9" 101 false]) new in
  let tr1 := (completeRequest tr "8" 130.5).1 in
  (completeRequest tr1 "8" 150.75).2 = 50.5%float ∧
  getCompleteTime (completeRequest tr1 "8" 150.75).1 "8" = 150.75%float ∧
  getRequestTime (completeRequest tr1 "8" 150.75).1 "8" = 100.25%float.
Proof.
  apply (completeRequest_twice [] [Register "9" 101 false] "8"
           100.25 130.5 150.75 true).
  repeat constructor.
Defined.

End TrackerQueries.

(** ** The shape of a turn *)

Section Shape.
Import NumericPriorityScheduler History.

Lemma fetchQueued_frame_more s queued :
  let s' := (fetchQueued s queued).1 in
  lpUrl s' = lpUrl s ∧
  didInit_ s' = didInit_ s ∧
  initializedContentScript_ s' = initializedContentScript_ s ∧
  dependencies_ s' = dependencies_ s.
Proof.
  revert s. induction queued as [|r rest IH]; intros s; simpl; [done|].
  case_decide; simpl; [|done].
  set (s0 := set_queuedPrefetches_ s rest).
  pose proof (fetchDependency_frame s0 r (curFetchPriority_ s0))
    as (Hd & _ & _ & _ & _ & _ & Hl & Hi & Hc).
  destruct (fetchDependency s0 r _) as [s1 out1]. simpl in *.
  specialize (IH s1). destruct (fetchQueued s1 rest) as [s2 out2].
  simpl in *. destruct IH as (-> & -> & -> & ->). done.
Qed.

Lemma enqueueNext_frame_more s nextPriority :
  let s' := enqueueNext s nextPriority in
  lpUrl s' = lpUrl s ∧
  didInit_ s' = didInit_ s ∧
  initializedContentScript_ s' = initializedContentScript_ s ∧
  length (dependencies_ s') = length (dependencies_ s).
Proof.
  unfold enqueueNext. case_decide; [|done].
  destruct (enqueueAll _ _). simpl. by rewrite length_insert.
Qed.

(** [handleFetchCompleted] writes the buckets, the queue, the outstanding
    urls and the current priority only, and keeps the number of buckets. *)
Lemma handleFetchCompleted_frame_more s fetchedURL :
  let s' := (handleFetchCompleted s fetchedURL).1 in
  lpUrl s' = lpUrl s ∧
  didInit_ s' = didInit_ s ∧
  initializedContentScript_ s' = initializedContentScript_ s ∧
  length (dependencies_ s') = length (dependencies_ s).
Proof.
  unfold handleFetchCompleted. case_decide; simpl; [done|].
  set (s1 := enqueueNext s _).
  pose proof (fetchQueued_frame_more s1 (queuedPrefetches_ s1))
    as (Hl & Hi & Hc & Hd).
  destruct (enqueueNext_frame_more s (firstNonEmpty 0 (dependencies_ s)))
    as (Hl1 & Hi1 & Hc1 & Hd1). fold s1 in Hl1, Hi1, Hc1, Hd1.
  destruct (fetchQueued s1 _) as [s2 out]. simpl in *.
  repeat split; congruence.
Qed.

Lemma eachResponseHeader_frame s headers :
  let s' := (eachResponseHeader s headers).1 in
  outstandingPrefetchUrls_ s' = outstandingPrefetchUrls_ s ∧
  queuedPrefetches_ s' = queuedPrefetches_ s ∧
  curFetchPriority_ s' = curFetchPriority_ s ∧
  requestedURLs_ s' = requestedURLs_ s ∧
  navigatedToDst_ s' = navigatedToDst_ s ∧
  timeTracker s' = timeTracker s ∧
  didInit_ s' = didInit_ s ∧
  initializedContentScript_ s' = initializedContentScript_ s.
Proof.
  revert s. induction headers as [|h rest IH]; intros s; simpl; [done|].
  destruct (String.eqb _ "x-prefetch").
  - destruct (parsePrefetchURLs _ _) as [deps []]; [|done].
    apply (IH (set_dependencies_ s deps)).
  - destruct (String.eqb _ "x-lp-url"); [|apply IH].
    apply (IH (set_lpUrl s (HttpHeader.value h))).
Qed.

Lemma alter_length_eq {A} (f : A → A) (l : list A) i :
  length (alter f i l) = length l.
Proof. apply length_alter. Qed.

Lemma parseElements_length dependencies prefetchURLs :
  length (parseElements dependencies prefetchURLs).1 = length dependencies.
Proof.
  revert dependencies.
  induction prefetchURLs as [|element rest IH]; intros dependencies; simpl.
  - done.
  - destruct (parseElement dependencies element) as [dependencies'|] eqn:He.
    + rewrite IH.
      destruct (parseElement_spec _ _ _ He) as (k & r & _ & _ & ->).
      apply length_alter.
    + done.
Qed.

Lemma eachResponseHeader_length s headers :
  length (dependencies_ (eachResponseHeader s headers).1)
    = length (dependencies_ s).
Proof.
  revert s. induction headers as [|h rest IH]; intros s; simpl; [done|].
  destruct (String.eqb _ "x-prefetch").
  - pose proof (parseElements_length (dependencies_ s)
                  (JS.split (HttpHeader.value h) DELIMETER)) as Hlen.
    unfold parsePrefetchURLs.
    destruct (parseElements _ _) as [deps []]; simpl in *.
    + by rewrite IH.
    + done.
  - destruct (String.eqb _ "x-lp-url"); by rewrite IH.
Qed.

Local Ltac quiet_goal :=
  first
    [ done
    | congruence
    | apply union_subseteq_r
    | apply appended_refl
    | by (let m := fresh in let Hm := fresh in
          intros m Hm; apply elem_of_nil in Hm)
    | (let m := fresh in let Hm := fresh in
       intros m Hm; apply list_elem_of_singleton in Hm; by subst) ].

(** A turn of the event loop either calls [handleFetchCompleted] once, on
    the scheduler less the url that the event reports as completed, and
    sends nothing else that shows a fetch; or it fetches nothing and leaves
    the queue, the outstanding urls and the current priority alone. *)
Lemma step_shape s e :
  let s' := (step s e).1 in
  let out := (step s e).2 in
  ((∀ m, m ∈ out → fetchedUrl m = None) ∧
   outstandingPrefetchUrls_ s' = outstandingPrefetchUrls_ s ∧
   queuedPrefetches_ s' = queuedPrefetches_ s ∧
   curFetchPriority_ s' = curFetchPriority_ s ∧
   initializedContentScript_ s' = initializedContentScript_ s ∧
   length (dependencies_ s') = length (dependencies_ s) ∧
   appended (dependencies_ s) (dependencies_ s') ∧
   (receivesHeaders e = false → dependencies_ s' = dependencies_ s) ∧
   requestedURLs_ s ⊆ requestedURLs_ s' ∧
   (navigatedToDst_ s = true → navigatedToDst_ s' = true) ∧
   (didInit_ s = true → didInit_ s' = true)) ∨
  (∃ fetchedURL pre post,
     let s0 := set_outstandingPrefetchUrls_ s
                 (outstandingPrefetchUrls_ s ∖ completedUrls e) in
     let s1 := (handleFetchCompleted s0 fetchedURL).1 in
     didInit_ s = true ∧
     out = pre ++ (handleFetchCompleted s0 fetchedURL).2 ++ post ∧
     (∀ m, m ∈ pre ++ post → fetchedUrl m = None) ∧
     dependencies_ s' = dependencies_ s1 ∧
     queuedPrefetches_ s' = queuedPrefetches_ s1 ∧
     curFetchPriority_ s' = curFetchPriority_ s1 ∧
     outstandingPrefetchUrls_ s' = outstandingPrefetchUrls_ s1 ∧
     requestedURLs_ s' = requestedURLs_ s ∧
     navigatedToDst_ s' = navigatedToDst_ s ∧
     lpUrl s' = lpUrl s ∧
     didInit_ s' = true ∧
     (initializedContentScript_ s = true →
      initializedContentScript_ s' = true)).
Proof.
  destruct e as [|d|d|d|d|ty]; simpl.
  - left. unfold run. destruct (didInit_ s) eqn:Hi; simpl;
      repeat split; quiet_goal.
  - left. destruct (didInit_ s) eqn:Hi; simpl; [|repeat split; quiet_goal].
    unfold onSendHeaders_. destruct (String.eqb _ _); simpl;
      repeat split; quiet_goal.
  - left. destruct (didInit_ s) eqn:Hi; simpl; [|repeat split; quiet_goal].
    unfold onHeadersReceived_.
    pose proof (eachResponseHeader_frame s (Details.responseHeaders d))
      as (Ho & Hq & Hc & Hr & Hn & _ & Hdi & Hic).
    pose proof (eachResponseHeader_length s (Details.responseHeaders d)) as Hlen.
    pose proof (eachResponseHeader_spec s (Details.responseHeaders d)) as [Ha _].
    destruct (eachResponseHeader s _) as [s1 c]. simpl in *.
    rewrite Hr. repeat split; first [exact Ha | quiet_goal].
  - destruct (didInit_ s) eqn:Hi; simpl; [|left; repeat split; quiet_goal].
    right. unfold onFetchSucceed_, onFetchCompleted_.
    set (s0 := set_outstandingPrefetchUrls_ s _).
    exists (Details.url d).
    pose proof (handleFetchCompleted_frame s0 (Details.url d)) as (_ & Hr & Hn).
    pose proof (handleFetchCompleted_frame_more s0 (Details.url d))
      as (Hl & Hdi & Hic & _).
    destruct (handleFetchCompleted s0 _) as [s1 out].
    destruct (TimeTracker.completeRequest _ _ _) as [tracker fetchTime].
    simpl in *.
    eexists [_], [_; _]. repeat split; try done; try congruence.
    intros m Hm. simpl in Hm.
    apply elem_of_cons in Hm as [->|Hm]; [done|].
    apply elem_of_cons in Hm as [->|Hm]; [done|].
    apply list_elem_of_singleton in Hm as ->.
    apply isPrefetchRequest_not_late.
  - destruct (didInit_ s) eqn:Hi; simpl; [|left; repeat split; quiet_goal].
    right. unfold onErrorOccurred_, onFetchCompleted_.
    set (s0 := set_outstandingPrefetchUrls_ s _).
    exists (Details.url d).
    pose proof (handleFetchCompleted_frame s0 (Details.url d)) as (_ & Hr & Hn).
    pose proof (handleFetchCompleted_frame_more s0 (Details.url d))
      as (Hl & Hdi & Hic & _).
    destruct (handleFetchCompleted s0 _) as [s1 out].
    destruct (TimeTracker.completeRequest _ _ _) as [tracker fetchTime].
    simpl in *.
    eexists [_], [_; _]. repeat split; try done; try congruence.
    intros m Hm. simpl in Hm.
    apply elem_of_cons in Hm as [->|Hm]; [done|].
    apply elem_of_cons in Hm as [->|Hm]; [done|].
    apply list_elem_of_singleton in Hm as ->.
    apply isPrefetchRequest_not_late.
  - destruct (didInit_ s) eqn:Hi; simpl; [|left; repeat split; quiet_goal].
    unfold onContentMessage_.
    destruct (String.eqb _ _); [|left; repeat split; quiet_goal].
    destruct (initializedContentScript_ s) eqn:Hic; simpl;
      [left; repeat split; quiet_goal|].
    right. exists "INIT", [], [].
    replace (set_outstandingPrefetchUrls_ s (outstandingPrefetchUrls_ s ∖ ∅))
      with s.
    2:{ rewrite difference_empty_L. by destruct s. }
    pose proof (handleFetchCompleted_frame s "INIT") as (_ & Hr & Hn).
    pose proof (handleFetchCompleted_frame_more s "INIT") as (Hl & Hdi & _).
    destruct (handleFetchCompleted s "INIT") as [s1 out]. simpl in *.
    rewrite app_nil_r. repeat split; quiet_goal.
Qed.

End Shape.

(** ** Along a run *)

Section AlongRuns.
Import NumericPriorityScheduler History Scenario.

Lemma step_mono s e :
  let s' := (step s e).1 in
  requestedURLs_ s ⊆ requestedURLs_ s' ∧
  (navigatedToDst_ s = true → navigatedToDst_ s' = true) ∧
  (didInit_ s = true → didInit_ s' = true) ∧
  (initializedContentScript_ s = true → initializedContentScript_ s' = true) ∧
  length (dependencies_ s') = length (dependencies_ s).
Proof.
  cbv zeta.
  destruct (step_shape s e)
    as [(_ & _ & _ & _ & Hic & Hlen & _ & _ & Hr & Hn & Hdi)
       |(f & pre & post & Hdi & _ & _ & Hd & _ & _ & _ & Hr & Hn & _ & Hdi' & Hic)].
  - repeat split; try done. congruence.
  - pose proof (handleFetchCompleted_frame_more
                  (set_outstandingPrefetchUrls_ s
                     (outstandingPrefetchUrls_ s ∖ completedUrls e)) f)
      as (_ & _ & _ & Hlen).
    repeat split; try done; try congruence.
    by rewrite Hd, Hlen.
Qed.

Lemma exec_mono s events :
  let s' := (exec s events).1 in
  requestedURLs_ s ⊆ requestedURLs_ s' ∧
  (navigatedToDst_ s = true → navigatedToDst_ s' = true) ∧
  (didInit_ s = true → didInit_ s' = true) ∧
  (initializedContentScript_ s = true → initializedContentScript_ s' = true) ∧
  length (dependencies_ s') = length (dependencies_ s).
Proof.
  revert s. induction events as [|e rest IH]; intros s; simpl; [done|].
  pose proof (step_mono s e) as (Hr & Hn & Hd & Hi & Hl).
  destruct (step s e) as [s1 out1]. simpl in *.
  specialize (IH s1). destruct (exec s1 rest) as [s2 out2]. simpl in *.
  destruct IH as (Hr2 & Hn2 & Hd2 & Hi2 & Hl2).
  repeat split; auto; try congruence. by etrans.
Qed.

(** X5. The requested urls only grow and the navigation flag never goes
    back: whatever events follow, a url that has been requested stays
    requested, and once the browser has navigated to the landing page the
    scheduler keeps saying so. The number of buckets never changes. *)
Theorem requested_and_navigated_stay (s : t) (events : list event) (u : string) :
  let s' := (exec s events).1 in
  (u ∈ requestedURLs_ s → u ∈ requestedURLs_ s') ∧
  (navigatedToDst_ s = true → navigatedToDst_ s' = true) ∧
  length (dependencies_ s') = length (dependencies_ s).
Proof.
  intros s'. destruct (exec_mono s events) as (Hr & Hn & _ & _ & Hl).
  repeat split; auto.
Qed.

Lemma fetchQueued_directive_type s queued msgType u resourceType :
  Message.Prefetch msgType u resourceType ∈ (fetchQueued s queued).2 →
  msgType = MessageType.PRELOAD_RESOURCE ∨
  msgType = MessageType.PREFETCH_RESOURCE.
Proof.
  revert s. induction queued as [|r rest IH]; intros s; simpl.
  - intros Hin. by apply elem_of_nil in Hin.
  - case_decide; simpl; [|intros Hin; by apply elem_of_nil in Hin].
    set (s0 := set_queuedPrefetches_ s rest).
    assert (Message.Prefetch msgType u resourceType
              ∈ (fetchDependency s0 r (curFetchPriority_ s0)).2 →
            msgType = MessageType.PRELOAD_RESOURCE ∨
            msgType = MessageType.PREFETCH_RESOURCE) as Hhead.
    { unfold fetchDependency. case_decide; simpl; intros Hm;
        apply list_elem_of_singleton in Hm; [discriminate|].
      inversion Hm; subst.
      repeat case_match; auto. }
    destruct (fetchDependency s0 r _) as [s1 out1]. simpl in *.
    specialize (IH s1). destruct (fetchQueued s1 rest) as [s2 out2].
    simpl in *. intros Hin. apply elem_of_app in Hin as [Hin|Hin]; auto.
Qed.

Lemma handleFetchCompleted_directive_type s fetchedURL msgType u resourceType :
  Message.Prefetch msgType u resourceType ∈ (handleFetchCompleted s fetchedURL).2 →
  msgType = MessageType.PRELOAD_RESOURCE ∨
  msgType = MessageType.PREFETCH_RESOURCE.
Proof.
  unfold handleFetchCompleted. case_decide; simpl.
  { intros Hin. apply list_elem_of_singleton in Hin. discriminate. }
  set (s1 := enqueueNext s _).
  pose proof (fetchQueued_directive_type s1 (queuedPrefetches_ s1)
                msgType u resourceType) as Hk.
  destruct (fetchQueued s1 _) as [s2 out]. simpl in *.
  intros Hin. apply elem_of_cons in Hin as [Hin|Hin]; [discriminate|].
  apply elem_of_cons in Hin as [Hin|Hin]; [discriminate|]. auto.
Qed.

(** Every directive of a turn is for a url that has not been requested, is
    a preload or a prefetch, and is a preload exactly when the browser has
    navigated and the priority that the turn ends with is at most 2. *)
Lemma step_directive s e msgType u resourceType :
  Message.Prefetch msgType u resourceType ∈ (step s e).2 →
  (u ∉ requestedURLs_ s) ∧
  (msgType = MessageType.PRELOAD_RESOURCE ∨
   msgType = MessageType.PREFETCH_RESOURCE) ∧
  (msgType = MessageType.PRELOAD_RESOURCE ↔
     navigatedToDst_ s = true ∧ (curFetchPriority_ (step s e).1 ≤ 2)%Z).
Proof.
  intros Hin.
  destruct (step_shape s e)
    as [(Hq & _)
       |(f & pre & post & _ & Hout & Hq & _ & _ & Hc & _)].
  - specialize (Hq _ Hin). discriminate.
  - rewrite Hout in Hin.
    assert (Message.Prefetch msgType u resourceType
              ∈ (handleFetchCompleted
                   (set_outstandingPrefetchUrls_ s
                      (outstandingPrefetchUrls_ s ∖ completedUrls e)) f).2)
      as Hh.
    { apply elem_of_app in Hin as [Hin|Hin].
      - assert (Message.Prefetch msgType u resourceType ∈ pre ++ post) as Hpp
          by (apply elem_of_app; by left).
        specialize (Hq _ Hpp). discriminate.
      - apply elem_of_app in Hin as [Hin|Hin]; [done|].
        assert (Message.Prefetch msgType u resourceType ∈ pre ++ post) as Hpp
          by (apply elem_of_app; by right).
        specialize (Hq _ Hpp). discriminate. }
    destruct (handleFetchCompleted_directive_kind _ _ _ _ _ Hh) as [Hr Hk].
    pose proof (handleFetchCompleted_directive_type _ _ _ _ _ Hh) as Hty.
    simpl in *. rewrite Hc. done.
Qed.

(** X6. Once the browser has sent the headers of a request for a url, the
    scheduler never sends a directive for that url again: for a url in the
    requested set, no later turn sends a prefetch or a preload directive,
    whatever hints arrive. *)
Theorem no_directive_once_requested (s : t) (events : list event) (u : string) :
  u ∈ requestedURLs_ s →
  u ∉ directiveUrls (exec s events).2.
Proof.
  revert s. induction events as [|e rest IH]; intros s Hu; simpl.
  - apply not_elem_of_nil.
  - pose proof (step_mono s e) as (Hr & _).
    pose proof (step_directive s e) as Hd.
    destruct (step s e) as [s1 out1]. simpl in *.
    specialize (IH s1 (Hr _ Hu)). destruct (exec s1 rest) as [s2 out2].
    simpl in *. unfold directiveUrls in *. rewrite omap_app.
    intros Hin. apply elem_of_app in Hin as [Hin|Hin]; [|done].
    apply list_elem_of_omap in Hin as (m & Hm & Hdm).
    destruct m as [| |ty u' rt| |]; try discriminate. simpl in Hdm.
    inversion Hdm; subst. destruct (Hd _ _ _ Hm) as [Hnot _]. done.
Qed.

Lemma no_directive_once_requested_witness :
  "a" ∉ directiveUrls
          (exec (step twoTiersReceived (SendHeaders requestOfA)).1
             [ContentMessage MessageType.CONTENT_SCRIPT_INIT;
              Completed requestOfA]).2.
Proof.
  apply (no_directive_once_requested
           (step twoTiersReceived (SendHeaders requestOfA)).1
           [ContentMessage MessageType.CONTENT_SCRIPT_INIT; Completed requestOfA]
           "a").
  apply (bool_decide_unpack _). vm_compute. exact I.
Defined.

(** X7. Before the browser has navigated to the landing page every
    directive is a prefetch: if the navigation flag is still off after some
    events, all the directives sent during them have the type
    [PREFETCH_RESOURCE], whatever their priority. *)
Theorem prefetch_only_before_navigation (s : t) (events : list event)
    (msgType u resourceType : string) :
  navigatedToDst_ (exec s events).1 = false →
  Message.Prefetch msgType u resourceType ∈ (exec s events).2 →
  msgType = MessageType.PREFETCH_RESOURCE.
Proof.
  revert s. induction events as [|e rest IH]; intros s Hn Hin; simpl in *.
  - by apply elem_of_nil in Hin.
  - pose proof (step_directive s e msgType u resourceType) as Hd.
    pose proof (step_mono s e) as (_ & Hn1 & _).
    destruct (step s e) as [s1 out1]. simpl in *.
    specialize (IH s1). pose proof (exec_mono s1 rest) as (_ & Hn2 & _).
    destruct (exec s1 rest) as [s2 out2]. simpl in *.
    apply elem_of_app in Hin as [Hin|Hin]; [|by apply IH].
    destruct (Hd Hin) as (_ & [Hty|Hty] & Hiff); [|done].
    apply Hiff in Hty as [Hs _].
    rewrite Hn2 in Hn by auto. discriminate.
Qed.

Lemma prefetch_only_before_navigation_witness :
  "prefetch_resource" = MessageType.PREFETCH_RESOURCE.
Proof.
  apply (prefetch_only_before_navigation new
           [Run; hintsReceived threeHints;
            ContentMessage MessageType.CONTENT_SCRIPT_INIT]
           "prefetch_resource" "a" "script").
  - reflexivity.
  - vm_compute. do 4 apply list_elem_of_further. apply list_elem_of_here.
Defined.

(** X8. No capacity is left idle while work is queued: after the turn of a
    completion or of a failure, in a scheduler that has been started,
    either the queue is empty or exactly
    [OUTSTANDING_REQUESTS_ALLOWED] = 7 urls are outstanding. *)
Theorem full_or_drained_after_completion (events : list event) (e : event) :
  reportsCompletion e = true →
  didInit_ (exec new events).1 = true →
  let s' := (step (exec new events).1 e).1 in
  queuedPrefetches_ s' = [] ∨ size (outstandingPrefetchUrls_ s') = 7.
Proof.
  intros He Hdi s'.
  assert (size (outstandingPrefetchUrls_ s') ≤ 7) as Hle.
  { apply step_size, (exec_size new events).
    replace (size (outstandingPrefetchUrls_ new)) with 0
      by (symmetry; apply size_empty).
    unfold OUTSTANDING_REQUESTS_ALLOWED. lia. }
  assert (OUTSTANDING_REQUESTS_ALLOWED ≤ size (outstandingPrefetchUrls_ s') ∨
          queuedPrefetches_ s' = []) as [Hfull|Hempty]; [|right|by left].
  2:{ unfold OUTSTANDING_REQUESTS_ALLOWED in Hfull. lia. }
  unfold s'. destruct e as [|d|d|d|d|ty]; try discriminate; simpl; rewrite Hdi.
  - unfold onFetchSucceed_, onFetchCompleted_.
    set (s0 := set_outstandingPrefetchUrls_ _ _).
    pose proof (handleFetchCompleted_exit s0 (Details.url d)) as Hx.
    destruct (handleFetchCompleted s0 _) as [s1 out].
    by destruct (TimeTracker.completeRequest _ _ _).
  - unfold onErrorOccurred_, onFetchCompleted_.
    set (s0 := set_outstandingPrefetchUrls_ _ _).
    pose proof (handleFetchCompleted_exit s0 (Details.url d)) as Hx.
    destruct (handleFetchCompleted s0 _) as [s1 out].
    by destruct (TimeTracker.completeRequest _ _ _).
Qed.

Lemma full_or_drained_after_completion_witness :
  let events := [Run; hintsReceived eightHints;
                 ContentMessage MessageType.CONTENT_SCRIPT_INIT] in
  let s' := (step (exec new events).1 (completionOf "2" "u3")).1 in
  queuedPrefetches_ s' = [] ∨ size (outstandingPrefetchUrls_ s') = 7.
Proof.
  apply (full_or_drained_after_completion
           [Run; hintsReceived eightHints;
            ContentMessage MessageType.CONTENT_SCRIPT_INIT]
           (completionOf "2" "u3")).
  - reflexivity.
  - reflexivity.
Defined.

Lemma fetchedUrls_quiet out :
  (∀ m, m ∈ out → fetchedUrl m = None) → fetchedUrls out = [].
Proof.
  induction out as [|m out IH]; intros Hq; [done|].
  rewrite fetchedUrls_cons_None by (apply Hq, list_elem_of_here).
  apply IH. intros m' Hm'. by apply Hq, list_elem_of_further.
Qed.

Lemma concat_insert_nil {A} (buckets : list (list A)) k bucket :
  buckets !! k = Some bucket →
  concat buckets ≡ₚ bucket ++ concat (<[k := []]> buckets).
Proof.
  revert k. induction buckets as [|b rest IH]; intros k Hk.
  - by rewrite lookup_nil in Hk.
  - destruct k as [|k]; simpl in *.
    + by inversion Hk.
    + rewrite (IH k Hk). rewrite !app_assoc.
      apply Permutation_app_tail, Permutation_app_comm.
Qed.

Lemma appended_concat (d d' : list (list PrefetchResource.t)) :
  appended d d' → length d' = length d →
  ∃ new, concat d' ≡ₚ concat d ++ new.
Proof.
  revert d'. induction d as [|b d IH]; intros d' Ha Hlen.
  - destruct d'; [|done]. by exists [].
  - destruct d' as [|b' d']; [done|].
    destruct (Ha 0 b eq_refl) as [n0 Hn0]. simpl in Hn0. inversion Hn0; subst.
    destruct (IH d') as [n1 Hn1].
    + intros p bucket Hp. apply (Ha (S p) bucket Hp).
    + simpl in Hlen. lia.
    + exists (n0 ++ n1). simpl. rewrite Hn1, <- !app_assoc.
      apply Permutation_app_head. rewrite !app_assoc.
      apply Permutation_app_tail, Permutation_app_comm.
Qed.

Lemma handleFetchCompleted_conserves s fetchedURL :
  fetchedUrls (handleFetchCompleted s fetchedURL).2
    ++ pendingUrls (handleFetchCompleted s fetchedURL).1
  ≡ₚ pendingUrls s.
Proof.
  unfold pendingUrls.
  destruct (handleFetchCompleted_spec s fetchedURL)
    as [[Hd (fetched & Hq & Hf)]
       |(k & bucket & fetched & _ & Hq & Hb & _ & _ & Hd & _ & Hbucket & Hf)].
  - rewrite Hf, Hd, Hq, <- map_app. by rewrite <- app_assoc.
  - rewrite Hf, Hd, Hq, <- map_app. simpl. apply fmap_Permutation.
    rewrite (concat_insert_nil _ _ _ Hb), Hbucket. by rewrite <- app_assoc.
Qed.

Lemma step_conserves s e :
  ∃ new,
    fetchedUrls (step s e).2 ++ pendingUrls (step s e).1
      ≡ₚ pendingUrls s ++ new ∧
    (receivesHeaders e = false → new = []).
Proof.
  destruct (step_shape s e)
    as [(Hquiet & _ & Hq & _ & _ & Hlen & Ha & Hsame & _)
       |(f & pre & post & _ & Hout & Hquiet & Hd & Hq & _)].
  - rewrite (fetchedUrls_quiet _ Hquiet). simpl. unfold pendingUrls.
    destruct (receivesHeaders e) eqn:He.
    + destruct (appended_concat _ _ Ha Hlen) as [new Hnew].
      exists (map PrefetchResource.url new). split; [|done].
      rewrite Hq, <- map_app. apply fmap_Permutation.
      by rewrite Hnew, app_assoc.
    + exists []. split; [|done]. by rewrite Hq, Hsame, app_nil_r.
  - exists []. split; [|done]. rewrite app_nil_r, Hout, !fetchedUrls_app.
    assert (fetchedUrls pre = [] ∧ fetchedUrls post = []) as [-> ->].
    { split; apply fetchedUrls_quiet; intros m Hm; apply Hquiet, elem_of_app;
        auto. }
    rewrite app_nil_r. simpl.
    pose proof (handleFetchCompleted_conserves
                  (set_outstandingPrefetchUrls_ s
                     (outstandingPrefetchUrls_ s ∖ completedUrls e)) f) as Hc.
    unfold pendingUrls in *. simpl in *. by rewrite Hd, Hq.
Qed.

(** X9. No hint is lost and none is fetched twice: after any events, the
    urls fetched during them together with the urls still waiting in the
    queue and the buckets are, up to order, the urls that were waiting
    before together with the urls that arrived; and when no response
    headers were received during the events, nothing arrived. *)
Theorem hints_conserved (s : t) (events : list event) :
  ∃ new,
    fetchedUrls (exec s events).2 ++ pendingUrls (exec s events).1
      ≡ₚ pendingUrls s ++ new ∧
    (Forall (λ e, receivesHeaders e = false) events → new = []).
Proof.
  revert s. induction events as [|e rest IH]; intros s; simpl.
  - exists []. by rewrite app_nil_r.
  - destruct (step_conserves s e) as (new1 & H1 & Hn1).
    destruct (step s e) as [s1 out1]. simpl in *.
    destruct (IH s1) as (new2 & H2 & Hn2).
    destruct (exec s1 rest) as [s2 out2]. simpl in *.
    exists (new1 ++ new2). split.
    + rewrite fetchedUrls_app, <- app_assoc, H2, app_assoc, H1.
      by rewrite <- app_assoc.
    + intros Hall. inversion Hall; subst. by rewrite Hn1, Hn2.
Qed.

(** X10. The content script starts the fetching once: when the first
    [CONTENT_SCRIPT_INIT] has been handled, every later message of the
    content script, after any events, leaves the scheduler as it is and
    sends nothing. *)
Theorem content_script_init_once (s : t) (events : list event) (type : string) :
  initializedContentScript_ s = true →
  step (exec s events).1 (ContentMessage type) = ((exec s events).1, []).
Proof.
  intros Hi. destruct (exec_mono s events) as (_ & _ & _ & Hic & _).
  specialize (Hic Hi). simpl. destruct (didInit_ _); [|done].
  unfold onContentMessage_. rewrite Hic. simpl. by destruct (String.eqb _ _).
Qed.

Lemma content_script_init_once_witness :
  step (exec sevenOutstanding [completionOf "2" "u1"]).1
    (ContentMessage MessageType.CONTENT_SCRIPT_INIT)
  = ((exec sevenOutstanding [completionOf "2" "u1"]).1, []).
Proof.
  apply (content_script_init_once sevenOutstanding [completionOf "2" "u1"]
           MessageType.CONTENT_SCRIPT_INIT).
  reflexivity.
Defined.

(** A turn that is not a completion, in a scheduler whose content script
    has reported, fetches nothing. *)
Lemma step_no_fetch s e :
  reportsCompletion e = false →
  initializedContentScript_ s = true →
  fetchedUrls (step s e).2 = [] ∧
  outstandingPrefetchUrls_ (step s e).1 = outstandingPrefetchUrls_ s ∧
  queuedPrefetches_ (step s e).1 = queuedPrefetches_ s ∧
  initializedContentScript_ (step s e).1 = true.
Proof.
  intros He Hi. destruct e as [|d|d|d|d|ty]; try discriminate; simpl.
  - unfold run. by destruct (didInit_ s).
  - destruct (didInit_ s); [|done]. unfold onSendHeaders_.
    by destruct (String.eqb _ _).
  - destruct (didInit_ s); [|done]. unfold onHeadersReceived_.
    pose proof (eachResponseHeader_frame s (Details.responseHeaders d))
      as (Ho & Hq & _ & _ & _ & _ & _ & Hic).
    destruct (eachResponseHeader s _) as [s1 c]. simpl in *.
    repeat split; congruence.
  - destruct (didInit_ s); [|done]. unfold onContentMessage_.
    rewrite Hi. simpl. by destruct (String.eqb _ _).
Qed.

(** X11. Only a completion or a failure makes the scheduler fetch once the
    content script has reported: during events that are neither, nothing is
    handed to [fetchDependency], and the queue and the outstanding urls
    stay as they are, whatever hints the received headers bring. *)
Theorem no_fetch_without_completion (s : t) (events : list event) :
  initializedContentScript_ s = true →
  Forall (λ e, reportsCompletion e = false) events →
  fetchedUrls (exec s events).2 = [] ∧
  outstandingPrefetchUrls_ (exec s events).1 = outstandingPrefetchUrls_ s ∧
  queuedPrefetches_ (exec s events).1 = queuedPrefetches_ s.
Proof.
  revert s. induction events as [|e rest IH]; intros s Hi Hall; simpl; [done|].
  inversion Hall as [|? ? He Hrest]; subst.
  destruct (step_no_fetch s e He Hi) as (Hf & Ho & Hq & Hi1).
  destruct (step s e) as [s1 out1]. simpl in *.
  destruct (IH s1 Hi1 Hrest) as (Hf2 & Ho2 & Hq2).
  destruct (exec s1 rest) as [s2 out2]. simpl in *.
  rewrite fetchedUrls_app, Hf, Hf2. repeat split; congruence.
Qed.

Lemma no_fetch_without_completion_witness :
  let s := (exec new [Run; ContentMessage MessageType.CONTENT_SCRIPT_INIT]).1 in
  let events := [hintsReceived threeHints; SendHeaders requestOfA] in
  fetchedUrls (exec s events).2 = [] ∧
  outstandingPrefetchUrls_ (exec s events).1 = outstandingPrefetchUrls_ s ∧
  queuedPrefetches_ (exec s events).1 = queuedPrefetches_ s.
Proof.
  apply (no_fetch_without_completion
           (exec new [Run; ContentMessage MessageType.CONTENT_SCRIPT_INIT]).1
           [hintsReceived threeHints; SendHeaders requestOfA]).
  - reflexivity.
  - repeat constructor.
Defined.

(** X12. The navigation flag goes up in one way only: a turn that finds it
    off and leaves it on is the sending of the headers of a request whose
    url is the landing page url, and that turn sends the navigation
    message; and every such turn, in a scheduler that has been started,
    leaves the flag on. *)
Theorem navigation_by_landing_page_only (s : t) (e : event) :
  (navigatedToDst_ s = false → navigatedToDst_ (step s e).1 = true →
   ∃ details,
     e = SendHeaders details ∧ Details.url details = lpUrl s ∧
     (step s e).2 = [Message.NavigatedToDst (lpUrl s)]) ∧
  (∀ details,
     didInit_ s = true → e = SendHeaders details →
     Details.url details = lpUrl s →
     navigatedToDst_ (step s e).1 = true).
Proof.
  split.
  - intros Hoff Hon.
    destruct (step_shape s e)
      as [_|(f & pre & post & _ & _ & _ & _ & _ & _ & _ & _ & Hn & _)].
    2:{ rewrite Hn in Hon. congruence. }
    destruct e as [|d|d|d|d|ty]; simpl in *.
    + unfold run in Hon. destruct (didInit_ s); simpl in Hon; congruence.
    + destruct (didInit_ s); simpl in *; [|congruence].
      unfold onSendHeaders_ in *. simpl in *.
      destruct (String.eqb_spec (Details.url d) (lpUrl s)) as [Heq|Hne];
        simpl in *; [|congruence].
      by exists d.
    + destruct (didInit_ s); simpl in Hon; [|congruence].
      unfold onHeadersReceived_ in Hon.
      pose proof (eachResponseHeader_frame s (Details.responseHeaders d))
        as (_ & _ & _ & _ & Hn & _).
      destruct (eachResponseHeader s _) as [s1 c]. simpl in *. congruence.
    + destruct (didInit_ s); simpl in Hon; [|congruence].
      unfold onFetchSucceed_, onFetchCompleted_ in Hon.
      set (s0 := set_outstandingPrefetchUrls_ s _) in Hon.
      pose proof (handleFetchCompleted_frame s0 (Details.url d)) as (_ & _ & Hn).
      destruct (handleFetchCompleted s0 _) as [s1 out].
      destruct (TimeTracker.completeRequest _ _ _). simpl in *. congruence.
    + destruct (didInit_ s); simpl in Hon; [|congruence].
      unfold onErrorOccurred_, onFetchCompleted_ in Hon.
      set (s0 := set_outstandingPrefetchUrls_ s _) in Hon.
      pose proof (handleFetchCompleted_frame s0 (Details.url d)) as (_ & _ & Hn).
      destruct (handleFetchCompleted s0 _) as [s1 out].
      destruct (TimeTracker.completeRequest _ _ _). simpl in *. congruence.
    + destruct (didInit_ s); simpl in Hon; [|congruence].
      unfold onContentMessage_ in Hon.
      destruct (String.eqb ty _); simpl in Hon; [|congruence].
      destruct (initializedContentScript_ s); simpl in Hon; [congruence|].
      pose proof (handleFetchCompleted_frame s "INIT") as (_ & _ & Hn).
      destruct (handleFetchCompleted s "INIT"). simpl in *. congruence.
  - intros d Hdi -> Hurl. simpl. rewrite Hdi. unfold onSendHeaders_. simpl.
    rewrite Hurl, String.eqb_refl. done.
Qed.

Lemma completeRequest_keeps tracker id ts :
  TimeTracker.requestTimes_ (TimeTracker.completeRequest tracker id ts).1
    = TimeTracker.requestTimes_ tracker ∧
  TimeTracker.prefetched_ (TimeTracker.completeRequest tracker id ts).1
    = TimeTracker.prefetched_ tracker.
Proof.
  unfold TimeTracker.completeRequest.
  by destruct (TimeTracker.requestTimes_ tracker !! id).
Qed.

(** A turn that is not the sending of the headers of request [id] keeps
    what the tracker knows of the registration of [id]. *)
Lemma step_registration s e id :
  sendsHeadersFor id e = false →
  TimeTracker.requestTimes_ (timeTracker (step s e).1) !! id
    = TimeTracker.requestTimes_ (timeTracker s) !! id ∧
  TimeTracker.prefetched_ (timeTracker (step s e).1) !! id
    = TimeTracker.prefetched_ (timeTracker s) !! id.
Proof.
  intros He. destruct e as [|d|d|d|d|ty]; simpl in *.
  - unfold run. by destruct (didInit_ s).
  - apply bool_decide_eq_false in He.
    destruct (didInit_ s); [|done]. unfold onSendHeaders_.
    destruct (String.eqb _ _); simpl; by rewrite !lookup_insert_ne.
  - destruct (didInit_ s); [|done]. unfold onHeadersReceived_.
    pose proof (eachResponseHeader_timeTracker s (Details.responseHeaders d)) as Ht.
    destruct (eachResponseHeader s _) as [s1 c]. simpl in *. by rewrite Ht.
  - destruct (didInit_ s); [|done]. unfold onFetchSucceed_, onFetchCompleted_.
    set (s0 := set_outstandingPrefetchUrls_ s _).
    pose proof (handleFetchCompleted_frame s0 (Details.url d)) as (Ht & _).
    destruct (handleFetchCompleted s0 _) as [s1 out]. simpl in *.
    pose proof (completeRequest_keeps (timeTracker s1) (Details.requestId d)
                  (Details.timeStamp d)) as [Hr Hp].
    destruct (TimeTracker.completeRequest _ _ _) as [tracker fetchTime].
    simpl in *. by rewrite Hr, Hp, Ht.
  - destruct (didInit_ s); [|done]. unfold onErrorOccurred_, onFetchCompleted_.
    set (s0 := set_outstandingPrefetchUrls_ s _).
    pose proof (handleFetchCompleted_frame s0 (Details.url d)) as (Ht & _).
    destruct (handleFetchCompleted s0 _) as [s1 out]. simpl in *.
    pose proof (completeRequest_keeps (timeTracker s1) (Details.requestId d)
                  (Details.timeStamp d)) as [Hr Hp].
    destruct (TimeTracker.completeRequest _ _ _) as [tracker fetchTime].
    simpl in *. by rewrite Hr, Hp, Ht.
  - destruct (didInit_ s); [|done]. unfold onContentMessage_.
    destruct (String.eqb _ _); [|done].
    destruct (initializedContentScript_ s); [done|]. simpl.
    pose proof (handleFetchCompleted_frame s "INIT") as (Ht & _).
    destruct (handleFetchCompleted s "INIT"). simpl in *. by rewrite Ht.
Qed.

Lemma exec_registration s events id :
  Forall (λ e, sendsHeadersFor id e = false) events →
  TimeTracker.requestTimes_ (timeTracker (exec s events).1) !! id
    = TimeTracker.requestTimes_ (timeTracker s) !! id ∧
  TimeTracker.prefetched_ (timeTracker (exec s events).1) !! id
    = TimeTracker.prefetched_ (timeTracker s) !! id.
Proof.
  revert s. induction events as [|e rest IH]; intros s Hall; simpl; [done|].
  inversion Hall as [|? ? He Hrest]; subst.
  destruct (step_registration s e id He) as [Hr Hp].
  destruct (step s e) as [s1 out1]. simpl in *.
  destruct (IH s1 Hrest) as [Hr2 Hp2].
  destruct (exec s1 rest) as [s2 out2]. simpl in *. split; congruence.
Qed.

(** The timing log that closes the turn of a completion. *)
Lemma onFetchCompleted__log s details :
  let tracker :=
    (TimeTracker.completeRequest (timeTracker s) (Details.requestId details)
       (Details.timeStamp details)) in
  last (onFetchCompleted_ s details).2
    = Some (Message.Log (Details.url details) (Details.requestId details)
              tracker.2
              (TimeTracker.getRequestTime tracker.1 (Details.requestId details))
              (TimeTracker.getCompleteTime tracker.1 (Details.requestId details))
              (TimeTracker.isPrefetchRequest tracker.1 (Details.requestId details))).
Proof.
  unfold onFetchCompleted_.
  set (s0 := set_outstandingPrefetchUrls_ s _).
  pose proof (handleFetchCompleted_frame s0 (Details.url details)) as (Ht & _).
  destruct (handleFetchCompleted s0 _) as [s1 out]. simpl in *. rewrite Ht.
  destruct (TimeTracker.completeRequest _ _ _) as [tracker fetchTime]. simpl.
  replace (out ++ [Message.Debug;
                   Message.Log (Details.url details) (Details.requestId details)
                     fetchTime
                     (TimeTracker.getRequestTime tracker (Details.requestId details))
                     (TimeTracker.getCompleteTime tracker (Details.requestId details))
                     (TimeTracker.isPrefetchRequest tracker (Details.requestId details))])
    with ((out ++ [Message.Debug]) ++
          [Message.Log (Details.url details) (Details.requestId details)
             fetchTime
             (TimeTracker.getRequestTime tracker (Details.requestId details))
             (TimeTracker.getCompleteTime tracker (Details.requestId details))
             (TimeTracker.isPrefetchRequest tracker (Details.requestId details))])
    by (by rewrite <- app_assoc).
  apply last_snoc.
Qed.

Lemma last_cons_snoc {A} (x : A) (l : list A) (y : A) :
  last l = Some y → last (x :: l) = Some y.
Proof. destruct l; [done|]. done. Qed.

(** X13. The timing log of a request, from end to end. When the headers of
    a request are sent at [t0] and, after any events that do not send the
    headers of the same request again, the request completes or fails at
    [t1], the last message of that turn is the timing log of the request:
    its fetch time is [t1 - t0], the binary64 difference of the two
    numbers, its timestamps are [t0] and [t1], and it says 'yes' exactly
    when the request headers held a [Purpose: prefetch] pair, in any case
    of the letters. *)
Theorem timing_log_of_request (s : t) (sent done : Details.t)
    (events : list event) (e : event) :
  didInit_ s = true →
  Details.requestId done = Details.requestId sent →
  Forall (λ e, sendsHeadersFor (Details.requestId sent) e = false) events →
  e = Completed done ∨ e = ErrorOccurred done →
  let s1 := (step s (SendHeaders sent)).1 in
  let s2 := (exec s1 events).1 in
  last (step s2 e).2
    = Some (Message.Log (Details.url done) (Details.requestId sent)
              (Details.timeStamp done - Details.timeStamp sent)
              (Details.timeStamp sent) (Details.timeStamp done)
              (if isPrefetchRequest_ (Details.requestHeaders sent)
               then PrefetchStatus.YES else PrefetchStatus.NO)).
Proof.
  intros Hdi Hid Hall He s1 s2.
  assert (didInit_ s2 = true) as Hdi2.
  { unfold s2. apply exec_mono. unfold s1. by apply step_mono. }
  assert (TimeTracker.requestTimes_ (timeTracker s2) !! Details.requestId sent
            = Some (Details.timeStamp sent) ∧
          TimeTracker.prefetched_ (timeTracker s2) !! Details.requestId sent
            = Some (isPrefetchRequest_ (Details.requestHeaders sent)))
    as [Hr Hp].
  { unfold s2. destruct (exec_registration s1 events _ Hall) as [-> ->].
    unfold s1. simpl. rewrite Hdi. unfold onSendHeaders_.
    destruct (String.eqb _ _); simpl; by rewrite !lookup_insert_eq. }
  assert (last (onFetchCompleted_ s2 done).2
          = Some (Message.Log (Details.url done) (Details.requestId sent)
              (Details.timeStamp done - Details.timeStamp sent)
              (Details.timeStamp sent) (Details.timeStamp done)
              (if isPrefetchRequest_ (Details.requestHeaders sent)
               then PrefetchStatus.YES else PrefetchStatus.NO))) as Hlast.
  { rewrite onFetchCompleted__log. rewrite Hid.
    unfold TimeTracker.completeRequest, TimeTracker.getRequestTime,
      TimeTracker.getCompleteTime, TimeTracker.isPrefetchRequest.
    rewrite Hr. simpl. rewrite Hr, Hp, lookup_insert_eq. done. }
  destruct He as [-> | ->]; simpl; rewrite Hdi2.
  - unfold onFetchSucceed_. destruct (onFetchCompleted_ s2 done).
    by apply last_cons_snoc.
  - unfold onErrorOccurred_. destruct (onFetchCompleted_ s2 done).
    by apply last_cons_snoc.
Qed.

Lemma timing_log_of_request_witness :
  let sent := Details.mk "7" 100.25 "http://lp/app.js"
                [HttpHeader.mk "Purpose" "Prefetch"] [] in
  let done := Details.mk "7" 130.5 "http://lp/app.js" [] [] in
  let s1 := (step twoTiersReceived (SendHeaders sent)).1 in
  let s2 := (exec s1 [SendHeaders requestOfA]).1 in
  last (step s2 (Completed done)).2
    = Some (Message.Log "http://lp/app.js" "7" 30.25 100.25 130.5
              (if isPrefetchRequest_ [HttpHeader.mk "Purpose" "Prefetch"]
               then PrefetchStatus.YES else PrefetchStatus.NO)).
Proof.
  apply (timing_log_of_request twoTiersReceived
           (Details.mk "7" 100.25 "http://lp/app.js"
              [HttpHeader.mk "Purpose" "Prefetch"] [])
           (Details.mk "7" 130.5 "http://lp/app.js" [] [])
           [SendHeaders requestOfA]
           (Completed (Details.mk "7" 130.5 "http://lp/app.js" [] []))).
  - reflexivity.
  - reflexivity.
  - repeat constructor.
  - by left.
Defined.

(** X14. A completion that the scheduler knows nothing of degrades to the
    sentinels: when no event since the construction has sent the headers of
    request [id], the turn of its completion or failure ends with a timing
    log that holds -1 for the fetch time and for both timestamps, and
    'unknown'; the tracker is not changed by it. *)
Theorem timing_log_of_unknown_request (events : list event) (done : Details.t)
    (e : event) :
  didInit_ (exec new events).1 = true →
  Forall (λ e, sendsHeadersFor (Details.requestId done) e = false) events →
  e = Completed done ∨ e = ErrorOccurred done →
  let s := (exec new events).1 in
  last (step s e).2
    = Some (Message.Log (Details.url done) (Details.requestId done)
              (-1) (-1) (-1) PrefetchStatus.UNKNOWN) ∧
  timeTracker (step s e).1 = timeTracker s.
Proof.
  intros Hdi Hall He. cbv zeta.
  destruct (exec_registration new events _ Hall) as [Hr _].
  simpl in Hr. rewrite lookup_empty in Hr.
  pose proof (scheduler_tracker_sameKeys events) as Hk.
  set (s := (exec new events).1) in *.
  assert (TimeTracker.completeTimes_ (timeTracker s) !! Details.requestId done
            = None) as Hc.
  { destruct (sameKeys_has _ (Details.requestId done) Hk) as [Hrc _].
    destruct (TimeTracker.completeTimes_ (timeTracker s) !! _) eqn:E; [|done].
    assert (is_Some (TimeTracker.requestTimes_ (timeTracker s)
                       !! Details.requestId done)) as [? Hs]
      by (apply Hrc; eauto).
    congruence. }
  assert (last (onFetchCompleted_ s done).2
          = Some (Message.Log (Details.url done) (Details.requestId done)
                    (-1) (-1) (-1) PrefetchStatus.UNKNOWN) ∧
          timeTracker (onFetchCompleted_ s done).1 = timeTracker s)
    as [Hlast Htr].
  { split.
    - rewrite onFetchCompleted__log.
      unfold TimeTracker.completeRequest, TimeTracker.getRequestTime,
        TimeTracker.getCompleteTime, TimeTracker.isPrefetchRequest.
      rewrite Hr. simpl. by rewrite Hr, Hc.
    - unfold onFetchCompleted_.
      set (s0 := set_outstandingPrefetchUrls_ s _).
      pose proof (handleFetchCompleted_frame s0 (Details.url done)) as (Ht & _).
      destruct (handleFetchCompleted s0 _) as [s1 out]. simpl in *.
      unfold TimeTracker.completeRequest. rewrite Ht. simpl. rewrite Hr.
      simpl. done. }
  destruct He as [-> | ->]; simpl; rewrite Hdi.
  - unfold onFetchSucceed_. destruct (onFetchCompleted_ s done).
    split; [by apply last_cons_snoc|done].
  - unfold onErrorOccurred_. destruct (onFetchCompleted_ s done).
    split; [by apply last_cons_snoc|done].
Qed.

Lemma timing_log_of_unknown_request_witness :
  let done := Details.mk "9" 130 "http://lp/other.js" [] [] in
  let s := (exec new [Run; SendHeaders requestOfA]).1 in
  last (step s (ErrorOccurred done)).2
    = Some (Message.Log "http://lp/other.js" "9" (-1) (-1) (-1)
              PrefetchStatus.UNKNOWN) ∧
  timeTracker (step s (ErrorOccurred done)).1 = timeTracker s.
Proof.
  apply (timing_log_of_unknown_request [Run; SendHeaders requestOfA]
           (Details.mk "9" 130 "http://lp/other.js" [] [])
           (ErrorOccurred (Details.mk "9" 130 "http://lp/other.js" [] []))).
  - reflexivity.
  - repeat constructor.
  - by right.
Defined.

Lemma handleFetchCompleted_priorityInRange s fetchedURL :
  priorityInRange s → priorityInRange (handleFetchCompleted s fetchedURL).1.
Proof.
  intros [Hrange Hidle]. unfold handleFetchCompleted.
  case_decide; simpl; [done|].
  destruct (enqueueNext_spec s)
    as [Hsame|(k & bucket & _ & _ & Hb & _ & _ & Hs1)].
  - rewrite Hsame.
    destruct (decide (curFetchPriority_ s = (-1)%Z)) as [Hcur|Hcur].
    + destruct (Hidle Hcur) as [Hq _]. rewrite Hq. simpl. done.
    + pose proof (fetchQueued_frame s (queuedPrefetches_ s)) as (_ & _ & _ & Hc).
      pose proof (fetchQueued_frame_more s (queuedPrefetches_ s)) as (_ & _ & _ & Hd).
      destruct (fetchQueued s _) as [s2 out]. simpl in *.
      split; [by rewrite Hc, Hd|]. intros. congruence.
  - rewrite Hs1. set (s1 := set_curFetchPriority_ _ _).
    pose proof (fetchQueued_frame s1 (queuedPrefetches_ s1)) as (_ & _ & _ & Hc).
    pose proof (fetchQueued_frame_more s1 (queuedPrefetches_ s1)) as (_ & _ & _ & Hd).
    destruct (fetchQueued s1 _) as [s2 out]. simpl in *.
    apply lookup_lt_Some in Hb.
    split; [rewrite Hc, Hd, length_insert; lia|]. intros. lia.
Qed.

Lemma step_priorityInRange s e :
  priorityInRange s → priorityInRange (step s e).1.
Proof.
  intros [Hrange Hidle].
  destruct (step_shape s e)
    as [(_ & Ho & Hq & Hc & _ & Hlen & _)
       |(f & pre & post & _ & _ & _ & Hd & Hq & Hc & Ho & _)].
  - split; [by rewrite Hc, Hlen|]. rewrite Hc, Hq, Ho. done.
  - pose proof (handleFetchCompleted_priorityInRange
                  (set_outstandingPrefetchUrls_ s
                     (outstandingPrefetchUrls_ s ∖ completedUrls e)) f)
      as [Hrange1 Hidle1].
    { split; [done|]. simpl. intros Hcur. destruct (Hidle Hcur) as [-> ->].
      split; [done|]. apply empty_difference_L. }
    split; [by rewrite Hc, Hd|]. rewrite Hc, Hq, Ho. done.
Qed.

(** X15. The current priority is always -1 or the index of one of the 100
    buckets, and it stays -1 only as long as nothing has been queued:
    whatever events the scheduler has been through, there are 100 buckets,
    the current priority is between -1 and 99, and when it is -1 the queue
    is empty and no url is outstanding. *)
Theorem priority_in_range (events : list event) :
  let s := (exec new events).1 in
  length (dependencies_ s) = 100 ∧
  (-1 ≤ curFetchPriority_ s ≤ 99)%Z ∧
  (curFetchPriority_ s = (-1)%Z →
   queuedPrefetches_ s = [] ∧ outstandingPrefetchUrls_ s = ∅).
Proof.
  intros s.
  assert (length (dependencies_ s) = 100) as Hlen.
  { unfold s. destruct (exec_mono new events) as (_ & _ & _ & _ & ->). done. }
  assert (∀ s0, priorityInRange s0 → priorityInRange (exec s0 events).1) as H.
  { clear. induction events as [|e rest IH]; intros s0 H0; simpl; [done|].
    pose proof (step_priorityInRange s0 e H0) as H1.
    destruct (step s0 e) as [s1 out1]. specialize (IH s1 H1).
    by destruct (exec s1 rest). }
  assert (priorityInRange s) as [Hrange Hidle].
  { apply H. split; [simpl; lia|done]. }
  rewrite Hlen in Hrange. repeat split; try lia. all: by apply Hidle.
Qed.

End AlongRuns.

(** ** The hints of the proxy, parsed *)

Section ProxyHints.
Import NumericPriorityScheduler History Prefetchlib.

Lemma app_cons_s x (a b : string) : String x a +:+ b = String x (a +:+ b).
Proof. reflexivity. Qed.

Lemma app_nil_s (b : string) : "" +:+ b = b.
Proof. reflexivity. Qed.

Local Ltac sapp := rewrite ?app_cons_s, ?app_nil_s.

Lemma prefix_nil (b : string) : String.prefix "" b = true.
Proof. by destruct b. Qed.

Lemma append_assoc_s (a b c : string) : (a +:+ b) +:+ c = a +:+ b +:+ c.
Proof. induction a as [|x a IH]; sapp; [done|]. by f_equal. Qed.

Lemma append_empty_r (a : string) : a +:+ "" = a.
Proof. induction a as [|x a IH]; sapp; [done|]. by f_equal. Qed.

Lemma hasChar_app c a b :
  hasChar c (a +:+ b) = hasChar c a || hasChar c b.
Proof.
  induction a as [|x a IH]; sapp; simpl; [done|]. rewrite IH.
  by rewrite orb_assoc.
Qed.

(** Splitting at a character. *)
Lemma splitFrom_char_none c cur a :
  hasChar c a = false →
  JS.splitFrom (String c "") 0 cur a = [cur +:+ a].
Proof.
  revert cur. induction a as [|x a IH]; intros cur Ha; simpl.
  - by rewrite append_empty_r.
  - simpl in Ha. apply orb_false_iff in Ha as [Hx Ha].
    apply Ascii.eqb_neq in Hx.
    destruct (ascii_dec c x) as [->|_]; [done|].
    rewrite IH by done. by rewrite append_assoc_s.
Qed.

Lemma splitFrom_char_app c cur a b :
  hasChar c a = false →
  JS.splitFrom (String c "") 0 cur (a +:+ String c b)
    = (cur +:+ a) :: JS.splitFrom (String c "") 0 "" b.
Proof.
  revert cur. induction a as [|x a IH]; intros cur Ha; sapp; simpl.
  - destruct (ascii_dec c c); [|done]. by rewrite prefix_nil, append_empty_r.
  - simpl in Ha. apply orb_false_iff in Ha as [Hx Ha].
    apply Ascii.eqb_neq in Hx.
    destruct (ascii_dec c x) as [->|_]; [done|].
    rewrite IH by done. by rewrite append_assoc_s.
Qed.

(** Splitting at the delimiter, for pieces without [|]. *)
Lemma prefix_delim_other x r :
  x ≠ "|"%char → String.prefix DELIMETER (String x r) = false.
Proof.
  intros Hx. unfold DELIMETER. cbn [String.prefix].
  destruct (ascii_dec "|" x) as [Heq|_]; [|done]. by subst.
Qed.

Lemma prefix_delim_here b : String.prefix DELIMETER (delim +:+ b) = true.
Proof.
  unfold DELIMETER, delim. sapp. cbn [String.prefix].
  repeat match goal with
         | |- context [ascii_dec ?a ?a] => destruct (ascii_dec a a); [|done]
         end.
  apply prefix_nil.
Qed.

Lemma splitFrom_delim_none cur a :
  hasChar "|" a = false →
  JS.splitFrom DELIMETER 0 cur a = [cur +:+ a].
Proof.
  revert cur. induction a as [|x a IH]; intros cur Ha.
  - simpl. by rewrite append_empty_r.
  - simpl in Ha. apply orb_false_iff in Ha as [Hx Ha].
    apply Ascii.eqb_neq in Hx. cbn [JS.splitFrom].
    rewrite prefix_delim_other by done.
    rewrite IH by done. by rewrite append_assoc_s.
Qed.

Lemma splitFrom_delim_app cur a b :
  hasChar "|" a = false →
  JS.splitFrom DELIMETER 0 cur (a +:+ delim +:+ b)
    = (cur +:+ a) :: JS.splitFrom DELIMETER 0 "" b.
Proof.
  revert cur. induction a as [|x a IH]; intros cur Ha.
  - sapp. pose proof (prefix_delim_here b) as Hp. revert Hp.
    unfold delim at 1 2. sapp. intros Hp. cbn [JS.splitFrom]. rewrite Hp.
    rewrite append_empty_r. f_equal.
  - simpl in Ha. apply orb_false_iff in Ha as [Hx Ha].
    apply Ascii.eqb_neq in Hx. sapp. cbn [JS.splitFrom].
    rewrite prefix_delim_other by done.
    rewrite IH by done. by rewrite append_assoc_s.
Qed.

Lemma split_join (entries : list string) (e : string) :
  Forall (λ e, hasChar "|" e = false) (e :: entries) →
  JS.split (join (e :: entries) delim) DELIMETER = e :: entries.
Proof.
  revert e. induction entries as [|e' rest IH]; intros e Hall.
  - inversion Hall; subst. simpl. unfold JS.split.
    by rewrite splitFrom_delim_none.
  - inversion Hall as [|? ? He Hrest]; subst.
    change (join (e :: e' :: rest) delim)
      with (e +:+ delim +:+ join (e' :: rest) delim).
    unfold JS.split. rewrite splitFrom_delim_app by done.
    f_equal. apply (IH e' Hrest).
Qed.

(** The decimal digits that [formatInt] prints. *)
Lemma uint_hasChar c d :
  JS.isDigit c = false → hasChar c (NilEmpty.string_of_uint d) = false.
Proof.
  intros Hc. induction d as [|d IH|d IH|d IH|d IH|d IH|d IH|d IH|d IH|d IH|d IH];
    cbn [NilEmpty.string_of_uint hasChar]; [done|..];
    rewrite IH, orb_false_r; apply Ascii.eqb_neq; intros <-;
    by vm_compute in Hc.
Qed.

Lemma formatInt_hasChar c n :
  JS.isDigit c = false → c ≠ "-"%char → hasChar c (formatInt n) = false.
Proof.
  intros Hc Hm. unfold formatInt.
  assert (∀ d, hasChar c (NilZero.string_of_uint d) = false) as Hu.
  { intros d. destruct d; try apply (uint_hasChar c _ Hc).
    cbn [NilZero.string_of_uint hasChar].
    rewrite orb_false_r. apply Ascii.eqb_neq. intros <-.
    by vm_compute in Hc. }
  destruct (Z.to_int n) as [d|d]; cbn [NilZero.string_of_int hasChar];
    [apply Hu|].
  rewrite Hu, orb_false_r. apply Ascii.eqb_neq. congruence.
Qed.

Lemma whiteSpace_other c :
  JS.isWhiteSpace c = true → JS.isDigit c = false ∧ c ≠ "-"%char.
Proof.
  intros Hw. split.
  - unfold JS.isWhiteSpace, JS.isDigit in *.
    destruct (Nat.leb_spec 48 (nat_of_ascii c)); [|done].
    destruct (Nat.leb_spec 9 (nat_of_ascii c)),
             (Nat.leb_spec (nat_of_ascii c) 13),
             (Nat.eqb_spec (nat_of_ascii c) 32),
             (Nat.eqb_spec (nat_of_ascii c) 160),
             (Nat.leb_spec (nat_of_ascii c) 57); simpl in *; try done; lia.
  - intros ->. by vm_compute in Hw.
Qed.

Lemma trim_noWhite (s : string) :
  (∀ c, JS.isWhiteSpace c = true → hasChar c s = false) → JS.trim s = s.
Proof.
  intros Hs. unfold JS.trim.
  assert (JS.trimStart s = s) as ->.
  { destruct s as [|x r]; [done|]. simpl.
    destruct (JS.isWhiteSpace x) eqn:Hx; [|done].
    specialize (Hs x Hx). simpl in Hs. by rewrite Ascii.eqb_refl in Hs. }
  induction s as [|x r IH]; [done|]. simpl.
  rewrite IH.
  - destruct r; [|done].
    destruct (JS.isWhiteSpace x) eqn:Hx; [|done].
    specialize (Hs x Hx). simpl in Hs. by rewrite Ascii.eqb_refl in Hs.
  - intros c Hc. specialize (Hs c Hc). simpl in Hs.
    by apply orb_false_iff in Hs as [_ ?].
Qed.

Lemma trim_formatInt n : JS.trim (formatInt n) = formatInt n.
Proof.
  apply trim_noWhite. intros c Hc.
  destruct (whiteSpace_other c Hc). by apply formatInt_hasChar.
Qed.

(** [parseInt] reads back what [formatInt] prints. *)
Lemma digits_acc d acc :
  fold_left (λ acc d, acc * 10 + d)%Z
    (JS.digitsPrefix (NilEmpty.string_of_uint d)) (Z.pos acc)
  = Z.pos (Pos.of_uint_acc d acc).
Proof.
  revert acc.
  induction d as [|d IH|d IH|d IH|d IH|d IH|d IH|d IH|d IH|d IH|d IH];
    intros acc; [done|..];
    cbn [NilEmpty.string_of_uint JS.digitsPrefix Pos.of_uint_acc];
    match goal with
    | |- context [JS.isDigit ?c] =>
        replace (JS.isDigit c) with true by (by vm_compute)
    end;
    cbn [fold_left]; rewrite <- IH; f_equal; vm_compute nat_of_ascii; lia.
Qed.

Lemma digits_of_uint d :
  fold_left (λ acc d, acc * 10 + d)%Z
    (JS.digitsPrefix (NilEmpty.string_of_uint d)) 0%Z
  = Z.of_uint d.
Proof.
  unfold Z.of_uint.
  induction d as [|d IH|d IH|d IH|d IH|d IH|d IH|d IH|d IH|d IH|d IH];
    [done|..];
    cbn [NilEmpty.string_of_uint JS.digitsPrefix Pos.of_uint];
    match goal with
    | |- context [JS.isDigit ?c] =>
        replace (JS.isDigit c) with true by (by vm_compute)
    end;
    cbn [fold_left];
    [rewrite <- IH; f_equal; vm_compute nat_of_ascii; lia|..];
    cbn [Z.of_N]; rewrite <- digits_acc; f_equal.
Qed.

Lemma digits_nonempty d :
  d ≠ Decimal.Nil → JS.digitsPrefix (NilEmpty.string_of_uint d) ≠ [].
Proof.
  destruct d; [done|..]; intros _;
    cbn [NilEmpty.string_of_uint JS.digitsPrefix];
    match goal with
    | |- context [JS.isDigit ?c] =>
        replace (JS.isDigit c) with true by (by vm_compute)
    end; done.
Qed.

Lemma parseInt_uint d :
  d ≠ Decimal.Nil →
  JS.parseInt (NilEmpty.string_of_uint d) = Some (Z.of_uint d) ∧
  JS.parseInt (String "-" (NilEmpty.string_of_uint d)) = Some (- Z.of_uint d)%Z.
Proof.
  intros Hd. pose proof (digits_nonempty d Hd) as Hne.
  pose proof (digits_of_uint d) as Hfold.
  assert (JS.parseInt (String "-" (NilEmpty.string_of_uint d))
          = Some (- Z.of_uint d)%Z) as Hneg.
  { unfold JS.parseInt. cbn [JS.trimStart].
    replace (JS.isWhiteSpace "-") with false by (by vm_compute).
    cbv beta iota.
    destruct (JS.digitsPrefix (NilEmpty.string_of_uint d)); [done|].
    rewrite Hfold. f_equal; lia. }
  split; [|done]. clear Hneg.
  destruct d; [done|..]; unfold JS.parseInt;
    cbn [NilEmpty.string_of_uint JS.trimStart] in *;
    match goal with
    | |- context [JS.isWhiteSpace ?c] =>
        replace (JS.isWhiteSpace c) with false by (by vm_compute)
    end;
    cbv beta iota;
    match goal with
    | |- context [JS.digitsPrefix ?x] => destruct (JS.digitsPrefix x)
    end; try done; rewrite Hfold; f_equal; lia.
Qed.

Lemma parseInt_formatInt n : JS.parseInt (formatInt n) = Some n.
Proof.
  unfold formatInt. pose proof (DecimalZ.of_to n) as Hn.
  destruct n as [|p|p]; [by vm_compute|..]; simpl in *;
    pose proof (Unsigned.to_uint_nonnil p) as Hp;
    destruct (parseInt_uint _ Hp) as [Hpos Hneg].
  - unfold NilZero.string_of_uint. destruct (Pos.to_uint p); [done|..];
      by rewrite Hpos, Hn.
  - unfold NilZero.string_of_uint. destruct (Pos.to_uint p); [done|..];
      by rewrite Hneg, Hn.
Qed.

Lemma length_append_s (a b : string) :
  String.length (a +:+ b) = String.length a + String.length b.
Proof. induction a as [|x a IH]; sapp; simpl; [done|]. by rewrite IH. Qed.

Lemma substring_prefix_s (a b : string) :
  String.substring 0 (String.length a) (a +:+ b) = a.
Proof.
  induction a as [|x a IH]; sapp; simpl; [by destruct b|]. by rewrite IH.
Qed.

Lemma trimEnd_last a c :
  JS.isWhiteSpace c = false →
  JS.trimEnd (a +:+ String c "") = a +:+ String c "".
Proof.
  intros Hc. induction a as [|x a IH]; sapp; simpl.
  - by rewrite Hc.
  - rewrite IH. destruct a; sapp; done.
Qed.

(** The url between its angle brackets, trimmed and cut out. *)
Lemma bracketed_url url :
  let trimmedUrl := JS.trim ("<" +:+ url +:+ ">") in
  JS.substring trimmedUrl 1 (Z.of_nat (String.length trimmedUrl) - 1) = url.
Proof.
  cbv zeta. unfold JS.trim.
  assert (JS.trimStart ("<" +:+ url +:+ ">") = "<" +:+ url +:+ ">") as ->.
  { sapp. cbn [JS.trimStart].
    by replace (JS.isWhiteSpace "<") with false by (by vm_compute). }
  replace ("<" +:+ url +:+ ">") with (("<" +:+ url) +:+ ">")
    by apply append_assoc_s.
  rewrite trimEnd_last by (by vm_compute).
  unfold JS.substring. rewrite length_append_s. sapp.
  cbn [String.length].
  set (n := String.length url).
  replace (Z.min (Z.max 1 0) (Z.of_nat (S n + 1))) with 1%Z by lia.
  replace (Z.min (Z.max (Z.of_nat (S n + 1) - 1) 0) (Z.of_nat (S n + 1)))
    with (Z.of_nat n + 1)%Z by lia.
  replace (Z.min 1 (Z.of_nat n + 1)) with 1%Z by lia.
  replace (Z.max 1 (Z.of_nat n + 1)) with (Z.of_nat n + 1)%Z by lia.
  replace (Z.to_nat 1) with 1 by done.
  replace (Z.to_nat (Z.of_nat n + 1 - 1)) with n by lia.
  cbn [String.substring]. apply substring_prefix_s.
Qed.

Lemma split_generated resource :
  hasChar ";" (URL resource) = false →
  JS.split (generatePrefetchHeaderString resource) ";"
    = ["<" +:+ URL resource +:+ ">";
       " priority=" +:+ formatInt (Priority resource);
       " type=" +:+ formatInt (Type_ resource)].
Proof.
  intros Hurl. unfold generatePrefetchHeaderString.
  set (P := formatInt (Priority resource)).
  set (T := formatInt (Type_ resource)).
  assert (hasChar ";" P = false ∧ hasChar ";" T = false) as [HP HT]
    by (split; by apply formatInt_hasChar).
  replace ("<" +:+ URL resource +:+ ">; priority=" +:+ P +:+ "; type=" +:+ T)
    with (("<" +:+ URL resource +:+ ">")
            +:+ String ";" ((" priority=" +:+ P) +:+ String ";" (" type=" +:+ T))).
  2:{ rewrite ?append_assoc_s. sapp. rewrite ?append_assoc_s. sapp. done. }
  unfold JS.split.
  rewrite splitFrom_char_app.
  2:{ sapp. cbn [hasChar]. rewrite hasChar_app, Hurl. by vm_compute. }
  rewrite splitFrom_char_app.
  2:{ rewrite hasChar_app, HP. by vm_compute. }
  rewrite splitFrom_char_none.
  2:{ rewrite hasChar_app, HT. by vm_compute. }
  by sapp.
Qed.

Lemma split_field key n :
  hasChar "=" key = false →
  JS.split (key +:+ String "=" (formatInt n)) "=" = [key; formatInt n].
Proof.
  intros Hkey. unfold JS.split.
  rewrite splitFrom_char_app by done.
  rewrite splitFrom_char_none by (by apply formatInt_hasChar).
  by sapp.
Qed.

Lemma store_length dependencies resource :
  length (store dependencies resource) = length dependencies.
Proof. apply length_alter. Qed.

(** One hint of the proxy, parsed. *)
Lemma parseElement_generated dependencies resource :
  hasChar ";" (URL resource) = false →
  length dependencies = 100 →
  parseElement dependencies (generatePrefetchHeaderString resource)
    = if (0 <=? Priority resource)%Z
      then Some (store dependencies resource) else None.
Proof.
  intros Hurl Hlen. unfold parseElement.
  rewrite (split_generated _ Hurl).
  cbn [lookup list_lookup default from_option mbind option_bind].
  replace (" priority=" +:+ formatInt (Priority resource))
    with (" priority" +:+ String "=" (formatInt (Priority resource)))
    by (by rewrite ?append_assoc_s; sapp).
  replace (" type=" +:+ formatInt (Type_ resource))
    with (" type" +:+ String "=" (formatInt (Type_ resource)))
    by (by rewrite ?append_assoc_s; sapp).
  rewrite !split_field by (by vm_compute).
  cbn [lookup list_lookup default from_option mbind option_bind].
  unfold id. rewrite !trim_formatInt, parseInt_formatInt, bracketed_url.
  unfold JS.Math_min, JS.index. cbn [fmap option_fmap option_map].
  unfold NUM_PRIORITIES.
  destruct (Z.leb_spec 0 (Priority resource)) as [Hp|Hp].
  - rewrite (proj2 (Z.leb_le 0 _)) by lia.
    destruct (lookup_lt_is_Some_2 dependencies
                (Z.to_nat (Z.min (Priority resource) (100 - 1)))) as [b ->];
      [lia|].
    done.
  - by rewrite (proj2 (Z.leb_gt 0 _)) by lia.
Qed.

(** X16. What the proxy prints for a resource, the scheduler reads back:
    for a resource whose url holds no [;], the element made by
    [generatePrefetchHeaderString] is parsed, when the priority is not
    negative, into the resource with that url and with the decimal digits of
    the type, at the end of the bucket of the priority, or of bucket 99 for a
    priority above 99, all the other buckets staying as they are; and when
    the priority is negative the element makes the parser raise. *)
Theorem proxy_hint_read_back (dependencies : list (list PrefetchResource.t))
    (resource : Resource) :
  hasChar ";" (URL resource) = false →
  length dependencies = 100 →
  ((0 ≤ Priority resource)%Z →
   parseElement dependencies (generatePrefetchHeaderString resource)
     = Some (alter
               (λ bucket,
                  bucket ++ [PrefetchResource.mk (URL resource)
                               (formatInt (Type_ resource))])
               (Z.to_nat (Z.min (Priority resource) 99)) dependencies)) ∧
  ((Priority resource < 0)%Z →
   parseElement dependencies (generatePrefetchHeaderString resource) = None).
Proof.
  intros Hurl Hlen. rewrite parseElement_generated by done. split; intros Hp.
  - by rewrite (proj2 (Z.leb_le 0 _)) by lia.
  - by rewrite (proj2 (Z.leb_gt 0 _)) by lia.
Qed.

Lemma proxy_hint_read_back_witness :
  let resource := mkResource "http://lp/a.js?x=1&y=<2>" 3 150 in
  ((0 ≤ 150)%Z →
   parseElement (dependencies_ new) (generatePrefetchHeaderString resource)
     = Some (alter
               (λ bucket,
                  bucket ++ [PrefetchResource.mk "http://lp/a.js?x=1&y=<2>"
                               (formatInt 3)])
               (Z.to_nat (Z.min 150 99)) (dependencies_ new))) ∧
  ((150 < 0)%Z →
   parseElement (dependencies_ new) (generatePrefetchHeaderString resource)
     = None).
Proof.
  apply (proxy_hint_read_back (dependencies_ new)
           (mkResource "http://lp/a.js?x=1&y=<2>" 3 150)).
  - reflexivity.
  - reflexivity.
Defined.

Lemma generated_no_bar resource :
  hasChar "|" (URL resource) = false →
  hasChar "|" (generatePrefetchHeaderString resource) = false.
Proof.
  intros Hurl. unfold generatePrefetchHeaderString.
  rewrite !hasChar_app, Hurl.
  rewrite !formatInt_hasChar by (by vm_compute). by vm_compute.
Qed.

Lemma parseElements_generated dependencies resources :
  Forall clean resources →
  length dependencies = 100 →
  parseElements dependencies (map generatePrefetchHeaderString resources)
    = (fold_left store resources dependencies, Normal).
Proof.
  revert dependencies.
  induction resources as [|r rest IH]; intros dependencies Hall Hlen; [done|].
  inversion Hall as [|? ? (Hsemi & _ & Hp) Hrest]; subst.
  cbn [map parseElements fold_left].
  rewrite parseElement_generated by done.
  rewrite (proj2 (Z.leb_le 0 _)) by lia.
  apply IH; [done|]. by rewrite store_length.
Qed.

(** X17. A whole header of the proxy, read back: for a list of resources
    that is not empty, whose urls hold neither [;] nor [|] and whose
    priorities are not negative, [parsePrefetchURLs] on the header value
    that the proxy sends returns without a raise and has put each resource,
    in the order of the list, at the end of its bucket. For the empty list
    the proxy sends the empty value, and on it the parser raises. *)
Theorem proxy_header_read_back (dependencies : list (list PrefetchResource.t))
    (resource : Resource) (resources : list Resource) :
  Forall clean (resource :: resources) →
  length dependencies = 100 →
  parsePrefetchURLs dependencies (prefetchHeaderValue (resource :: resources))
    = (fold_left store (resource :: resources) dependencies, Normal) ∧
  parsePrefetchURLs dependencies (prefetchHeaderValue [])
    = (dependencies, Throw).
Proof.
  intros Hall Hlen. split; [|done].
  unfold parsePrefetchURLs, prefetchHeaderValue.
  change (map generatePrefetchHeaderString (resource :: resources))
    with (generatePrefetchHeaderString resource
            :: map generatePrefetchHeaderString resources).
  rewrite split_join.
  - apply (parseElements_generated dependencies (resource :: resources));
      done.
  - change (Forall (λ e, hasChar "|" e = false)
              (map generatePrefetchHeaderString (resource :: resources))).
    apply Forall_fmap. eapply Forall_impl; [exact Hall|].
    intros r (_ & Hbar & _). by apply generated_no_bar.
Qed.

Lemma proxy_header_read_back_witness :
  let resources :=
    [mkResource "http://lp/a.js" 1 0; mkResource "http://lp/b.css" 2 0;
     mkResource "http://lp/c.png" 3 120] in
  parsePrefetchURLs (dependencies_ new) (prefetchHeaderValue resources)
    = (fold_left store resources (dependencies_ new), Normal) ∧
  parsePrefetchURLs (dependencies_ new) (prefetchHeaderValue [])
    = (dependencies_ new, Throw).
Proof.
  apply (proxy_header_read_back (dependencies_ new)
           (mkResource "http://lp/a.js" 1 0)
           [mkResource "http://lp/b.css" 2 0; mkResource "http://lp/c.png" 3 120]).
  - repeat (constructor; [repeat split; first [reflexivity|simpl; lia]|]).
    constructor.
  - reflexivity.
Defined.

(** X18. An element with fewer than three fields makes the parser raise
    before anything is pushed: when the element splits at [;] into fewer
    than three pieces, [parseElement] raises, and [parseElements] that
    meets it first returns the buckets as they were. The empty header
    value is such an element. *)
Theorem too_few_fields_raise (dependencies : list (list PrefetchResource.t))
    (element : string) (rest : list string) :
  length (JS.split element ";") < 3 →
  parseElement dependencies element = None ∧
  parseElements dependencies (element :: rest) = (dependencies, Throw).
Proof.
  intros Hlen.
  assert (parseElement dependencies element = None) as Hnone.
  { unfold parseElement.
    destruct (JS.split element ";") as [|a [|b [|c l]]]; simpl in Hlen;
      try lia; cbn [lookup list_lookup mbind option_bind]; try done.
    destruct (JS.split b "=" !! 1); done. }
  split; [done|]. simpl. by rewrite Hnone.
Qed.

Lemma too_few_fields_raise_witness :
  parseElement (dependencies_ new) "<http://lp/a.js>; priority=1" = None ∧
  parseElements (dependencies_ new)
    ("<http://lp/a.js>; priority=1" :: ["<http://lp/b.js>; priority=1; type=0"])
    = (dependencies_ new, Throw).
Proof.
  apply (too_few_fields_raise (dependencies_ new) "<http://lp/a.js>; priority=1"
           ["<http://lp/b.js>; priority=1; type=0"]).
  vm_compute. lia.
Defined.

Lemma parseElements_stop dependencies good bad rest dependencies1 :
  parseElements dependencies good = (dependencies1, Normal) →
  parseElement dependencies1 bad = None →
  parseElements dependencies (good ++ bad :: rest) = (dependencies1, Throw).
Proof.
  revert dependencies. induction good as [|g good IH]; intros dependencies Hg Hb.
  - simpl in *. inversion Hg; subst. by rewrite Hb.
  - simpl in *. destruct (parseElement dependencies g); [|done]. by apply IH.
Qed.

(** X19. A raise ends the turn where it happens. When the [x-prefetch]
    header of a response, with a value of ASCII characters, splits into
    elements of which one raises, the elements before it have been pushed
    on their buckets, and nothing after it is looked at: neither the
    elements that follow it, nor the headers that follow the [x-prefetch]
    header, so that a landing page url among them is not taken. *)
Theorem raise_ends_the_turn (s : t) (details : Details.t) (header : HttpHeader.t)
    (later : list HttpHeader.t) (good rest : list string) (bad : string)
    (dependencies1 : list (list PrefetchResource.t)) :
  didInit_ s = true →
  Details.responseHeaders details = header :: later →
  JS.toLowerCase (HttpHeader.name header) = "x-prefetch" →
  JS.isAscii (HttpHeader.value header) = true →
  JS.split (HttpHeader.value header) DELIMETER = good ++ bad :: rest →
  parseElements (dependencies_ s) good = (dependencies1, Normal) →
  parseElement dependencies1 bad = None →
  let s' := (step s (HeadersReceived details)).1 in
  (onHeadersReceived_ s details).2 = Throw ∧
  dependencies_ s' = dependencies1 ∧
  lpUrl s' = lpUrl s.
Proof.
  intros Hdi Hh Hname _ Hsplit Hgood Hbad. simpl. rewrite Hdi.
  unfold onHeadersReceived_. rewrite Hh. cbn [eachResponseHeader].
  rewrite Hname. cbn [String.eqb].
  replace (String.eqb "x-prefetch" "x-prefetch") with true by done.
  unfold parsePrefetchURLs. rewrite Hsplit.
  rewrite (parseElements_stop _ _ _ _ _ Hgood Hbad). done.
Qed.

Lemma raise_ends_the_turn_witness :
  let header :=
    HttpHeader.mk "X-Prefetch"
      ("<a>; priority=1; type=0|$de|<b>; priority=-5; type=0|$de|" +:+
       "<c>; priority=2; type=0") in
  let details :=
    Details.mk "1" 10 "http://proxy/" []
      [header; HttpHeader.mk "x-lp-url" "http://lp/"] in
  let s := (exec new [Run]).1 in
  let s' := (step s (HeadersReceived details)).1 in
  (onHeadersReceived_ s details).2 = Throw ∧
  dependencies_ s' = <[1 := [PrefetchResource.mk "a" "0"]]> (dependencies_ new) ∧
  lpUrl s' = lpUrl s.
Proof.
  apply (raise_ends_the_turn (exec new [Run]).1
           (Details.mk "1" 10 "http://proxy/" []
              [HttpHeader.mk "X-Prefetch"
                 ("<a>; priority=1; type=0|$de|<b>; priority=-5; type=0|$de|" +:+
                  "<c>; priority=2; type=0");
               HttpHeader.mk "x-lp-url" "http://lp/"])
           (HttpHeader.mk "X-Prefetch"
              ("<a>; priority=1; type=0|$de|<b>; priority=-5; type=0|$de|" +:+
               "<c>; priority=2; type=0"))
           [HttpHeader.mk "x-lp-url" "http://lp/"]
           ["<a>; priority=1; type=0"] ["<c>; priority=2; type=0"]
           "<b>; priority=-5; type=0").
  - reflexivity.
  - reflexivity.
  - reflexivity.
  - reflexivity.
  - reflexivity.
  - reflexivity.
  - reflexivity.
Defined.

End ProxyHints.

(** ** The content script *)

Section ContentScript.
Import NumericPriorityScheduler History.

Variable setLinkHrefAndRel : Content.Link → string → string → Content.Link.

Local Abbreviation handle := (Content.onMessageHandler setLinkHrefAndRel).
Local Abbreviation deliver := (Content.deliver setLinkHrefAndRel).

Lemma onMessageHandler_spec c m :
  Content.fetchedUrls_ (handle c m)
    = match injectedUrl m with
      | Some u => {[u]} ∪ Content.fetchedUrls_ c
      | None => Content.fetchedUrls_ c
      end ∧
  length (Content.head (handle c m)) + size (Content.fetchedUrls_ c)
    = length (Content.head c) + size (Content.fetchedUrls_ (handle c m)) ∧
  Content.didInit_ (handle c m) = Content.didInit_ c ∧
  Content.sent (handle c m) = Content.sent c.
Proof.
  unfold Content.onMessageHandler.
  destruct m as [i|u|ty u rt|u r f a b p|]; try done.
  cbn [Message.type injectedUrl].
  destruct (String.eqb ty MessageType.PREFETCH_RESOURCE) eqn:Hpf;
    [|destruct (String.eqb ty MessageType.PRELOAD_RESOURCE) eqn:Hpl];
    cbn [orb]; try done.
  - unfold Content.handlePrefetchResource. rewrite Hpf.
    case_decide as Hin; cbn.
    + split; [|done]. symmetry. apply subseteq_union_1_L.
      by apply singleton_subseteq_l.
    + rewrite length_app, size_union, size_singleton
        by (by apply disjoint_singleton_l).
      repeat split. simpl. lia.
  - unfold Content.handlePrefetchResource. rewrite Hpf, Hpl.
    case_decide as Hin; cbn.
    + split; [|done]. symmetry. apply subseteq_union_1_L.
      by apply singleton_subseteq_l.
    + rewrite length_app, size_union, size_singleton
        by (by apply disjoint_singleton_l).
      repeat split. simpl. lia.
Qed.

Lemma deliver_links (c : Content.t) (msgs : list Message.t) :
  Content.fetchedUrls_ (deliver c msgs)
    = Content.fetchedUrls_ c ∪ list_to_set (omap injectedUrl msgs) ∧
  length (Content.head (deliver c msgs)) + size (Content.fetchedUrls_ c)
    = length (Content.head c) + size (Content.fetchedUrls_ (deliver c msgs)).
Proof.
  revert c. induction msgs as [|m msgs IH]; intros c.
  - simpl. split; [|done]. by rewrite union_empty_r_L.
  - unfold Content.deliver in *. cbn [fold_left].
    destruct (onMessageHandler_spec c m) as (Hf & Hl & _).
    destruct (IH (handle c m)) as [Hf' Hl']. split; [|lia].
    rewrite Hf', Hf. cbn [omap list_omap].
    destruct (injectedUrl m) as [u|]; [|done].
    cbn [list_to_set]. rewrite (union_comm_L {[u]} (Content.fetchedUrls_ c)).
    by rewrite <- union_assoc_L.
Qed.

(** X20. The content script makes one [link] for each url, however often
    the url is sent: after any messages, the urls it remembers are those it
    remembered before and those of the prefetch and preload directives
    among the messages, and the number of [link] elements it has appended
    to the page has grown by the number of urls it has newly remembered.
    Messages of the other types append nothing. *)
Theorem one_link_per_url (c : Content.t) (msgs : list Message.t) :
  Content.fetchedUrls_ (deliver c msgs)
    = Content.fetchedUrls_ c ∪ list_to_set (omap injectedUrl msgs) ∧
  length (Content.head (deliver c msgs)) + size (Content.fetchedUrls_ c)
    = length (Content.head c) + size (Content.fetchedUrls_ (deliver c msgs)).
Proof. exact (deliver_links c msgs). Qed.

Lemma exec_directive_type s events msgType u resourceType :
  Message.Prefetch msgType u resourceType ∈ (exec s events).2 →
  msgType = MessageType.PRELOAD_RESOURCE ∨
  msgType = MessageType.PREFETCH_RESOURCE.
Proof.
  revert s. induction events as [|e rest IH]; intros s Hin; simpl in *.
  - by apply elem_of_nil in Hin.
  - pose proof (step_directive s e msgType u resourceType) as Hd.
    destruct (step s e) as [s1 out1]. simpl in *.
    specialize (IH s1). destruct (exec s1 rest) as [s2 out2]. simpl in *.
    apply elem_of_app in Hin as [Hin|Hin]; [|by apply IH].
    by destruct (Hd Hin) as (_ & Hty & _).
Qed.

Lemma injected_directives s events :
  omap injectedUrl (exec s events).2 = directiveUrls (exec s events).2.
Proof.
  pose proof (exec_directive_type s events) as Hty.
  unfold directiveUrls. induction ((exec s events).2) as [|m out IH]; [done|].
  cbn [omap list_omap]. rewrite IH.
  2:{ intros ty u rt Hin. apply (Hty ty u rt). by apply list_elem_of_further. }
  destruct m as [i|u|ty u rt|u r f a b p|]; try done.
  cbn [injectedUrl directiveUrl].
  destruct (Hty ty u rt (list_elem_of_here _ _)) as [-> | ->]; done.
Qed.

(** X21. The page gets one [link] for each url that the scheduler sends a
    directive for, however many directives it sends for it: when the
    messages of the scheduler during any events are delivered to a content
    script that has just been constructed, the script remembers exactly the
    urls of the directives, and has appended as many [link] elements as
    there are different urls among them. *)
Theorem one_link_per_directive_url (s : t) (events : list event) :
  let out := (exec s events).2 in
  let c := deliver Content.new out in
  Content.fetchedUrls_ c = list_to_set (directiveUrls out) ∧
  length (Content.head c) = size (Content.fetchedUrls_ c).
Proof.
  intros out c.
  destruct (deliver_links Content.new out) as [Hf Hl]. fold c in Hf, Hl.
  unfold out in Hf. rewrite injected_directives in Hf. fold out in Hf.
  change (Content.fetchedUrls_ Content.new) with (∅ : gset string) in Hf, Hl.
  change (Content.head Content.new) with (@nil Content.Link) in Hl.
  rewrite union_empty_l_L in Hf. rewrite size_empty in Hl. simpl in Hl.
  split; [done | lia].
Qed.

End ContentScript.
